(** * Othello: the legality engine, the move enumerator, the medium bot
      strategy and the game state machine of [game.py], embedded in Rocq.

    Python values are modelled as follows.
    - [int] is [Z]; a board cell ([int | None]) is [option Z], a [Symbol]
      stored in a cell being its integer value (an [IntEnum] compares equal
      to it); the board ([list[list[int | None]]]) is a list of rows, no
      two of which are the same object, as [Game.__init__] builds it.
    - [seq[i]] and [seq[i] = x] are [py_getitem] and [py_setitem]: a
      negative index counts from the end and an index outside [-len, len)
      raises [IndexError].
    - a [set] of coordinates is a [gset (Z * Z)]; a [dict] is an
      association list in insertion order.
    - a call that can raise returns a [result]; a mutating method returns
      the new state, and the state of a call that raises is dropped.
      [Timeout] only marks a loop model that ran out of fuel and is proved
      unreachable on 8x8 boards.
    - [random.choice] takes its draw as an argument, and [input()] reads
      from a stream of lines given as an argument.
    The script body (menus and score) is not modelled, and of the text
    printed only the lines of [display_board]. *)

From stdpp Require Import base option list gmap sets sorting strings pretty.
From Stdlib Require Import ZArith Lia.

Local Open Scope Z_scope.

(** ** Exceptions and results *)

Inductive exn : Type :=
| IndexError
| KeyError
| ValueError.

Inductive result (A : Type) : Type :=
| Ok (a : A)
| Raise (e : exn)
| Timeout.

Arguments Ok {A} a.
Arguments Raise {A} e.
Arguments Timeout {A}.

Global Instance result_ret : MRet result := fun _ a => Ok a.

Global Instance result_bind : MBind result := fun _ _ k m =>
  match m with
  | Ok a => k a
  | Raise e => Raise e
  | Timeout => Timeout
  end.

Global Instance result_fmap : FMap result := fun _ _ f m =>
  match m with
  | Ok a => Ok (f a)
  | Raise e => Raise e
  | Timeout => Timeout
  end.

(** ** Python sequences *)

Abbreviation coord := (Z * Z)%type.
Abbreviation cell := (option Z).
Abbreviation Board := (list (list cell)).

(** The position an index denotes in a sequence of length [n]: a negative
    index counts from the end; outside [-n, n) it is an [IndexError]. *)
Definition py_index (n : nat) (i : Z) : result nat :=
  let j := if i <? 0 then i + Z.of_nat n else i in
  if (0 <=? j) && (j <? Z.of_nat n) then Ok (Z.to_nat j)
  else Raise IndexError.

(** [seq[i]] *)
Definition py_getitem {A : Type} (l : list A) (i : Z) : result A :=
  j ← py_index (length l) i;
  match l !! j with
  | Some x => Ok x
  | None => Raise IndexError
  end.

(** [seq[i] = x] *)
Definition py_setitem {A : Type} (l : list A) (i : Z) (x : A) : result (list A) :=
  j ← py_index (length l) i;
  Ok (<[j := x]> l).

(** [board[r][c]] *)
Definition board_get (board : Board) (r c : Z) : result cell :=
  row ← py_getitem board r;
  py_getitem row c.

(** [board[r][c] = v] *)
Definition board_set (board : Board) (r c : Z) (v : cell) : result Board :=
  row ← py_getitem board r;
  row' ← py_setitem row c v;
  py_setitem board r row'.

(** [cell == v] for a cell and an [int]; [None] equals no integer. *)
Definition cell_eqb (x : cell) (v : Z) : bool :=
  match x with
  | Some n => n =? v
  | None => false
  end.

(** [cell is None] *)
Definition is_none (x : cell) : bool :=
  match x with
  | None => true
  | Some _ => false
  end.

(** [for x in l: s = body(s, x)], stopping at the first exception. *)
Fixpoint for_each {A S : Type} (l : list A) (s : S) (body : S -> A -> result S)
  : result S :=
  match l with
  | [] => Ok s
  | x :: l' => s' ← body s x; for_each l' s' body
  end.

(** [range(lo, hi)] *)
Definition py_range (lo hi : Z) : list Z :=
  (fun i => lo + Z.of_nat i) <$> seq 0 (Z.to_nat (hi - lo)).

(** Truth value of a set: [len(s) != 0]. *)
Definition set_truthy (s : gset coord) : bool :=
  negb (Nat.eqb (size s) 0).

(** ** Dictionaries, in insertion order *)

Section Dict.
Context {K V : Type} `{EqDecision K}.

Definition dict : Type := list (K * V).

(** [k in d] *)
Definition dict_contains (d : dict) (k : K) : bool :=
  bool_decide (k ∈ d.*1).

(** [d[k]] *)
Fixpoint dict_get (d : dict) (k : K) : result V :=
  match d with
  | [] => Raise KeyError
  | (k', v) :: d' => if decide (k' = k) then Ok v else dict_get d' k
  end.

(** [d[k] = v]: an existing key keeps its position. *)
Fixpoint dict_set (d : dict) (k : K) (v : V) : dict :=
  match d with
  | [] => [(k, v)]
  | (k', v') :: d' =>
      if decide (k' = k) then (k, v) :: d' else (k', v') :: dict_set d' k v
  end.

(** [list(d)] *)
Definition dict_keys (d : dict) : list K := d.*1.
End Dict.

Arguments dict : clear implicits.

(** ** [random.choice]

    The generator is an injected source: [rng] is the raw draw and
    [rng mod len(seq)] the index chosen, so every index is reachable. *)
Definition random_choice {A : Type} (rng : nat) (seq : list A) : result A :=
  match seq with
  | [] => Raise IndexError
  | _ :: _ => py_getitem seq (Z.of_nat (rng mod length seq))
  end.

(** ** Symbols and difficulty *)

Inductive Symbol : Type :=
| BLACK
| WHITE.

Global Instance Symbol_eq_dec : EqDecision Symbol.
Proof. solve_decision. Defined.

(** [symbol.value] *)
Definition value (s : Symbol) : Z :=
  match s with
  | BLACK => 0
  | WHITE => 1
  end.

(** [Symbol(v)] *)
Definition Symbol_of_value (v : Z) : result Symbol :=
  if v =? 0 then Ok BLACK
  else if v =? 1 then Ok WHITE
  else Raise ValueError.

Inductive Difficulty : Type :=
| EASY
| MEDIUM
| HARD.

(** ** Player: the legality engine and the move enumerator *)

Module Player.

(** [0 <= row < 8 and 0 <= col < 8] *)
Definition in_range (row col : Z) : bool :=
  (0 <=? row) && (row <? 8) && (0 <=? col) && (col <? 8).

Definition dirs : list coord :=
  [ (-1, -1); (-1, 0); (-1, 1);
    (0, -1);           (0, 1);
    (1, -1);  (1, 0);  (1, 1) ].

(** [0 <= row < 8 and 0 <= col < 8 and board[row][col] == v] *)
Definition in_range_and_eq (board : Board) (row col v : Z) : result bool :=
  if in_range row col then
    x ← board_get board row col;
    mret (cell_eqb x v)
  else mret false.

(** The [while] loop that collects the opponent run; [fuel] bounds the
    number of times its condition is evaluated. *)
Fixpoint collect_run (fuel : nat) (board : Board) (opponent_value dr dc : Z)
    (row col : Z) (line : list coord) : result (list coord * Z * Z) :=
  match fuel with
  | O => Timeout
  | S fuel' =>
      go ← in_range_and_eq board row col opponent_value;
      if go : bool then
        collect_run fuel' board opponent_value dr dc
          (row + dr) (col + dc) (line ++ [(row, col)])
      else mret (line, row, col)
  end.

Definition loop_fuel : nat := 9.

Arguments collect_run : simpl never.

(** The body of [for dr, dc in dirs]. *)
Definition scan_dir (board : Board) (r c player_value opponent_value : Z)
    (flips : gset coord) (d : coord) : result (gset coord) :=
  let '(dr, dc) := d in
  let row := r + dr in
  let col := c + dc in
  if negb (in_range row col) then mret flips
  else
    x ← board_get board row col;
    if negb (cell_eqb x opponent_value) then mret flips
    else
      '(line, row, col) ←
        collect_run loop_fuel board opponent_value dr dc row col [];
      ends ← in_range_and_eq board row col player_value;
      if ends : bool then mret (flips ∪ list_to_set line) else mret flips.

Definition pieces_flipped (board : Board) (r c player_value : Z)
  : result (gset coord) :=
  x ← board_get board r c;
  if negb (is_none x) then mret ∅
  else
    let opponent_value := 1 - player_value in
    for_each dirs ∅ (scan_dir board r c player_value opponent_value).

(** [for r in range(8) for c in range(8)] *)
Definition all_cells : list coord :=
  r ← py_range 0 8; c ← py_range 0 8; [(r, c)].

Definition get_valid_moves (board : Board) (symbol : Symbol)
  : result (dict coord (gset coord)) :=
  let player_value := value symbol in
  for_each all_cells []
    (fun d '(r, c) =>
       x ← board_get board r c;
       if is_none x then
         flipped ← pieces_flipped board r c player_value;
         if set_truthy flipped then mret (dict_set d (r, c) flipped)
         else mret d
       else mret d).

End Player.

(** ** Bot *)

Module Bot.
Import Player.

Record t : Type := mk {
  bot_symbol : Symbol;
  human_symbol : Symbol;
  difficulty : Difficulty
}.

(** [Bot.__init__] *)
Definition init (bot_symbol : Symbol) (difficulty : Difficulty) : result t :=
  human_symbol ← Symbol_of_value (1 - value bot_symbol);
  mret (mk bot_symbol human_symbol difficulty).

Definition CORNERS : list coord := [(0, 0); (0, 7); (7, 0); (7, 7)].

Definition EDGES : list coord :=
  ((fun c => (0, c)) <$> py_range 0 8) ++ ((fun r => (r, 0)) <$> py_range 0 8)
  ++ ((fun c => (7, c)) <$> py_range 1 7) ++ ((fun r => (r, 7)) <$> py_range 1 7).

(** The set comprehension building [pseudo_cand]. *)
Definition pseudo_candidates (board : Board) (affected : gset coord)
  : result (gset coord) :=
  for_each (elements affected) ∅
    (fun acc '(ar, ac) =>
       for_each dirs acc
         (fun acc '(dr, dc) =>
            if in_range (ar + dr) (ac + dc) then
              x ← board_get board (ar + dr) (ac + dc);
              if is_none x then mret (acc ∪ {[ (ar + dr, ac + dc) ]})
              else mret acc
            else mret acc)).

(** [any(corner in pseudo_cand and pieces_flipped(...) for corner in
    CORNERS)], left to right and stopping at the first true item. *)
Fixpoint gives_corner (board : Board) (human_value : Z)
    (pseudo_cand : gset coord) (corners : list coord) : result bool :=
  match corners with
  | [] => mret false
  | corner :: rest =>
      hit ← (if bool_decide (corner ∈ pseudo_cand) then
               fl ← pieces_flipped board corner.1 corner.2 human_value;
               mret (set_truthy fl)
             else mret false);
      if hit : bool then mret true
      else gives_corner board human_value pseudo_cand rest
  end.

(** [sorted(items, key=lambda kv: kv[1])]: a stable insertion sort; folding
    from the right, an item goes before the items of equal score that
    followed it. *)
Fixpoint insert_by_score (x : coord * Z) (l : list (coord * Z))
  : list (coord * Z) :=
  match l with
  | [] => [x]
  | y :: l' => if x.2 <=? y.2 then x :: y :: l' else y :: insert_by_score x l'
  end.

Definition sorted_by_score (l : list (coord * Z)) : list (coord * Z) :=
  foldr insert_by_score [] l.

(** The loop over [valid_moves.items()]; its state is
    [(valid_non_corner, possible_moves)]. *)
Definition rate_move (self : t) (board : Board)
    (st : list coord * dict coord Z) (item : coord * gset coord)
  : result (list coord * dict coord Z) :=
  let '(valid_non_corner, possible_moves) := st in
  let '((r, c), flipped) := item in
  let affected := {[ (r, c) ]} ∪ flipped in
  pseudo_cand ← pseudo_candidates board affected;
  let possible_moves :=
    dict_set possible_moves (r, c) (Z.of_nat (size pseudo_cand)) in
  risky ← gives_corner board (value (human_symbol self)) pseudo_cand CORNERS;
  if risky : bool then mret (valid_non_corner, possible_moves)
  else mret (valid_non_corner ++ [(r, c)], possible_moves).

Definition _medium_strategy (self : t) (board : Board)
    (valid_moves : dict coord (gset coord)) (rng : nat)
  : result (coord * gset coord) :=
  let valid_corner := filter (fun k => dict_contains valid_moves k) CORNERS in
  if negb (bool_decide (valid_corner = [])) then
    move ← random_choice rng valid_corner;
    fl ← dict_get valid_moves move;
    mret (move, fl)
  else
    '(valid_non_corner, possible_moves) ←
      for_each valid_moves ([], []) (rate_move self board);
    if negb (bool_decide (valid_non_corner = [])) then
      move ← random_choice rng valid_non_corner;
      fl ← dict_get valid_moves move;
      mret (move, fl)
    else
      let valid_edges := filter (fun k => dict_contains valid_moves k) EDGES in
      if negb (bool_decide (valid_edges = [])) then
        move ← random_choice rng valid_edges;
        fl ← dict_get valid_moves move;
        mret (move, fl)
      else
        let sorted_possible_moves := sorted_by_score possible_moves in
        first ← py_getitem sorted_possible_moves 0;
        let best_score := first.2 in
        let tied :=
          (filter (fun kv => bool_decide (kv.2 = best_score))
             sorted_possible_moves).*1 in
        choice ← random_choice rng tied;
        fl ← dict_get valid_moves choice;
        mret (choice, fl).

(** [Bot.get_move]; [None] is the pass signal. *)
Definition get_move (self : t) (board : Board) (rng : nat)
  : result (option (coord * gset coord)) :=
  valid_moves ← get_valid_moves board (bot_symbol self);
  if bool_decide (valid_moves = []) then mret None
  else
    match difficulty self with
    | EASY =>
        move ← random_choice rng (dict_keys valid_moves);
        fl ← dict_get valid_moves move;
        mret (Some (move, fl))
    | _ =>
        mv ← _medium_strategy self board valid_moves rng;
        mret (Some mv)
    end.

End Bot.

(** ** Human *)

Module Human.
Import Player.

Record t : Type := mk {
  symbol : Symbol
}.

(** [Human.get_move]. The console is a stream of lines: [input n] is what
    [int()] makes of line [n], [None] where it raises [ValueError], and
    [pos] is the number of lines read so far; the returned position is the
    one reached. [fuel] bounds the passes of [while True]. *)
Fixpoint get_move (fuel : nat) (self : t) (board : Board)
    (input : nat -> option Z) (pos : nat)
  : result (coord * gset coord * nat) :=
  match fuel with
  | O => Timeout
  | S fuel' =>
      match input pos with
      | None => get_move fuel' self board input (S pos)
      | Some row =>
          (* the prompt for the column reads [len(board[0])] *)
          _ ← py_getitem board 0;
          match input (S pos) with
          | None => get_move fuel' self board input (S (S pos))
          | Some col =>
              if negb (in_range row col) then
                get_move fuel' self board input (S (S pos))
              else
                flipped ← pieces_flipped board row col (value (symbol self));
                if set_truthy flipped then
                  mret ((row, col), flipped, S (S pos))
                else get_move fuel' self board input (S (S pos))
          end
      end
  end.

End Human.

(** ** Game *)

Module Game.

Inductive player : Type :=
| Human (symbol : Symbol)
| Computer (bot : Bot.t).

Record t : Type := mk {
  board : Board;
  players : Symbol -> player;
  current : Symbol;
  game_over : bool;
  winner : option Symbol;
  moves : Z
}.

Definition set_board (self : t) (b : Board) : t :=
  mk b (players self) (current self) (game_over self) (winner self) (moves self).
Definition set_moves (self : t) (n : Z) : t :=
  mk (board self) (players self) (current self) (game_over self) (winner self) n.
Definition set_current (self : t) (s : Symbol) : t :=
  mk (board self) (players self) s (game_over self) (winner self) (moves self).
Definition set_game_over (self : t) (b : bool) : t :=
  mk (board self) (players self) (current self) b (winner self) (moves self).
Definition set_winner (self : t) (w : option Symbol) : t :=
  mk (board self) (players self) (current self) (game_over self) w (moves self).

(** [Game.__init__] *)
Definition init (player_b player_w : player) (starting_player : Symbol)
  : result t :=
  let board := replicate 8 (replicate 8 (None : cell)) in
  board ← board_set board 3 3 (Some (value BLACK));
  board ← board_set board 3 4 (Some (value WHITE));
  board ← board_set board 4 3 (Some (value WHITE));
  board ← board_set board 4 4 (Some (value BLACK));
  mret (mk board
          (fun s => match s with BLACK => player_b | WHITE => player_w end)
          starting_player false None 0).

(** [sum(pred(cell) for cell in cells)] over a generator [cells]: the
    generator is consumed, and what is left of it is returned with the
    sum. *)
Fixpoint sum_gen (pred : cell -> bool) (cells : list cell) (acc : Z)
  : Z * list cell :=
  match cells with
  | [] => (acc, [])
  | x :: rest => sum_gen pred rest (acc + (if pred x then 1 else 0))
  end.

(** [Game._find_winner]; [cells] is one generator, shared by both sums. *)
Definition _find_winner (self : t) : option Symbol :=
  let cells := concat (board self) in
  let '(black, cells) := sum_gen (fun x => cell_eqb x (value BLACK)) cells 0 in
  let '(white, cells) := sum_gen (fun x => cell_eqb x (value WHITE)) cells 0 in
  if black =? white then None
  else if white <? black then Some BLACK else Some WHITE.

(** [Game.move] *)
Definition move (self : t) (row col : Z) (flipped : gset coord)
  : result (bool * t) :=
  let mark := Some (value (current self)) in
  b ← board_set (board self) row col mark;
  let self := set_board self b in
  let self := set_moves self (moves self + 1) in
  b ← for_each (elements flipped) (board self)
        (fun b '(r, c) => board_set b r c mark);
  let self := set_board self b in
  if moves self =? 60 then
    let self := set_game_over self true in
    let self := set_winner self (_find_winner self) in
    mret (true, self)
  else
    next ← Symbol_of_value (1 - value (current self));
    let self := set_current self next in
    mret (true, self).

(** [symbols[cell]] in [display_board] *)
Definition symbols (x : cell) : result string :=
  match x with
  | None => Ok "."
  | Some v =>
      if v =? 0 then Ok "B" else if v =? 1 then Ok "W" else Raise KeyError
  end.

Fixpoint spaces (n : nat) : string :=
  match n with
  | O => ""
  | S n' => " " +:+ spaces n'
  end.

(** [f"{n:2}"] for an [int]: right-aligned in two columns. *)
Definition format_int2 (n : Z) : string :=
  let s := pretty n in spaces (2 - String.length s) +:+ s.

(** [f"{s:2}"] for a [str]: left-aligned in two columns. *)
Definition format_str2 (s : string) : string :=
  s +:+ spaces (2 - String.length s).

(** [sep.join(l)] *)
Fixpoint join (sep : string) (l : list string) : string :=
  match l with
  | [] => ""
  | [x] => x
  | x :: l' => x +:+ sep +:+ join sep l'
  end.

(** A generator expression, evaluated from left to right. *)
Fixpoint map_result {A B : Type} (f : A -> result B) (l : list A)
  : result (list B) :=
  match l with
  | [] => Ok []
  | x :: l' => y ← f x; ys ← map_result f l'; mret (y :: ys)
  end.

(** [Game.display_board]: the lines it prints. *)
Definition display_board (self : t) : result (list string) :=
  let n := Z.of_nat (length (board self)) in
  let header := "   " +:+ join " " (format_int2 <$> py_range 0 n) in
  rows ← map_result
           (fun '(r, row) =>
              cells ← map_result symbols row;
              mret (format_int2 r +:+ " " +:+ join " " (format_str2 <$> cells)))
           (imap (fun i row => (Z.of_nat i, row)) (board self));
  mret (header :: rows).

(** [self.players[self.current].get_move(self.board)] *)
Definition player_get_move (fuel : nat) (p : player) (board : Board)
    (rng : nat) (input : nat -> option Z) (pos : nat)
  : result (option (coord * gset coord) * nat) :=
  match p with
  | Human symbol =>
      '(mv, fl, pos') ← Human.get_move fuel (Human.mk symbol) board input pos;
      mret (Some (mv, fl), pos')
  | Computer bot =>
      res ← Bot.get_move bot board rng;
      mret (res, pos)
  end.

(** [Game.play]. [rng turn] is the draw of the bot in pass [turn] of the
    loop, [input] and [pos] are the console of the human players, and
    [fuel] bounds the passes of the loop (and of the loop inside
    [Human.get_move]). The text printed is dropped; [display_board] is
    run for the exception it can raise. *)
Fixpoint play (fuel : nat) (self : t) (rng : nat -> nat) (turn : nat)
    (input : nat -> option Z) (pos : nat) : result (t * nat) :=
  match fuel with
  | O => Timeout
  | S fuel' =>
      if negb (game_over self) then
        _ ← display_board self;
        let current_player := players self (current self) in
        '(res, pos) ← player_get_move fuel' current_player (board self)
                        (rng turn) input pos;
        match res with
        | Some ((row, col), flipped) =>
            '(_, self) ← move self row col flipped;
            play fuel' self rng (S turn) input pos
        | None => play fuel' self rng (S turn) input pos
        end
      else
        _ ← display_board self;
        mret (self, pos)
  end.

End Game.

(** ** Notions used to state the properties *)

Import Player.

(** The board is an 8x8 grid. *)
Definition wf_board (b : Board) : Prop :=
  length b = 8%nat ∧ Forall (fun row => length row = 8%nat) b.

(** The cell [k] steps from [(r, c)] in direction [(dr, dc)]. *)
Definition step_from (r c dr dc k : Z) : coord := (r + k * dr, c + k * dc).

(** [(row, col)] is on the board and holds the integer [v]. *)
Definition holds (b : Board) (p : coord) (v : Z) : Prop :=
  in_range p.1 p.2 = true ∧ board_get b p.1 p.2 = Ok (Some v).

(** The capture rule in the words of the specification: [p] is captured in
    direction [d] when it lies on a run of [n >= 1] opponent cells that
    starts one step from [(r, c)] and is followed, on the board, by a cell
    of the mover's own colour.  A run that leaves the board or meets an
    empty cell has no such closing cell. *)
Definition captured_along (b : Board) (r c player_value : Z) (d p : coord)
  : Prop :=
  ∃ n k : Z,
    1 <= k <= n ∧ p = step_from r c d.1 d.2 k ∧
    (∀ j, 1 <= j <= n → holds b (step_from r c d.1 d.2 j) (1 - player_value)) ∧
    holds b (step_from r c d.1 d.2 (n + 1)) player_value.

(** The union of the captured runs over the eight compass directions. *)
Definition capture_spec (b : Board) (r c player_value : Z) (p : coord) : Prop :=
  ∃ d, d ∈ dirs ∧ captured_along b r c player_value d p.

(** A legal move: an empty cell of the board with a non-empty capture set. *)
Definition legal_move (b : Board) (player_value : Z) (p : coord) : Prop :=
  in_range p.1 p.2 = true ∧ board_get b p.1 p.2 = Ok None ∧
  ∃ fl, pieces_flipped b p.1 p.2 player_value = Ok fl ∧ fl ≠ ∅.

(** Exchanging the two colours. *)
Definition swap_cell (x : cell) : cell :=
  match x with
  | Some v => if v =? 0 then Some 1 else if v =? 1 then Some 0 else Some v
  | None => None
  end.

Definition colorSwap (b : Board) : Board :=
  (fun row : list cell => swap_cell <$> row) <$> b.

(** Cell counts. *)
Definition count_if (f : cell -> bool) (b : Board) : Z :=
  Z.of_nat (length (List.filter f (concat b))).

Definition count_color (v : Z) (b : Board) : Z :=
  count_if (fun x => cell_eqb x v) b.

Definition occupied (b : Board) : Z :=
  count_if (fun x => negb (is_none x)) b.

Definition opponent (s : Symbol) : Symbol :=
  match s with
  | BLACK => WHITE
  | WHITE => BLACK
  end.

(** A sequence of [Game.move] calls, each on an empty cell of the board
    and with the capture set the legality engine gives for the colour to
    move. *)
Inductive placing_run : Game.t -> list coord -> Game.t -> Prop :=
| placing_run_nil g : placing_run g [] g
| placing_run_cons g r c fl ok g1 ms g2 :
    in_range r c = true ->
    board_get (Game.board g) r c = Ok None ->
    pieces_flipped (Game.board g) r c (value (Game.current g)) = Ok fl ->
    Game.move g r c fl = Ok (ok, g1) ->
    placing_run g1 ms g2 ->
    placing_run g ((r, c) :: ms) g2.

(** The same, each move being legal for the colour to move: its capture
    set is not empty. *)
Inductive legal_run : Game.t -> list coord -> Game.t -> Prop :=
| legal_run_nil g : legal_run g [] g
| legal_run_cons g r c fl ok g1 ms g2 :
    in_range r c = true ->
    board_get (Game.board g) r c = Ok None ->
    pieces_flipped (Game.board g) r c (value (Game.current g)) = Ok fl ->
    fl ≠ ∅ ->
    Game.move g r c fl = Ok (ok, g1) ->
    legal_run g1 ms g2 ->
    legal_run g ((r, c) :: ms) g2.

(** Black and White cells together. *)
Definition pieces (b : Board) : Z :=
  count_color (value BLACK) b + count_color (value WHITE) b.

(** An executable check of [legal_run]. *)
Fixpoint replay (g : Game.t) (ms : list coord) : option Game.t :=
  match ms with
  | [] => Some g
  | (r, c) :: ms' =>
      if in_range r c then
        match board_get (Game.board g) r c,
              pieces_flipped (Game.board g) r c (value (Game.current g)) with
        | Ok None, Ok fl =>
            if set_truthy fl then
              match Game.move g r c fl with
              | Ok (_, g1) => replay g1 ms'
              | _ => None
              end
            else None
        | _, _ => None
        end
      else None
  end.

(** The board [Game.init] builds. *)
Definition start_board : Board :=
  [ [None; None; None; None; None; None; None; None];
    [None; None; None; None; None; None; None; None];
    [None; None; None; None; None; None; None; None];
    [None; None; None; Some 0; Some 1; None; None; None];
    [None; None; None; Some 1; Some 0; None; None; None];
    [None; None; None; None; None; None; None; None];
    [None; None; None; None; None; None; None; None];
    [None; None; None; None; None; None; None; None] ].

Definition start_game (player_b player_w : Game.player) (s : Symbol) : Game.t :=
  Game.mk start_board
    (fun s => match s with BLACK => player_b | WHITE => player_w end)
    s false None 0.

(** A complete game without a pass, Black moving first. *)
Definition full_game : list coord :=
  [ (5, 3); (5, 2); (2, 4); (4, 5); (5, 6); (6, 3); (6, 1); (5, 1); (5, 5);
    (7, 0); (7, 3); (7, 4); (5, 0); (2, 5); (3, 5); (4, 1); (7, 5); (2, 3);
    (7, 2); (7, 1); (1, 6); (3, 6); (2, 6); (0, 7); (4, 6); (3, 7); (5, 4);
    (6, 2); (3, 0); (6, 5); (1, 2); (3, 1); (4, 0); (4, 7); (6, 0); (1, 7);
    (6, 4); (2, 2); (4, 2); (7, 6); (2, 0); (0, 1); (6, 7); (1, 0); (1, 1);
    (5, 7); (1, 5); (0, 0); (6, 6); (7, 7); (2, 7); (0, 5); (3, 2); (1, 4);
    (2, 1); (1, 3); (0, 3); (0, 2); (0, 4); (0, 6) ].

(** The cell at a non-negative coordinate, without exceptions. *)
Definition cell_at (b : Board) (r c : Z) : option cell :=
  row ← b !! Z.to_nat r; row !! Z.to_nat c.

(** The [n] cells met from [(row, col)] on, walking in direction
    [(dr, dc)]. *)
Definition run_cells (row col dr dc : Z) (n : nat) : list coord :=
  (fun j => step_from row col dr dc (Z.of_nat j)) <$> seq 0 n.

(** How many cells are left on the board from an on-board [(row, col)] in
    a compass direction. *)
Definition steps_left (d : coord) (row col : Z) : Z :=
  if d.1 =? 1 then 8 - row
  else if d.1 =? -1 then row + 1
  else if d.2 =? 1 then 8 - col
  else col + 1.

(** The position of [full_game] before its last move, and after it. *)
Definition before_last : Game.t :=
  Eval vm_compute in
    default (start_game (Game.Human BLACK) (Game.Human WHITE) BLACK)
      (replay (start_game (Game.Human BLACK) (Game.Human WHITE) BLACK)
         (take 59 full_game)).

Definition full_game_end : Game.t :=
  Eval vm_compute in
    default (start_game (Game.Human BLACK) (Game.Human WHITE) BLACK)
      (replay (start_game (Game.Human BLACK) (Game.Human WHITE) BLACK)
         full_game).

(** The position after Black opens at (2,4). *)
Definition after_opening : Game.t :=
  Eval vm_compute in
    default (start_game (Game.Human BLACK) (Game.Human WHITE) BLACK)
      (replay (start_game (Game.Human BLACK) (Game.Human WHITE) BLACK)
         [(2, 4)]).

(** A board with a White piece on the top edge and a Black piece below it. *)
Definition edge_board : Board :=
  [ [None; None; None; None; Some 1; None; None; None];
    [None; None; None; None; Some 0; None; None; None];
    [None; None; None; None; None; None; None; None];
    [None; None; None; None; None; None; None; None];
    [None; None; None; None; None; None; None; None];
    [None; None; None; None; None; None; None; None];
    [None; None; None; None; None; None; None; None];
    [None; None; None; None; None; None; None; None] ].

(** The starting position with a White piece at (0,1) and a Black piece
    at (0,2) added: the corner (0,0) is a legal move of Black. *)
Definition corner_board : Board :=
  [ [None; Some 1; Some 0; None; None; None; None; None];
    [None; None; None; None; None; None; None; None];
    [None; None; None; None; None; None; None; None];
    [None; None; None; Some 0; Some 1; None; None; None];
    [None; None; None; Some 1; Some 0; None; None; None];
    [None; None; None; None; None; None; None; None];
    [None; None; None; None; None; None; None; None];
    [None; None; None; None; None; None; None; None] ].

Definition corner_moves : dict coord (gset coord) :=
  [ ((0, 0), {[ (0, 1) ]}); ((2, 4), {[ (3, 4) ]}); ((3, 5), {[ (3, 4) ]});
    ((4, 2), {[ (4, 3) ]}); ((5, 3), {[ (4, 3) ]}) ].

Definition medium_black : Bot.t := Bot.mk BLACK WHITE MEDIUM.

(** A sequence of [Game.move] calls with any targets and capture sets. *)
Fixpoint run_moves (g : Game.t) (ms : list (coord * gset coord))
  : result Game.t :=
  match ms with
  | [] => Ok g
  | (p, fl) :: ms' => '(_, g1) ← Game.move g p.1 p.2 fl; run_moves g1 ms'
  end.

(** The colour to move after [n] turn changes, [s] having started. *)
Definition turn_after (s : Symbol) (n : Z) : Symbol :=
  if Z.even n then s else opponent s.

(** A coordinate that no index of an 8x8 board denotes. *)
Definition off_board (p : coord) : Prop :=
  p.1 < -8 ∨ 8 <= p.1 ∨ p.2 < -8 ∨ 8 <= p.2.

(** The order in which [get_valid_moves] scans the board. *)
Definition row_major (p q : coord) : Prop :=
  p.1 < q.1 ∨ (p.1 = q.1 ∧ p.2 < q.2).

Global Instance row_major_dec p q : Decision (row_major p q).
Proof. unfold row_major. apply _. Defined.

(** The exposure set of a move, as the medium strategy computes it: the
    empty cells of the board next to one of the [affected] cells. *)
Definition exposed (b : Board) (affected : gset coord) (p : coord) : Prop :=
  in_range p.1 p.2 = true ∧ board_get b p.1 p.2 = Ok None ∧
  ∃ a d, a ∈ affected ∧ d ∈ dirs ∧ p = (a.1 + d.1, a.2 + d.2).

(** The number of exposed cells. *)
Definition exposure_count (b : Board) (affected : gset coord) (n : Z) : Prop :=
  ∃ s : gset coord,
    (∀ p, p ∈ s ↔ exposed b affected p) ∧ n = Z.of_nat (size s).

(** A move gives the opponent a corner: a corner is exposed and, on the
    board as it is before the move, the opponent captures by playing it. *)
Definition gifts_corner (b : Board) (human_value : Z) (affected : gset coord)
  : Prop :=
  ∃ corner fl,
    corner ∈ Bot.CORNERS ∧ exposed b affected corner ∧
    pieces_flipped b corner.1 corner.2 human_value = Ok fl ∧ fl ≠ ∅.

(** The cells of the outer rows and columns. *)
Definition on_edge (p : coord) : Prop :=
  in_range p.1 p.2 = true ∧ (p.1 = 0 ∨ p.1 = 7 ∨ p.2 = 0 ∨ p.2 = 7).

(** A position in which Black's only legal move, (1,0), lies on the edge
    and lets White capture from the corner (0,0). *)
Definition edge_gift_board : Board :=
  [ [None; Some 0; Some 1; Some 1; Some 1; Some 1; Some 1; Some 1];
    [None; None; None; None; None; None; None; None];
    [Some 1; None; None; None; None; None; None; None];
    [Some 0; None; None; None; None; None; None; None];
    [None; None; None; None; None; None; None; None];
    [None; None; None; None; None; None; None; None];
    [None; None; None; None; None; None; None; None];
    [None; None; None; None; None; None; None; None] ].

Definition edge_gift_moves : dict coord (gset coord) :=
  [ ((1, 0), {[ (2, 0) ]}) ].

(** A position in which Black's legal moves, (1,1) and (6,6), are off the
    edge and each lets White capture from a corner; they expose 10 and 9
    cells. *)
Definition exposure_board : Board :=
  [ [None; Some 0; Some 1; Some 1; Some 1; Some 1; Some 1; Some 1];
    [None; None; None; None; None; None; None; None];
    [None; None; Some 1; None; None; None; None; None];
    [None; None; None; Some 0; None; None; None; None];
    [None; None; None; None; Some 0; None; None; None];
    [None; None; None; None; None; Some 1; None; None];
    [None; None; None; None; Some 1; None; None; None];
    [Some 1; Some 1; Some 1; Some 1; Some 1; Some 1; Some 0; None] ].

Definition exposure_moves : dict coord (gset coord) :=
  [ ((1, 1), {[ (2, 2) ]}); ((6, 6), {[ (5, 5) ]}) ].

Definition start_moves : dict coord (gset coord) :=
  [ ((2, 4), {[ (3, 4) ]}); ((3, 5), {[ (3, 4) ]});
    ((4, 2), {[ (4, 3) ]}); ((5, 3), {[ (4, 3) ]}) ].

Definition easy_black : Bot.t := Bot.mk BLACK WHITE EASY.

(** Every cell is empty, Black or White. *)
Definition valid_cell (x : cell) : Prop :=
  x = None ∨ x = Some 0 ∨ x = Some 1.

Definition valid_cells (b : Board) : Prop :=
  Forall (Forall valid_cell) b.

(** The colour a player object plays for. *)
Definition player_symbol (p : Game.player) : Symbol :=
  match p with
  | Game.Human symbol => symbol
  | Game.Computer bot => Bot.bot_symbol bot
  end.

(** What a player types: a line that is no integer, a row off the board,
    a column that is no integer, an illegal cell and then the legal move
    (2,4). *)
Definition typed_lines (n : nat) : option Z :=
  nth n [None; Some 9; Some 1; Some 2; None; Some 2; Some 3; Some 2; Some 4]
    None.

(** A game between two bots, Black easy and White medium, and the draws
    they are given. *)
Definition bot_game : Game.t :=
  start_game (Game.Computer (Bot.mk BLACK WHITE EASY))
    (Game.Computer (Bot.mk WHITE BLACK MEDIUM)) BLACK.

Definition bot_draws (turn : nat) : nat := (turn * 7 + 3)%nat.

Definition no_lines (n : nat) : option Z := None.

Definition bot_game_end : Game.t :=
  Eval vm_compute in
    match Game.play 61 bot_game bot_draws 0 no_lines 0 with
    | Ok (g, _) => g
    | _ => bot_game
    end.

(** Black to move on [edge_board], where Black has no legal move. *)
Definition stuck_game : Game.t :=
  Game.mk edge_board
    (fun s => match s with
              | BLACK => Game.Computer (Bot.mk BLACK WHITE MEDIUM)
              | WHITE => Game.Human WHITE
              end)
    BLACK false None 1.

(** The board turned upside down, and a coordinate on it. *)
Definition flip_rows (b : Board) : Board := reverse b.

Definition flip_coord (p : coord) : coord := (7 - p.1, p.2).

(** * Properties *)

(** ** Indexing *)

Lemma in_range_spec row col :
  in_range row col = true ↔ 0 <= row < 8 ∧ 0 <= col < 8.
Proof. unfold in_range. rewrite !andb_true_iff. lia. Qed.

Lemma in_range_false row col :
  in_range row col = false ↔ ¬ (0 <= row < 8 ∧ 0 <= col < 8).
Proof. rewrite <- in_range_spec. destruct (in_range row col); naive_solver. Qed.

Lemma cell_eqb_true x v : cell_eqb x v = true ↔ x = Some v.
Proof.
  destruct x as [n|]; simpl; [|naive_solver].
  rewrite Z.eqb_eq. naive_solver.
Qed.

Lemma is_none_true x : is_none x = true ↔ x = None.
Proof. destruct x; naive_solver. Qed.

Lemma py_index_nonneg n i :
  0 <= i ->
  py_index n i =
    if i <? Z.of_nat n then Ok (Z.to_nat i) else Raise IndexError.
Proof.
  intros Hi. unfold py_index.
  destruct (Z.ltb_spec i 0) as [?|_]; [lia|].
  by destruct (Z.leb_spec 0 i) as [_|?]; [|lia].
Qed.

Lemma py_index_outside n i :
  i < - Z.of_nat n ∨ Z.of_nat n <= i -> py_index n i = Raise IndexError.
Proof.
  intros Hi. unfold py_index.
  destruct (Z.ltb_spec i 0);
    destruct (Z.leb_spec 0 (i + Z.of_nat n));
    destruct (Z.leb_spec 0 i);
    destruct (Z.ltb_spec i (Z.of_nat n));
    destruct (Z.ltb_spec (i + Z.of_nat n) (Z.of_nat n));
    simpl; try done; lia.
Qed.

Lemma py_index_inside n i :
  - Z.of_nat n <= i < Z.of_nat n -> ∃ j, py_index n i = Ok j ∧ (j < n)%nat.
Proof.
  intros Hi. unfold py_index.
  set (j := if i <? 0 then i + Z.of_nat n else i).
  assert (0 <= j < Z.of_nat n) as Hj.
  { subst j. destruct (Z.ltb_spec i 0); lia. }
  destruct (Z.leb_spec 0 j); [|lia].
  destruct (Z.ltb_spec j (Z.of_nat n)); [|lia]. simpl.
  exists (Z.to_nat j). split; [done|lia].
Qed.

Lemma py_index_lt n i j : py_index n i = Ok j -> (j < n)%nat.
Proof.
  unfold py_index. set (k := if i <? 0 then i + Z.of_nat n else i).
  destruct (Z.leb_spec 0 k); [|done].
  destruct (Z.ltb_spec k (Z.of_nat n)); [|done]. simpl.
  intros [= <-]. lia.
Qed.

Lemma py_getitem_nonneg {A} (l : list A) i :
  0 <= i ->
  py_getitem l i =
    match l !! Z.to_nat i with Some x => Ok x | None => Raise IndexError end.
Proof.
  intros Hi. unfold py_getitem. rewrite py_index_nonneg by done.
  destruct (Z.ltb_spec i (Z.of_nat (length l))) as [?|Hge]; [done|].
  rewrite (proj2 (lookup_ge_None l (Z.to_nat i))); [done|lia].
Qed.

Lemma py_getitem_outside {A} (l : list A) i :
  i < - Z.of_nat (length l) ∨ Z.of_nat (length l) <= i ->
  py_getitem l i = Raise IndexError.
Proof.
  intros Hi. unfold py_getitem. by rewrite py_index_outside.
Qed.

Lemma py_getitem_inside {A} (l : list A) i :
  - Z.of_nat (length l) <= i < Z.of_nat (length l) ->
  ∃ x, py_getitem l i = Ok x ∧ x ∈ l.
Proof.
  intros Hi. unfold py_getitem.
  destruct (py_index_inside _ _ Hi) as (j & -> & Hj). simpl.
  destruct (lookup_lt_is_Some_2 l j Hj) as [x Hx].
  rewrite Hx. exists x. split; [done|]. by eapply list_elem_of_lookup_2.
Qed.

Lemma py_getitem_elem {A} (l : list A) i x : py_getitem l i = Ok x -> x ∈ l.
Proof.
  unfold py_getitem. destruct (py_index _ _) as [j| |]; simpl; [|done..].
  destruct (l !! j) eqn:Hj; [|done]. intros [= <-].
  by eapply list_elem_of_lookup_2.
Qed.

Lemma board_get_nonneg b r c :
  0 <= r -> 0 <= c ->
  board_get b r c =
    match cell_at b r c with Some x => Ok x | None => Raise IndexError end.
Proof.
  intros Hr Hc. unfold board_get, cell_at.
  rewrite py_getitem_nonneg by done.
  destruct (b !! Z.to_nat r) as [row|]; simpl; [|done].
  by rewrite py_getitem_nonneg.
Qed.

Lemma wf_board_row b row : wf_board b -> row ∈ b -> length row = 8%nat.
Proof. intros [_ Hrows] Hin. by eapply Forall_forall in Hrows. Qed.

Lemma board_get_total b r c :
  wf_board b -> in_range r c = true -> ∃ x, board_get b r c = Ok x.
Proof.
  intros Hwf [Hr Hc]%in_range_spec. unfold board_get.
  destruct (py_getitem_inside b r) as (row & -> & Hrow).
  { destruct Hwf as [-> _]. lia. }
  simpl. destruct (py_getitem_inside row c) as (x & -> & _); [|by eauto].
  rewrite (wf_board_row b row) by done. lia.
Qed.

Lemma board_get_outside b r c :
  wf_board b -> r < -8 ∨ 8 <= r ∨ c < -8 ∨ 8 <= c ->
  board_get b r c = Raise IndexError.
Proof.
  intros Hwf Hout. unfold board_get.
  destruct (decide (-8 <= r < 8)) as [Hr|Hr].
  - destruct (py_getitem_inside b r) as (row & -> & Hrow).
    { destruct Hwf as [-> _]. lia. }
    simpl. apply py_getitem_outside.
    rewrite (wf_board_row b row) by done. lia.
  - rewrite py_getitem_outside; [done|]. destruct Hwf as [-> _]. lia.
Qed.

Lemma in_range_and_eq_total b row col v :
  wf_board b -> ∃ t, in_range_and_eq b row col v = Ok t.
Proof.
  intros Hwf. unfold in_range_and_eq.
  destruct (in_range row col) eqn:Hin; [|by eexists].
  destruct (board_get_total b row col Hwf Hin) as [x ->]. by eexists.
Qed.

Lemma in_range_and_eq_true b row col v :
  in_range_and_eq b row col v = Ok true ↔ holds b (row, col) v.
Proof.
  unfold in_range_and_eq, holds. simpl.
  destruct (in_range row col); [|by split; [|intros []]].
  destruct (board_get b row col) as [x| |]; simpl;
    [|by split; [|intros []]..].
  unfold mret, result_ret. split.
  - intros [= H%cell_eqb_true]. by subst.
  - intros [_ [= ->]]. f_equal. by apply cell_eqb_true.
Qed.

(** ** The run collector *)

Lemma run_cells_S row col dr dc n :
  run_cells row col dr dc (S n) =
    (row, col) :: run_cells (row + dr) (col + dc) dr dc n.
Proof.
  unfold run_cells. simpl. f_equal.
  - unfold step_from. f_equal; lia.
  - rewrite <- fmap_S_seq, <- list_fmap_compose. apply list_fmap_ext.
    intros _ j _. unfold step_from. simpl. f_equal; lia.
Qed.

Lemma elem_of_run_cells row col dr dc n p :
  p ∈ run_cells row col dr dc n ↔
  ∃ j : nat, (j < n)%nat ∧ p = step_from row col dr dc (Z.of_nat j).
Proof.
  unfold run_cells. rewrite list_elem_of_fmap. split.
  - intros (j & -> & Hj%elem_of_seq). exists j. split; [lia|done].
  - intros (j & Hj & ->). exists j. split; [done|]. apply elem_of_seq. lia.
Qed.

Lemma collect_run_S fuel b opp dr dc row col line :
  collect_run (S fuel) b opp dr dc row col line =
    (go ← in_range_and_eq b row col opp;
     if go : bool then
       collect_run fuel b opp dr dc (row + dr) (col + dc) (line ++ [(row, col)])
     else mret (line, row, col)).
Proof. reflexivity. Qed.

Lemma collect_run_inv fuel b opp dr dc :
  ∀ row col line line' row' col',
    collect_run fuel b opp dr dc row col line = Ok (line', row', col') ->
    ∃ n : nat,
      line' = line ++ run_cells row col dr dc n ∧
      (row', col') = step_from row col dr dc (Z.of_nat n) ∧
      (∀ j : nat, (j < n)%nat ->
         holds b (step_from row col dr dc (Z.of_nat j)) opp) ∧
      ¬ holds b (row', col') opp.
Proof.
  induction fuel as [|fuel IH]; intros row col line line' row' col' Hrun;
    [done|].
  rewrite collect_run_S in Hrun.
  destruct (in_range_and_eq b row col opp) as [[|]| |] eqn:Hgo;
    simpl in Hrun; try done.
  - apply IH in Hrun as (n & -> & Hend & Hcells & Hstop).
    exists (S n). rewrite run_cells_S, <- app_assoc. simpl.
    split; [done|]. split; [|split; [|done]].
    + rewrite Hend. unfold step_from. f_equal; lia.
    + intros [|j] Hj.
      * apply in_range_and_eq_true in Hgo.
        replace (step_from row col dr dc (Z.of_nat 0)) with (row, col);
          [done|]. unfold step_from. f_equal; lia.
      * specialize (Hcells j ltac:(lia)).
        replace (step_from row col dr dc (Z.of_nat (S j)))
          with (step_from (row + dr) (col + dc) dr dc (Z.of_nat j)); [done|].
        unfold step_from. f_equal; lia.
  - injection Hrun as <- <- <-. exists 0%nat.
    rewrite app_nil_r. split; [done|]. split; [|split].
    + unfold step_from. f_equal; lia.
    + intros j Hj. lia.
    + rewrite <- in_range_and_eq_true, Hgo. discriminate.
Qed.

Lemma steps_left_pos d row col :
  d ∈ dirs -> in_range row col = true -> 1 <= steps_left d row col <= 8.
Proof.
  intros Hd [Hr Hc]%in_range_spec. unfold steps_left.
  repeat case_match; lia.
Qed.

Lemma steps_left_step d row col :
  d ∈ dirs -> in_range row col = true ->
  in_range (row + d.1) (col + d.2) = true ->
  steps_left d (row + d.1) (col + d.2) = steps_left d row col - 1.
Proof.
  intros Hd _ _. unfold dirs in Hd. unfold steps_left.
  repeat (apply elem_of_cons in Hd as [->|Hd]; [simpl; lia|]).
  by apply elem_of_nil in Hd.
Qed.

(** The loop reaches its exit before the fuel runs out. *)
Lemma collect_run_total b opp d :
  wf_board b -> d ∈ dirs ->
  ∀ fuel row col line,
    (1 <= fuel)%nat ->
    (in_range row col = true -> steps_left d row col < Z.of_nat fuel) ->
    ∃ res, collect_run fuel b opp d.1 d.2 row col line = Ok res.
Proof.
  intros Hwf Hd. induction fuel as [|fuel IH]; intros row col line Hfuel Hleft;
    [lia|].
  rewrite collect_run_S. unfold in_range_and_eq.
  destruct (in_range row col) eqn:Hin; simpl; [|by eexists].
  destruct (board_get_total b row col Hwf Hin) as [x ->]. simpl.
  destruct (cell_eqb x opp); [|by eexists].
  pose proof (steps_left_pos d row col Hd Hin).
  specialize (Hleft eq_refl).
  apply IH; [lia|]. intros Hin'.
  rewrite steps_left_step by done. lia.
Qed.

(** ** The legality engine *)

Lemma holds_inj b p v v' : holds b p v -> holds b p v' -> v = v'.
Proof. intros [_ H1] [_ H2]. congruence. Qed.

Lemma step_from_shift r c dr dc k :
  step_from (r + dr) (c + dc) dr dc k = step_from r c dr dc (k + 1).
Proof. unfold step_from. f_equal; lia. Qed.

(** A run closed by the mover's colour has the length the loop finds. *)
Lemma run_length_unique b r c pv dr dc (n : nat) (n0 : Z) :
  (∀ j : nat, (j < n)%nat ->
     holds b (step_from (r + dr) (c + dc) dr dc (Z.of_nat j)) (1 - pv)) ->
  ¬ holds b (step_from (r + dr) (c + dc) dr dc (Z.of_nat n)) (1 - pv) ->
  1 <= n0 ->
  (∀ j, 1 <= j <= n0 -> holds b (step_from r c dr dc j) (1 - pv)) ->
  holds b (step_from r c dr dc (n0 + 1)) pv ->
  n0 = Z.of_nat n.
Proof.
  intros Hcells Hstop Hn0 Hrun Hclose.
  destruct (Z.lt_trichotomy n0 (Z.of_nat n)) as [Hlt|[Heq|Hgt]]; [|done|].
  - specialize (Hcells (Z.to_nat n0) ltac:(lia)).
    rewrite step_from_shift, Z2Nat.id in Hcells by lia.
    pose proof (holds_inj _ _ _ _ Hcells Hclose). lia.
  - destruct Hstop. rewrite step_from_shift. apply Hrun. lia.
Qed.

Lemma scan_dir_spec b r c pv flips d :
  wf_board b -> d ∈ dirs ->
  ∃ s, scan_dir b r c pv (1 - pv) flips d = Ok s ∧
       ∀ p, p ∈ s ↔ p ∈ flips ∨ captured_along b r c pv d p.
Proof.
  intros Hwf Hd. destruct d as [dr dc]. unfold scan_dir.
  assert (step_from r c dr dc 1 = (r + dr, c + dc)) as Hone.
  { unfold step_from. f_equal; lia. }
  destruct (in_range (r + dr) (c + dc)) eqn:Hin; simpl.
  2: { exists flips. split; [done|]. intros p. split; [by left|].
       intros [?|(n & k & Hk & _ & Hrun & _)]; [done|].
       pose proof (Hrun 1 ltac:(lia)) as H1. cbn [fst snd] in H1.
       rewrite Hone in H1. destruct H1 as [Hin1 _]. cbn [fst snd] in Hin1.
       congruence. }
  destruct (board_get_total b _ _ Hwf Hin) as [x Hx]. rewrite Hx. simpl.
  destruct (cell_eqb x (1 - pv)) eqn:Hopp; simpl.
  2: { exists flips. split; [done|]. intros p. split; [by left|].
       intros [?|(n & k & Hk & _ & Hrun & _)]; [done|].
       pose proof (Hrun 1 ltac:(lia)) as H1. cbn [fst snd] in H1.
       rewrite Hone in H1. destruct H1 as [_ Hget]. cbn [fst snd] in Hget.
       rewrite Hx in Hget. injection Hget as ->.
       simpl in Hopp. rewrite Z.eqb_refl in Hopp. done. }
  destruct (collect_run_total b (1 - pv) (dr, dc) Hwf Hd loop_fuel
              (r + dr) (c + dc) []) as [[[line row'] col'] Hrun].
  { unfold loop_fuel. lia. }
  { intros _. pose proof (steps_left_pos _ _ _ Hd Hin).
    unfold loop_fuel. lia. }
  cbn [fst snd] in Hrun. rewrite Hrun. simpl.
  apply collect_run_inv in Hrun as (n & Hline & Hend & Hcells & Hstop).
  simpl in Hline. subst line. rewrite Hend in Hstop.
  destruct (in_range_and_eq_total b row' col' pv Hwf) as [ends Hends].
  rewrite Hends. simpl.
  assert (∀ p, captured_along b r c pv (dr, dc) p ->
               holds b (row', col') pv ∧
               p ∈ run_cells (r + dr) (c + dc) dr dc n) as Hcapt.
  { intros p (n0 & k & Hk & -> & Hcap & Hclose). simpl in *.
    assert (n0 = Z.of_nat n) as ->.
    { eapply run_length_unique; eauto. lia. }
    split.
    - by rewrite Hend, step_from_shift.
    - apply elem_of_run_cells. exists (Z.to_nat (k - 1)). split; [lia|].
      rewrite step_from_shift. f_equal. lia. }
  destruct ends.
  - apply in_range_and_eq_true in Hends.
    eexists. split; [done|]. intros p.
    rewrite elem_of_union, elem_of_list_to_set. split.
    + intros [?|Hp]; [by left|right].
      apply elem_of_run_cells in Hp as (j & Hj & ->).
      exists (Z.of_nat n), (Z.of_nat j + 1). simpl.
      split; [lia|]. split; [by rewrite step_from_shift|]. split.
      * intros i Hi. specialize (Hcells (Z.to_nat (i - 1)) ltac:(lia)).
        rewrite step_from_shift in Hcells.
        by replace (Z.of_nat (Z.to_nat (i - 1)) + 1) with i in Hcells by lia.
      * by rewrite <- step_from_shift, <- Hend.
    + intros [?|Hp]; [by left|right]. by apply Hcapt.
  - exists flips. split; [done|]. intros p. split; [by left|].
    intros [?|Hp]; [done|]. apply Hcapt in Hp as [Hclose _].
    apply in_range_and_eq_true in Hclose. congruence.
Qed.

Lemma scan_dirs_spec b r c pv :
  wf_board b ->
  ∀ l flips, l ⊆ dirs ->
    ∃ s, for_each l flips (scan_dir b r c pv (1 - pv)) = Ok s ∧
         ∀ p, p ∈ s ↔
              p ∈ flips ∨ ∃ d, d ∈ l ∧ captured_along b r c pv d p.
Proof.
  intros Hwf. induction l as [|d l IH]; intros flips Hsub; simpl.
  - exists flips. split; [done|]. intros p. split; [by left|].
    intros [?|(d & Hd%elem_of_nil & _)]; done.
  - destruct (scan_dir_spec b r c pv flips d Hwf) as (s1 & -> & Hs1).
    { apply Hsub. by left. }
    simpl. destruct (IH s1) as (s & -> & Hs).
    { intros x Hx. apply Hsub. by right. }
    exists s. split; [done|]. intros p. rewrite Hs, Hs1. split.
    + intros [[?|?]|(d' & Hd' & ?)]; [by left|right..].
      * exists d. split; [by left|done].
      * exists d'. split; [by right|done].
    + intros [?|(d' & [->|Hd']%elem_of_cons & ?)]; [by left; left| |].
      * by left; right.
      * right. by exists d'.
Qed.

Lemma pieces_flipped_empty b r c pv :
  wf_board b -> board_get b r c = Ok None ->
  ∃ s, pieces_flipped b r c pv = Ok s ∧ ∀ p, p ∈ s ↔ capture_spec b r c pv p.
Proof.
  intros Hwf Hget.
  assert (pieces_flipped b r c pv =
            for_each dirs ∅ (scan_dir b r c pv (1 - pv))) as ->.
  { unfold pieces_flipped. by rewrite Hget. }
  destruct (scan_dirs_spec b r c pv Hwf dirs ∅) as (s & -> & Hs); [done|].
  exists s. split; [done|]. intros p. rewrite Hs. unfold capture_spec.
  split; [|by right]. by intros [?%not_elem_of_empty|?].
Qed.

Lemma pieces_flipped_occupied b r c pv v :
  board_get b r c = Ok (Some v) -> pieces_flipped b r c pv = Ok ∅.
Proof. intros Hget. unfold pieces_flipped. by rewrite Hget. Qed.

Lemma pieces_flipped_total b r c pv :
  wf_board b -> in_range r c = true -> ∃ s, pieces_flipped b r c pv = Ok s.
Proof.
  intros Hwf Hin. destruct (board_get_total b r c Hwf Hin) as [[v|] Hx].
  - exists ∅. by eapply pieces_flipped_occupied.
  - destruct (pieces_flipped_empty b r c pv Hwf Hx) as (s & Hs & _). by exists s.
Qed.

Lemma wf_start_board : wf_board start_board.
Proof. split; [done|]. by repeat constructor. Qed.

Lemma wf_edge_board : wf_board edge_board.
Proof. split; [done|]. by repeat constructor. Qed.

(** C1: on an 8x8 board and at an on-board coordinate, [pieces_flipped]
    returns the empty set when the target cell is occupied, and when the
    target is empty it returns exactly the cells the capture rule gives: the
    union over the eight directions of the opponent runs that start next to
    the target and are closed on the board by a cell of the mover. *)
Theorem pieces_flipped_correct b r c pv :
  wf_board b -> in_range r c = true ->
  ∃ x s,
    board_get b r c = Ok x ∧ pieces_flipped b r c pv = Ok s ∧
    (x ≠ None -> s = ∅) ∧
    (x = None -> ∀ p, p ∈ s ↔ capture_spec b r c pv p).
Proof.
  intros Hwf Hin. destruct (board_get_total b r c Hwf Hin) as [[v|] Hx].
  - exists (Some v), ∅. split; [done|]. split; [|done].
    by eapply pieces_flipped_occupied.
  - destruct (pieces_flipped_empty b r c pv Hwf Hx) as (s & Hs & Hspec).
    exists None, s. done.
Qed.

Lemma pieces_flipped_correct_witness :
  ∃ x s,
    board_get start_board 2 4 = Ok x ∧
    pieces_flipped start_board 2 4 (value BLACK) = Ok s ∧
    (x ≠ None -> s = ∅) ∧
    (x = None -> ∀ p, p ∈ s ↔ capture_spec start_board 2 4 (value BLACK) p).
Proof.
  apply (pieces_flipped_correct start_board 2 4 (value BLACK)).
  - exact wf_start_board.
  - reflexivity.
Defined.

(** C2, as the code has it: on an 8x8 board [pieces_flipped] returns a set,
    without raising, at every on-board coordinate; the target cell itself is
    read unchecked, so a coordinate at or beyond 8, or below -8, raises
    [IndexError]. *)
Theorem pieces_flipped_bounds b r c pv :
  wf_board b ->
  (in_range r c = true -> ∃ s, pieces_flipped b r c pv = Ok s) ∧
  (r < -8 ∨ 8 <= r ∨ c < -8 ∨ 8 <= c ->
   pieces_flipped b r c pv = Raise IndexError).
Proof.
  intros Hwf. split.
  - by apply pieces_flipped_total.
  - intros Hout. unfold pieces_flipped.
    by rewrite board_get_outside.
Qed.

Lemma pieces_flipped_bounds_witness :
  (in_range 8 3 = true ->
   ∃ s, pieces_flipped start_board 8 3 (value BLACK) = Ok s) ∧
  (8 < -8 ∨ 8 <= 8 ∨ 3 < -8 ∨ 8 <= 3 ->
   pieces_flipped start_board 8 3 (value BLACK) = Raise IndexError).
Proof.
  apply (pieces_flipped_bounds start_board 8 3 (value BLACK)).
  exact wf_start_board.
Defined.

(** C2 fails as stated: an out-of-range query raises [IndexError] at row 8,
    and at row -1 it reads the bottom row and reports a capture. *)
Lemma pieces_flipped_out_of_range :
  wf_board start_board ∧ in_range 8 3 = false ∧
  pieces_flipped start_board 8 3 (value BLACK) = Raise IndexError ∧
  wf_board edge_board ∧ in_range (-1) 4 = false ∧
  pieces_flipped edge_board (-1) 4 (value BLACK) = Ok {[ (0, 4) ]}.
Proof.
  split; [exact wf_start_board|]. split; [reflexivity|].
  split; [reflexivity|]. split; [exact wf_edge_board|].
  split; [reflexivity|]. vm_compute. reflexivity.
Qed.

(** ** Colour symmetry *)

Lemma py_getitem_fmap {A B} (f : A -> B) (l : list A) i :
  py_getitem (f <$> l) i = f <$> py_getitem l i.
Proof.
  unfold py_getitem. rewrite length_fmap.
  destruct (py_index _ _) as [j| |]; simpl; [|done..].
  rewrite list_lookup_fmap. by destruct (l !! j).
Qed.

Lemma board_get_colorSwap b r c :
  board_get (colorSwap b) r c = swap_cell <$> board_get b r c.
Proof.
  unfold board_get, colorSwap. rewrite py_getitem_fmap.
  destruct (py_getitem b r) as [row| |]; simpl; [|done..].
  apply py_getitem_fmap.
Qed.

Lemma cell_eqb_swap x s :
  cell_eqb (swap_cell x) (value (opponent s)) = cell_eqb x (value s).
Proof.
  destruct x as [v|]; [|done]. destruct s; simpl.
  - destruct (Z.eqb_spec v 0) as [->|?]; [done|].
    destruct (Z.eqb_spec v 1) as [->|?]; simpl; [done|].
    by apply Z.eqb_neq.
  - destruct (Z.eqb_spec v 0) as [->|?]; [done|].
    destruct (Z.eqb_spec v 1) as [->|?]; simpl; [done|].
    by apply Z.eqb_neq.
Qed.

Lemma is_none_swap x : is_none (swap_cell x) = is_none x.
Proof. destruct x as [v|]; [|done]. simpl. by repeat case_match. Qed.

Lemma in_range_and_eq_colorSwap b row col s :
  in_range_and_eq (colorSwap b) row col (value (opponent s)) =
  in_range_and_eq b row col (value s).
Proof.
  unfold in_range_and_eq. destruct (in_range row col); [|done].
  rewrite board_get_colorSwap.
  destruct (board_get b row col) as [x| |]; simpl; [|done..].
  by rewrite cell_eqb_swap.
Qed.

Lemma collect_run_colorSwap fuel b s dr dc :
  ∀ row col line,
    collect_run fuel (colorSwap b) (value (opponent s)) dr dc row col line =
    collect_run fuel b (value s) dr dc row col line.
Proof.
  induction fuel as [|fuel IH]; intros row col line; [done|].
  rewrite !collect_run_S, in_range_and_eq_colorSwap.
  destruct (in_range_and_eq b row col (value s)) as [[|]| |]; simpl; [|done..].
  apply IH.
Qed.

Lemma scan_dir_colorSwap b r c s flips d :
  scan_dir (colorSwap b) r c (value (opponent s)) (value s) flips d =
  scan_dir b r c (value s) (value (opponent s)) flips d.
Proof.
  destruct d as [dr dc]. unfold scan_dir.
  destruct (in_range (r + dr) (c + dc)); simpl; [|done].
  rewrite board_get_colorSwap.
  destruct (board_get b (r + dr) (c + dc)) as [x| |]; simpl; [|done..].
  replace (cell_eqb (swap_cell x) (value s))
    with (cell_eqb x (value (opponent s))).
  2: { rewrite <- (cell_eqb_swap x (opponent s)). by destruct s. }
  destruct (cell_eqb x (value (opponent s))); simpl; [|done].
  replace (collect_run loop_fuel (colorSwap b) (value s))
    with (collect_run loop_fuel (colorSwap b) (value (opponent (opponent s))))
    by by destruct s.
  rewrite collect_run_colorSwap.
  destruct (collect_run _ _ _ _ _ _ _ _) as [[[line row'] col']| |];
    simpl; [|done..].
  by rewrite in_range_and_eq_colorSwap.
Qed.

Lemma for_each_ext {A S} (l : list A) (s : S) (f g : S -> A -> result S) :
  (∀ s x, f s x = g s x) -> for_each l s f = for_each l s g.
Proof.
  intros Hfg. revert s. induction l as [|x l IH]; intros s; [done|].
  simpl. rewrite Hfg. destruct (g s x); simpl; [|done..]. apply IH.
Qed.

Lemma pieces_flipped_colorSwap b r c s :
  pieces_flipped (colorSwap b) r c (value (opponent s)) =
  pieces_flipped b r c (value s).
Proof.
  unfold pieces_flipped. rewrite board_get_colorSwap.
  destruct (board_get b r c) as [x| |]; cbn -[for_each dirs]; [|done..].
  rewrite is_none_swap. destruct (is_none x); [|done].
  cbn [negb].
  replace (1 - value (opponent s)) with (value s) by by destruct s.
  replace (1 - value s) with (value (opponent s)) by by destruct s.
  apply for_each_ext. intros. apply scan_dir_colorSwap.
Qed.

(** C9: the capture set of Black on a board is the capture set of White
    on the colour-swapped board. *)
Theorem pieces_flipped_symmetry b r c :
  pieces_flipped b r c (value BLACK) =
  pieces_flipped (colorSwap b) r c (value WHITE).
Proof. symmetry. apply (pieces_flipped_colorSwap b r c BLACK). Qed.

(** ** The move enumerator *)

Lemma set_truthy_true (s : gset coord) : set_truthy s = true ↔ s ≠ ∅.
Proof.
  unfold set_truthy. rewrite negb_true_iff, Nat.eqb_neq.
  rewrite size_non_empty_iff. by unfold_leibniz.
Qed.

Lemma dict_set_fresh {K V} `{EqDecision K} (d : dict K V) k v :
  k ∉ d.*1 -> dict_set d k v = d ++ [(k, v)].
Proof.
  induction d as [|[k' v'] d IH]; intros Hk; [done|].
  simpl in *. apply not_elem_of_cons in Hk as [Hne Hk].
  destruct (decide (k' = k)) as [->|_]; [done|]. by rewrite IH.
Qed.

Lemma elem_of_py_range lo hi x : x ∈ py_range lo hi ↔ lo <= x < hi.
Proof.
  unfold py_range. rewrite list_elem_of_fmap. split.
  - intros (i & -> & Hi%elem_of_seq). lia.
  - intros Hx. exists (Z.to_nat (x - lo)). split; [lia|].
    apply elem_of_seq. lia.
Qed.

Lemma elem_of_all_cells p : p ∈ all_cells ↔ in_range p.1 p.2 = true.
Proof.
  unfold all_cells. rewrite in_range_spec, list_elem_of_bind. split.
  - intros (r & (c & Hp & Hc%elem_of_py_range)%list_elem_of_bind
              & Hr%elem_of_py_range).
    apply list_elem_of_singleton in Hp as ->. done.
  - intros [Hr Hc]. exists p.1. rewrite elem_of_py_range. split; [|done].
    apply list_elem_of_bind. exists p.2. rewrite elem_of_py_range.
    split; [|done]. destruct p. by apply list_elem_of_singleton.
Qed.

Lemma NoDup_all_cells : NoDup all_cells.
Proof. apply (bool_decide_unpack _). by vm_compute. Qed.

(** The body of the comprehension in [get_valid_moves]. *)
Lemma enumerate_cell (b : Board) (pv : Z) (d : dict coord (gset coord))
    (r c : Z) :
  wf_board b -> in_range r c = true -> (r, c) ∉ d.*1 ->
  ∃ d',
    (x ← board_get b r c;
     if is_none x then
       flipped ← pieces_flipped b r c pv;
       if set_truthy flipped then mret (dict_set d (r, c) flipped) else mret d
     else mret d) = Ok d' ∧
    ((∃ fl, board_get b r c = Ok None ∧ pieces_flipped b r c pv = Ok fl ∧
            fl ≠ ∅ ∧ d' = d ++ [((r, c), fl)]) ∨
     (¬ legal_move b pv (r, c) ∧ d' = d)).
Proof.
  intros Hwf Hin Hfresh.
  destruct (board_get_total b r c Hwf Hin) as [[v|] Hx]; rewrite Hx.
  - exists d. split; [done|]. right. split; [|done].
    intros (_ & Hget & _). simpl in Hget. congruence.
  - cbn [mbind result_bind is_none].
    destruct (pieces_flipped_total b r c pv Hwf Hin) as [fl Hfl].
    rewrite Hfl. cbn [mbind result_bind].
    destruct (set_truthy fl) eqn:Hne.
    + exists (d ++ [((r, c), fl)]). rewrite dict_set_fresh by done.
      split; [done|]. left. exists fl. by apply set_truthy_true in Hne.
    + exists d. split; [done|]. right. split; [|done].
      intros (_ & _ & fl' & Hfl' & Hne'). simpl in Hfl'.
      rewrite Hfl in Hfl'. injection Hfl' as <-.
      apply set_truthy_true in Hne'. congruence.
Qed.

Lemma enumerate_cells (b : Board) (pv : Z) :
  wf_board b ->
  ∀ l (d0 : dict coord (gset coord)),
    NoDup l -> (∀ p, p ∈ l -> in_range p.1 p.2 = true) ->
    (∀ p, p ∈ l -> p ∉ d0.*1) ->
    ∃ d,
      for_each l d0
        (fun d '(r, c) =>
           x ← board_get b r c;
           if is_none x then
             flipped ← pieces_flipped b r c pv;
             if set_truthy flipped then mret (dict_set d (r, c) flipped)
             else mret d
           else mret d) = Ok d ∧
      (∀ p fl, (p, fl) ∈ d ↔
               (p, fl) ∈ d0 ∨
               (p ∈ l ∧ board_get b p.1 p.2 = Ok None ∧
                pieces_flipped b p.1 p.2 pv = Ok fl ∧ fl ≠ ∅)) ∧
      (NoDup d0.*1 -> NoDup d.*1).
Proof.
  intros Hwf. induction l as [|[r c] l IH]; intros d0 Hnd Hin Hfresh.
  - exists d0. split; [done|]. split; [|done]. intros p fl.
    split; [by left|]. intros [?|[?%elem_of_nil _]]; done.
  - apply NoDup_cons in Hnd as [Hrc Hnd]. cbn [for_each].
    destruct (enumerate_cell b pv d0 r c Hwf) as (d1 & -> & Hd1).
    { apply (Hin (r, c)). by left. }
    { apply Hfresh. by left. }
    cbn [mbind result_bind].
    destruct (IH d1 Hnd) as (d & -> & Hd & Hnodup).
    { intros p Hp. apply Hin. by right. }
    { intros p Hp.
      assert (p ∉ d0.*1) as Hp0 by (apply Hfresh; by right).
      destruct Hd1 as [(fl & _ & _ & _ & ->)|[_ ->]]; [|done].
      rewrite fmap_app, elem_of_app. intros [?|Heq]; [done|].
      apply list_elem_of_singleton in Heq. simpl in Heq. by subst p. }
    exists d. split; [done|]. split.
    + intros p fl. rewrite Hd.
      destruct Hd1 as [(fl1 & Hget & Hfl1 & Hne & ->)|[Hnl ->]].
      * rewrite elem_of_app, list_elem_of_singleton. split.
        -- intros [[?|[= -> ->]]|(Hp & ?)]; [by left|right..].
           ++ split; [by left|done].
           ++ split; [by right|done].
        -- intros [?|([->|Hp]%elem_of_cons & Hg & Hf & Hn)].
           ++ by left; left.
           ++ left; right. simpl in Hf. congruence.
           ++ right. done.
      * split.
        -- intros [?|(Hp & ?)]; [by left|right]. split; [by right|done].
        -- intros [?|([->|Hp]%elem_of_cons & Hg & Hf & Hn)]; [by left| |].
           ++ destruct Hnl. split; [apply (Hin (r, c)); by left|].
              split; [done|]. by exists fl.
           ++ right. done.
    + intros Hnd0. apply Hnodup.
      destruct Hd1 as [(fl & _ & _ & _ & ->)|[_ ->]]; [|done].
      rewrite fmap_app. apply NoDup_app. split; [done|]. split.
      * intros p Hp [= ->]%list_elem_of_singleton.
        revert Hp. apply Hfresh. by left.
      * apply NoDup_singleton.
Qed.

(** C3: on an 8x8 board [get_valid_moves] returns a mapping whose keys are
    exactly the legal moves of the colour (empty cells with a non-empty
    capture set), each mapped to its capture set; no key is an occupied
    cell, and the mapping is empty exactly when the colour has no legal
    move. *)
Theorem get_valid_moves_keys b sym :
  wf_board b ->
  ∃ d,
    get_valid_moves b sym = Ok d ∧
    NoDup (dict_keys d) ∧
    (∀ p, p ∈ dict_keys d ↔ legal_move b (value sym) p) ∧
    (∀ p fl, (p, fl) ∈ d ->
       pieces_flipped b p.1 p.2 (value sym) = Ok fl ∧ fl ≠ ∅) ∧
    (∀ p, p ∈ dict_keys d -> board_get b p.1 p.2 = Ok None) ∧
    (d = [] ↔ ∀ p, ¬ legal_move b (value sym) p).
Proof.
  intros Hwf. unfold get_valid_moves.
  destruct (enumerate_cells b (value sym) Hwf all_cells [])
    as (d & Hrun & Hd & Hnodup).
  { exact NoDup_all_cells. }
  { intros p. by rewrite elem_of_all_cells. }
  { intros p _. apply not_elem_of_nil. }
  exists d. split; [exact Hrun|].
  assert (∀ p, p ∈ dict_keys d ↔ legal_move b (value sym) p) as Hkeys.
  { intros p. unfold dict_keys. rewrite list_elem_of_fmap. split.
    - intros ([p' fl] & -> & Hp). apply Hd in Hp as [?%elem_of_nil|Hp]; [done|].
      destruct Hp as (Hin%elem_of_all_cells & Hget & Hfl & Hne).
      split; [done|]. split; [done|]. by exists fl.
    - intros (Hin & Hget & fl & Hfl & Hne). exists (p, fl). split; [done|].
      apply Hd. right. by rewrite elem_of_all_cells. }
  split; [apply Hnodup; constructor|]. split; [exact Hkeys|]. split; [|split].
  - intros p fl Hp. apply Hd in Hp as [?%elem_of_nil|Hp]; [done|]. tauto.
  - intros p Hp. apply Hkeys in Hp. apply Hp.
  - split.
    + intros -> p Hp. apply Hkeys in Hp. by apply elem_of_nil in Hp.
    + intros Hnone. destruct d as [|[p fl] d']; [done|].
      destruct (Hnone p). apply Hkeys. simpl. by left.
Qed.

Lemma get_valid_moves_keys_witness :
  ∃ d,
    get_valid_moves start_board BLACK = Ok d ∧
    NoDup (dict_keys d) ∧
    (∀ p, p ∈ dict_keys d ↔ legal_move start_board (value BLACK) p) ∧
    (∀ p fl, (p, fl) ∈ d ->
       pieces_flipped start_board p.1 p.2 (value BLACK) = Ok fl ∧ fl ≠ ∅) ∧
    (∀ p, p ∈ dict_keys d -> board_get start_board p.1 p.2 = Ok None) ∧
    (d = [] ↔ ∀ p, ¬ legal_move start_board (value BLACK) p).
Proof.
  apply (get_valid_moves_keys start_board BLACK). exact wf_start_board.
Defined.

(** ** The opening position *)

Lemma Game_init_start pb pw s : Game.init pb pw s = Ok (start_game pb pw s).
Proof. reflexivity. Qed.

(** C4, as the code has it: on the board built by [Game.init] the legal
    moves of Black are exactly (2,4), (3,5), (4,2) and (5,3), and each has a
    capture set of size 1. *)
Theorem start_black_moves pb pw s :
  ∃ d,
    (g ← Game.init pb pw s; get_valid_moves (Game.board g) BLACK) = Ok d ∧
    dict_keys d = [(2, 4); (3, 5); (4, 2); (5, 3)] ∧
    Forall (fun kv => size kv.2 = 1%nat) d ∧
    d = [ ((2, 4), {[ (3, 4) ]}); ((3, 5), {[ (3, 4) ]});
          ((4, 2), {[ (4, 3) ]}); ((5, 3), {[ (4, 3) ]}) ].
Proof.
  rewrite Game_init_start. eexists. split; [by vm_compute|].
  split; [done|]. split; [|done].
  repeat constructor.
Qed.

(** C4 fails as stated: (2,3) is not a key of Black's legal moves on the
    starting board; it captures nothing for Black, the cell below it being
    Black's own. *)
Lemma start_black_moves_not_2_3 :
  (g ← Game.init (Game.Human BLACK) (Game.Human WHITE) BLACK;
   d ← get_valid_moves (Game.board g) BLACK;
   mret (dict_contains d (2, 3))) = Ok false ∧
  pieces_flipped start_board 2 3 (value BLACK) = Ok ∅.
Proof. split; by vm_compute. Qed.

(** ** The medium strategy *)

Lemma dict_get_contains {K V} `{EqDecision K} (d : dict K V) k :
  dict_contains d k = true -> ∃ v, dict_get d k = Ok v ∧ (k, v) ∈ d.
Proof.
  unfold dict_contains. intros Hk%bool_decide_eq_true.
  induction d as [|[k' v'] d IH]; [by apply elem_of_nil in Hk|].
  simpl in *. destruct (decide (k' = k)) as [->|Hne].
  - exists v'. split; [done|]. by left.
  - apply elem_of_cons in Hk as [?|Hk]; [congruence|].
    destruct (IH Hk) as (v & Hv & Hin). exists v. split; [done|]. by right.
Qed.

Lemma random_choice_elem {A} rng (seq : list A) :
  seq ≠ [] -> ∃ x, random_choice rng seq = Ok x ∧ x ∈ seq.
Proof.
  intros Hne. destruct seq as [|a seq]; [done|].
  unfold random_choice. apply py_getitem_inside.
  pose proof (Nat.mod_upper_bound rng (length (a :: seq))) as Hlt.
  simpl in *. lia.
Qed.

(** Every element of a non-empty sequence is drawn by some [rng]. *)
Lemma random_choice_onto {A} (seq : list A) x :
  x ∈ seq -> ∃ rng, random_choice rng seq = Ok x.
Proof.
  intros (i & Hi)%list_elem_of_lookup.
  pose proof (lookup_lt_Some _ _ _ Hi) as Hlt.
  exists i. destruct seq as [|a seq]; [done|].
  unfold random_choice. rewrite Nat.mod_small by done.
  rewrite py_getitem_nonneg by lia. by rewrite Nat2Z.id, Hi.
Qed.

(** C8: when a corner is a key of the legal-move mapping, the medium
    strategy returns, whatever the random draw, one of the corners that are
    keys of the mapping, together with its capture set. *)
Theorem medium_prefers_corner (self : Bot.t) (b : Board)
    (valid_moves : dict coord (gset coord)) (rng : nat) :
  (∃ k, k ∈ Bot.CORNERS ∧ dict_contains valid_moves k = true) ->
  ∃ mv fl,
    Bot._medium_strategy self b valid_moves rng = Ok (mv, fl) ∧
    mv ∈ Bot.CORNERS ∧ dict_contains valid_moves mv = true ∧
    dict_get valid_moves mv = Ok fl.
Proof.
  intros (k & Hk & Hin). unfold Bot._medium_strategy.
  set (valid_corner := filter _ Bot.CORNERS).
  assert (k ∈ valid_corner) as Hkv.
  { apply list_elem_of_filter. split; [by rewrite Hin|done]. }
  assert (valid_corner ≠ []) as Hne.
  { intros Heq. rewrite Heq in Hkv. by apply elem_of_nil in Hkv. }
  rewrite bool_decide_eq_false_2 by done. cbn [negb].
  destruct (random_choice_elem rng valid_corner Hne) as (mv & -> & Hmv).
  cbn [mbind result_bind].
  apply list_elem_of_filter in Hmv as [Hmv Hcorner].
  apply Is_true_true in Hmv.
  destruct (dict_get_contains valid_moves mv Hmv) as (fl & Hfl & _).
  rewrite Hfl. by exists mv, fl.
Qed.

Lemma medium_prefers_corner_witness :
  ∃ mv fl,
    Bot._medium_strategy medium_black corner_board corner_moves 7
      = Ok (mv, fl) ∧
    mv ∈ Bot.CORNERS ∧ dict_contains corner_moves mv = true ∧
    dict_get corner_moves mv = Ok fl.
Proof.
  apply (medium_prefers_corner medium_black corner_board corner_moves 7).
  exists (0, 0). split.
  - apply list_elem_of_here.
  - vm_compute. reflexivity.
Defined.

Example sorted_by_score_stable :
  Bot.sorted_by_score [((0, 0), 2); ((1, 1), 1); ((2, 2), 2); ((3, 3), 1)]
  = [((1, 1), 1); ((3, 3), 1); ((0, 0), 2); ((2, 2), 2)].
Proof. reflexivity. Qed.

Example corner_moves_enumerated :
  get_valid_moves corner_board BLACK = Ok corner_moves.
Proof. by vm_compute. Qed.

(** ** Writing to the board *)

Lemma board_set_nonneg b r c v b' :
  0 <= r -> 0 <= c -> board_set b r c v = Ok b' ->
  ∃ row,
    b !! Z.to_nat r = Some row ∧ (Z.to_nat c < length row)%nat ∧
    b' = <[Z.to_nat r := <[Z.to_nat c := v]> row]> b.
Proof.
  intros Hr Hc. unfold board_set. rewrite py_getitem_nonneg by done.
  destruct (b !! Z.to_nat r) as [row|] eqn:Hrow; [|done].
  cbn [mbind result_bind]. unfold py_setitem.
  rewrite !py_index_nonneg by done.
  destruct (Z.ltb_spec c (Z.of_nat (length row))); [|done].
  cbn [mbind result_bind].
  pose proof (lookup_lt_Some _ _ _ Hrow).
  destruct (Z.ltb_spec r (Z.of_nat (length b))); [|lia].
  cbn [mbind result_bind]. intros [= <-]. exists row. split; [done|].
  split; [lia|done].
Qed.

Lemma board_set_total b r c v :
  wf_board b -> in_range r c = true -> ∃ b', board_set b r c v = Ok b'.
Proof.
  intros Hwf [Hr Hc]%in_range_spec. unfold board_set.
  destruct (py_getitem_inside b r) as (row & -> & Hrow).
  { destruct Hwf as [-> _]. lia. }
  cbn [mbind result_bind]. unfold py_setitem.
  rewrite !py_index_nonneg by lia.
  rewrite (wf_board_row b row) by done. destruct Hwf as [-> _].
  destruct (Z.ltb_spec c (Z.of_nat 8)); [|lia].
  destruct (Z.ltb_spec r (Z.of_nat 8)); [|lia].
  by eexists.
Qed.

Lemma board_set_wf b r c v b' :
  wf_board b -> board_set b r c v = Ok b' -> wf_board b'.
Proof.
  intros [Hlen Hrows]. unfold board_set.
  destruct (py_getitem b r) as [row| |] eqn:Hrow; [|done..].
  cbn [mbind result_bind]. unfold py_setitem.
  destruct (py_index (length row) c) as [k| |]; [|done..].
  destruct (py_index (length b) r) as [i| |]; [|done..].
  cbn [mbind result_bind]. intros [= <-]. split.
  - by rewrite length_insert.
  - apply Forall_insert; [done|]. rewrite length_insert.
    apply py_getitem_elem in Hrow. by eapply Forall_forall in Hrows.
Qed.

Lemma cell_at_set b i k row v r c :
  b !! i = Some row -> (k < length row)%nat -> 0 <= r -> 0 <= c ->
  cell_at (<[i := <[k := v]> row]> b) r c =
    if decide (Z.to_nat r = i ∧ Z.to_nat c = k) then Some v else cell_at b r c.
Proof.
  intros Hrow Hk Hr Hc. unfold cell_at.
  pose proof (lookup_lt_Some _ _ _ Hrow) as Hi.
  destruct (decide (Z.to_nat r = i)) as [->|Hne].
  - rewrite list_lookup_insert_eq by done. rewrite Hrow. simpl.
    destruct (decide (Z.to_nat c = k)) as [->|Hnek].
    + rewrite list_lookup_insert_eq by done. by rewrite decide_True.
    + rewrite list_lookup_insert_ne by done. rewrite decide_False; [done|].
      by intros [_ ?].
  - rewrite list_lookup_insert_ne by done. rewrite decide_False; [done|].
    by intros [? _].
Qed.

Lemma board_set_cell_at b r c v b' r' c' :
  0 <= r -> 0 <= c -> 0 <= r' -> 0 <= c' ->
  board_set b r c v = Ok b' ->
  cell_at b' r' c' =
    if decide ((r', c') = (r, c)) then Some v else cell_at b r' c'.
Proof.
  intros Hr Hc Hr' Hc' Hset.
  apply board_set_nonneg in Hset as (row & Hrow & Hk & ->); [|done..].
  rewrite cell_at_set by done.
  destruct (decide (Z.to_nat r' = Z.to_nat r ∧ Z.to_nat c' = Z.to_nat c))
    as [[? ?]|Hne].
  - rewrite decide_True; [done|]. f_equal; lia.
  - rewrite decide_False; [done|]. intros [= -> ->]. by destruct Hne.
Qed.

Lemma in_range_nonneg r c : in_range r c = true -> 0 <= r ∧ 0 <= c.
Proof. intros ?%in_range_spec. lia. Qed.

(** The loop of [Game.move] over the capture set leaves the other cells
    as they were and gives the listed cells the mark. *)
Lemma flip_all_cell_at mark (l : list coord) :
  ∀ b b',
    (∀ p, p ∈ l -> in_range p.1 p.2 = true) ->
    for_each l b (fun b '(r, c) => board_set b r c mark) = Ok b' ->
    ∀ r c, 0 <= r -> 0 <= c ->
      cell_at b' r c =
        if decide ((r, c) ∈ l) then Some mark else cell_at b r c.
Proof.
  induction l as [|[r0 c0] l IH]; intros b b' Hin Hrun r c Hr Hc.
  - injection Hrun as <-. rewrite decide_False; [done|]. apply not_elem_of_nil.
  - cbn [for_each] in Hrun.
    destruct (board_set b r0 c0 mark) as [b1| |] eqn:Hset; [|done..].
    cbn [mbind result_bind] in Hrun.
    destruct (in_range_nonneg r0 c0) as [Hr0 Hc0].
    { apply (Hin (r0, c0)). by left. }
    rewrite (IH b1 b') by (try done; intros p Hp; apply Hin; by right).
    rewrite (board_set_cell_at b r0 c0 mark b1 r c) by done.
    destruct (decide ((r, c) ∈ l)) as [Hl|Hl].
    + rewrite decide_True; [done|]. by right.
    + destruct (decide ((r, c) = (r0, c0))) as [->|Hne].
      * rewrite decide_True; [done|]. by left.
      * rewrite decide_False; [done|].
        by intros [?|?]%elem_of_cons.
Qed.

Lemma flip_all_wf mark (l : list coord) :
  ∀ b b',
    wf_board b ->
    for_each l b (fun b '(r, c) => board_set b r c mark) = Ok b' ->
    wf_board b'.
Proof.
  induction l as [|[r0 c0] l IH]; intros b b' Hwf Hrun.
  - by injection Hrun as <-.
  - cbn [for_each] in Hrun.
    destruct (board_set b r0 c0 mark) as [b1| |] eqn:Hset; [|done..].
    apply (IH b1 b'); [|done]. by eapply board_set_wf.
Qed.

Lemma flip_all_total mark (l : list coord) :
  ∀ b,
    wf_board b -> (∀ p, p ∈ l -> in_range p.1 p.2 = true) ->
    ∃ b', for_each l b (fun b '(r, c) => board_set b r c mark) = Ok b'.
Proof.
  induction l as [|[r0 c0] l IH]; intros b Hwf Hin; [by eexists|].
  cbn [for_each].
  destruct (board_set_total b r0 c0 mark Hwf) as [b1 Hb1].
  { apply (Hin (r0, c0)). by left. }
  rewrite Hb1. cbn [mbind result_bind]. apply IH.
  - by eapply board_set_wf.
  - intros p Hp. apply Hin. by right.
Qed.

(** ** The state machine *)

Lemma Symbol_of_value_opponent s :
  Symbol_of_value (1 - value s) = Ok (opponent s).
Proof. by destruct s. Qed.

(** What a returning call of [Game.move] did. *)
Lemma move_inv g row col fl ok g' :
  Game.move g row col fl = Ok (ok, g') ->
  ok = true ∧
  Game.moves g' = Game.moves g + 1 ∧
  Game.players g' = Game.players g ∧
  (∃ b1,
     board_set (Game.board g) row col (Some (value (Game.current g))) = Ok b1 ∧
     for_each (elements fl) b1
       (fun b '(r, c) => board_set b r c (Some (value (Game.current g))))
       = Ok (Game.board g')) ∧
  (if Game.moves g + 1 =? 60 then
     Game.game_over g' = true ∧ Game.winner g' = Game._find_winner g' ∧
     Game.current g' = Game.current g
   else
     Game.game_over g' = Game.game_over g ∧
     Game.winner g' = Game.winner g ∧
     Game.current g' = opponent (Game.current g)).
Proof.
  unfold Game.move. intros Hmove.
  destruct (board_set (Game.board g) row col _) as [b1| |] eqn:Hb1; [|done..].
  cbn [mbind result_bind] in Hmove. cbn in Hmove.
  destruct (for_each (elements fl) b1 _) as [b2| |] eqn:Hb2; [|done..].
  cbn [mbind result_bind] in Hmove.
  destruct (Game.moves g + 1 =? 60) eqn:H60.
  - injection Hmove as <- <-. cbn. split_and!; eauto.
  - rewrite Symbol_of_value_opponent in Hmove. injection Hmove as <- <-.
    cbn. split_and!; eauto.
Qed.

Lemma move_total g row col fl b1 b2 :
  board_set (Game.board g) row col (Some (value (Game.current g))) = Ok b1 ->
  for_each (elements fl) b1
    (fun b '(r, c) => board_set b r c (Some (value (Game.current g))))
    = Ok b2 ->
  ∃ g1, Game.move g row col fl = Ok (true, g1) ∧ Game.board g1 = b2.
Proof.
  intros Hb1 Hb2. unfold Game.move. rewrite Hb1. cbn. rewrite Hb2. cbn.
  destruct (_ =? 60); [by eexists|].
  rewrite Symbol_of_value_opponent. by eexists.
Qed.

(** C10: [Game.move] writes the target cell and the cells of the capture
    set only; every other cell of the board keeps its value. *)
Theorem move_frame g row col fl ok g' :
  in_range row col = true ->
  (∀ p, p ∈ fl -> in_range p.1 p.2 = true) ->
  Game.move g row col fl = Ok (ok, g') ->
  ∀ r c,
    in_range r c = true -> (r, c) ≠ (row, col) -> (r, c) ∉ fl ->
    board_get (Game.board g') r c = board_get (Game.board g) r c.
Proof.
  intros [Hrow Hcol]%in_range_nonneg Hfl Hmove r c [Hr Hc]%in_range_nonneg
    Hne Hnotin.
  apply move_inv in Hmove as (_ & _ & _ & (b1 & Hb1 & Hb2) & _).
  rewrite !board_get_nonneg by done.
  assert (∀ p, p ∈ elements fl -> in_range p.1 p.2 = true) as Hfl'.
  { intros p Hp%elem_of_elements. by apply Hfl. }
  rewrite (flip_all_cell_at _ _ _ _ Hfl' Hb2 r c Hr Hc).
  rewrite decide_False by by rewrite elem_of_elements.
  rewrite (board_set_cell_at _ _ _ _ _ _ _ Hrow Hcol Hr Hc Hb1).
  by rewrite decide_False.
Qed.

Lemma move_frame_witness :
  board_get (Game.board after_opening) 0 0 =
  board_get
    (Game.board (start_game (Game.Human BLACK) (Game.Human WHITE) BLACK)) 0 0.
Proof.
  apply (move_frame (start_game (Game.Human BLACK) (Game.Human WHITE) BLACK)
           2 4 {[ (3, 4) ]} true after_opening).
  - reflexivity.
  - intros p Hp. apply elem_of_singleton in Hp. subst p. reflexivity.
  - vm_compute. reflexivity.
  - reflexivity.
  - discriminate.
  - intros Hp. apply elem_of_singleton in Hp. discriminate.
Defined.

(** ** Counting cells *)

Lemma board_get_cell_at b r c x :
  0 <= r -> 0 <= c -> board_get b r c = Ok x ↔ cell_at b r c = Some x.
Proof.
  intros Hr Hc. rewrite board_get_nonneg by done.
  destruct (cell_at b r c); split; congruence.
Qed.

Lemma filter_length_insert {A} (f : A -> bool) (l : list A) i y x :
  l !! i = Some y ->
  Z.of_nat (length (List.filter f (<[i := x]> l))) =
    Z.of_nat (length (List.filter f l)) - Z.b2z (f y) + Z.b2z (f x).
Proof.
  intros Hi. pose proof (lookup_lt_Some _ _ _ Hi) as Hlt.
  rewrite insert_take_drop by done.
  rewrite <- (take_drop_middle l i y Hi) at 3.
  rewrite !List.filter_app, !length_app. simpl.
  destruct (f y), (f x); cbn [length Z.b2z]; lia.
Qed.

Lemma concat_length_insert (f : cell -> bool) (b : Board) i row row' :
  b !! i = Some row ->
  Z.of_nat (length (List.filter f (concat (<[i := row']> b)))) =
    Z.of_nat (length (List.filter f (concat b)))
    - Z.of_nat (length (List.filter f row))
    + Z.of_nat (length (List.filter f row')).
Proof.
  intros Hi. pose proof (lookup_lt_Some _ _ _ Hi) as Hlt.
  rewrite insert_take_drop by done.
  rewrite <- (take_drop_middle b i row Hi) at 3.
  rewrite !concat_app, !List.filter_app, !length_app. simpl.
  rewrite !List.filter_app, !length_app. lia.
Qed.

Lemma count_if_board_set f b r c v b' y :
  0 <= r -> 0 <= c ->
  board_set b r c v = Ok b' -> cell_at b r c = Some y ->
  count_if f b' = count_if f b - Z.b2z (f y) + Z.b2z (f v).
Proof.
  intros Hr Hc Hset Hy.
  apply board_set_nonneg in Hset as (row & Hrow & Hk & ->); [|done..].
  unfold cell_at in Hy. rewrite Hrow in Hy. simpl in Hy.
  unfold count_if. rewrite (concat_length_insert f b _ row) by done.
  rewrite (filter_length_insert f row _ y) by done. lia.
Qed.

(** Turning over cells that hold the opponent's colour. *)
Lemma flip_all_count cur opp (l : list coord) :
  cur ≠ opp -> NoDup l ->
  ∀ b b',
    (∀ p, p ∈ l ->
       in_range p.1 p.2 = true ∧ cell_at b p.1 p.2 = Some (Some opp)) ->
    for_each l b (fun b '(r, c) => board_set b r c (Some cur)) = Ok b' ->
    count_color cur b' = count_color cur b + Z.of_nat (length l) ∧
    count_color opp b' = count_color opp b - Z.of_nat (length l) ∧
    occupied b' = occupied b.
Proof.
  intros Hne. induction 1 as [|[r0 c0] l Hfresh Hnd IH]; intros b b' Hl Hrun.
  - injection Hrun as <-. simpl. lia.
  - cbn [for_each] in Hrun.
    destruct (board_set b r0 c0 (Some cur)) as [b1| |] eqn:Hset; [|done..].
    cbn [mbind result_bind] in Hrun.
    destruct (Hl (r0, c0)) as [Hin0 Hopp0]; [by left|]. simpl in Hin0, Hopp0.
    destruct (in_range_nonneg _ _ Hin0) as [Hr0 Hc0].
    destruct (IH b1 b') as (Hcur & Hopp & Hocc); [|done|].
    { intros p Hp. destruct (Hl p) as [Hin Hcell]; [by right|].
      split; [done|]. destruct (in_range_nonneg _ _ Hin) as [? ?].
      rewrite (board_set_cell_at b r0 c0 (Some cur) b1) by done.
      rewrite decide_False; [done|]. destruct p. simpl. by intros [= -> ->]. }
    rewrite Hcur, Hopp, Hocc. unfold count_color, occupied.
    rewrite !(count_if_board_set _ b r0 c0 (Some cur) b1 (Some opp)) by done.
    cbn [cell_eqb is_none negb]. rewrite !Z.eqb_refl.
    rewrite (proj2 (Z.eqb_neq opp cur)) by done.
    rewrite (proj2 (Z.eqb_neq cur opp)) by done.
    cbn [Z.b2z length]. lia.
Qed.

Lemma value_opponent s : value (opponent s) = 1 - value s.
Proof. by destruct s. Qed.

(** The capture set the engine gives lies on the board, on cells of the
    opponent. *)
Lemma pieces_flipped_cells b r c pv fl p :
  wf_board b -> board_get b r c = Ok None ->
  pieces_flipped b r c pv = Ok fl -> p ∈ fl ->
  in_range p.1 p.2 = true ∧ cell_at b p.1 p.2 = Some (Some (1 - pv)).
Proof.
  intros Hwf Hget Hfl Hp.
  destruct (pieces_flipped_empty b r c pv Hwf Hget) as (s & Hs & Hspec).
  rewrite Hfl in Hs. injection Hs as <-.
  apply Hspec in Hp as (d & _ & n & k & Hk & -> & Hrun & _).
  destruct (Hrun k Hk) as [Hin Hcell]. split; [done|].
  destruct (in_range_nonneg _ _ Hin). by apply board_get_cell_at.
Qed.

(** A move on an empty cell with the engine's capture set. *)
Lemma move_placing g r c fl :
  wf_board (Game.board g) -> in_range r c = true ->
  board_get (Game.board g) r c = Ok None ->
  pieces_flipped (Game.board g) r c (value (Game.current g)) = Ok fl ->
  ∃ g1,
    Game.move g r c fl = Ok (true, g1) ∧
    wf_board (Game.board g1) ∧
    occupied (Game.board g1) = occupied (Game.board g) + 1 ∧
    count_color (value (Game.current g)) (Game.board g1) =
      count_color (value (Game.current g)) (Game.board g)
      + 1 + Z.of_nat (size fl) ∧
    count_color (value (opponent (Game.current g))) (Game.board g1) =
      count_color (value (opponent (Game.current g))) (Game.board g)
      - Z.of_nat (size fl).
Proof.
  intros Hwf Hin Hget Hfl.
  pose (cur := value (Game.current g)). fold cur.
  assert (cur ≠ 1 - cur) as Hne by lia.
  destruct (in_range_nonneg _ _ Hin) as [Hr Hc].
  destruct (board_set_total (Game.board g) r c (Some cur) Hwf Hin)
    as [b1 Hb1].
  pose proof (board_set_wf _ _ _ _ _ Hwf Hb1) as Hwf1.
  assert (∀ p, p ∈ elements fl ->
            in_range p.1 p.2 = true ∧
            cell_at b1 p.1 p.2 = Some (Some (1 - cur))) as Hcells.
  { intros p Hp%elem_of_elements.
    destruct (pieces_flipped_cells _ _ _ _ _ p Hwf Hget Hfl Hp)
      as [Hpin Hpcell].
    split; [done|]. destruct (in_range_nonneg _ _ Hpin).
    rewrite (board_set_cell_at _ _ _ _ _ _ _ Hr Hc) by done.
    rewrite decide_False; [done|]. intros Heq.
    destruct p as [pr pc]. injection Heq as -> ->.
    apply board_get_cell_at in Hget; [|done..]. simpl in Hpcell. congruence. }
  destruct (flip_all_total (Some cur) (elements fl) b1 Hwf1) as [b2 Hb2].
  { intros p Hp. by apply Hcells. }
  pose proof (flip_all_wf _ _ _ _ Hwf1 Hb2) as Hwf2.
  destruct (flip_all_count cur (1 - cur) (elements fl) Hne
              (NoDup_elements fl) b1 b2 Hcells Hb2) as (Hcur & Hopp & Hocc).
  apply board_get_cell_at in Hget; [|done..].
  destruct (move_total g r c fl b1 b2 Hb1 Hb2) as (g1 & Hmove & Hb).
  exists g1. split; [done|]. rewrite Hb. split; [done|].
  rewrite value_opponent. fold cur.
  rewrite Hcur, Hopp, Hocc. unfold count_color, occupied.
  rewrite !(count_if_board_set _ _ r c (Some cur) b1 None) by done.
  cbn [cell_eqb is_none negb]. rewrite Z.eqb_refl.
  rewrite (proj2 (Z.eqb_neq cur (1 - cur))) by done.
  cbn [Z.b2z]. unfold size, set_size. simpl. lia.
Qed.

Lemma pieces_move g r c fl g1 :
  wf_board (Game.board g) -> in_range r c = true ->
  board_get (Game.board g) r c = Ok None ->
  pieces_flipped (Game.board g) r c (value (Game.current g)) = Ok fl ->
  Game.move g r c fl = Ok (true, g1) ->
  wf_board (Game.board g1) ∧
  pieces (Game.board g1) = pieces (Game.board g) + 1.
Proof.
  intros Hwf Hin Hget Hfl Hmove.
  destruct (move_placing g r c fl Hwf Hin Hget Hfl)
    as (g1' & Hmove' & Hwf1 & _ & Hcur & Hopp).
  rewrite Hmove in Hmove'. injection Hmove' as <-. split; [done|].
  unfold pieces. destruct (Game.current g); simpl in *; lia.
Qed.

Lemma placing_run_pieces g ms g' :
  placing_run g ms g' -> wf_board (Game.board g) ->
  wf_board (Game.board g') ∧
  pieces (Game.board g') = pieces (Game.board g) + Z.of_nat (length ms) ∧
  Game.moves g' = Game.moves g + Z.of_nat (length ms).
Proof.
  induction 1 as [g|g r c fl ok g1 ms g2 Hin Hget Hfl Hmove Hrun IH];
    intros Hwf.
  - simpl. split; [done|]. lia.
  - pose proof (move_inv _ _ _ _ _ _ Hmove) as (-> & Hmoves & _).
    destruct (pieces_move g r c fl g1 Hwf Hin Hget Hfl Hmove) as [Hwf1 Hp1].
    destruct (IH Hwf1) as (Hwf2 & Hp2 & Hm2). split; [done|].
    simpl length. lia.
Qed.

Lemma legal_run_placing g ms g' : legal_run g ms g' -> placing_run g ms g'.
Proof. induction 1; by econstructor. Qed.

Lemma replay_sound ms : ∀ g g', replay g ms = Some g' -> legal_run g ms g'.
Proof.
  induction ms as [|[r c] ms IH]; intros g g' Hrep; simpl in Hrep.
  - injection Hrep as <-. constructor.
  - destruct (in_range r c) eqn:Hin; [|done].
    destruct (board_get (Game.board g) r c) as [[v|]| |] eqn:Hget; try done.
    destruct (pieces_flipped (Game.board g) r c _) as [fl| |] eqn:Hfl;
      try done.
    destruct (set_truthy fl) eqn:Hne; [|done].
    destruct (Game.move g r c fl) as [[ok g1]| |] eqn:Hmove; try done.
    apply set_truthy_true in Hne. econstructor; eauto.
Qed.

(** The move that brings the count to 60 ends the game. *)
Lemma placing_run_last g ms g' :
  placing_run g ms g' -> ms ≠ [] -> Game.moves g' = 60 ->
  Game.game_over g' = true ∧ Game.winner g' = Game._find_winner g'.
Proof.
  induction 1 as [g|g r c fl ok g1 ms g2 Hin Hget Hfl Hmove Hrun IH];
    intros Hne H60; [done|].
  destruct ms as [|m ms]; [|by apply IH].
  inversion Hrun; subst.
  apply move_inv in Hmove as (_ & Hmoves & _ & _ & Hend).
  rewrite H60 in Hmoves. rewrite <- Hmoves in Hend. simpl in Hend. tauto.
Qed.

(** C6, as the code has it: a move on an empty cell with the capture set
    of the engine adds exactly one occupied cell; the mover gains
    1 + |capture set| cells and the opponent loses |capture set|; and the
    number of Black and White cells does not decrease, over this move and
    over any sequence of such moves after it. *)
Theorem move_conservation g r c fl ms g2 :
  wf_board (Game.board g) -> in_range r c = true ->
  board_get (Game.board g) r c = Ok None ->
  pieces_flipped (Game.board g) r c (value (Game.current g)) = Ok fl ->
  ∃ g1,
    Game.move g r c fl = Ok (true, g1) ∧
    occupied (Game.board g1) = occupied (Game.board g) + 1 ∧
    count_color (value (Game.current g)) (Game.board g1) =
      count_color (value (Game.current g)) (Game.board g)
      + 1 + Z.of_nat (size fl) ∧
    count_color (value (opponent (Game.current g))) (Game.board g1) =
      count_color (value (opponent (Game.current g))) (Game.board g)
      - Z.of_nat (size fl) ∧
    (placing_run g1 ms g2 ->
     pieces (Game.board g) <= pieces (Game.board g1) <= pieces (Game.board g2)).
Proof.
  intros Hwf Hin Hget Hfl.
  destruct (move_placing g r c fl Hwf Hin Hget Hfl)
    as (g1 & Hmove & Hwf1 & Hocc & Hcur & Hopp).
  exists g1. split_and!; try done. intros Hrun.
  destruct (pieces_move g r c fl g1 Hwf Hin Hget Hfl Hmove) as [_ Hp1].
  destruct (placing_run_pieces _ _ _ Hrun Hwf1) as (_ & Hp2 & _). lia.
Qed.

Lemma move_conservation_witness :
  ∃ g1,
    Game.move (start_game (Game.Human BLACK) (Game.Human WHITE) BLACK)
      2 4 {[ (3, 4) ]} = Ok (true, g1) ∧
    occupied (Game.board g1) = occupied start_board + 1 ∧
    count_color (value BLACK) (Game.board g1) =
      count_color (value BLACK) start_board
      + 1 + Z.of_nat (size ({[ (3, 4) ]} : gset coord)) ∧
    count_color (value WHITE) (Game.board g1) =
      count_color (value WHITE) start_board
      - Z.of_nat (size ({[ (3, 4) ]} : gset coord)) ∧
    (placing_run g1 [] after_opening ->
     pieces start_board <= pieces (Game.board g1)
       <= pieces (Game.board after_opening)).
Proof.
  apply (move_conservation
           (start_game (Game.Human BLACK) (Game.Human WHITE) BLACK)
           2 4 {[ (3, 4) ]} [] after_opening).
  - exact wf_start_board.
  - reflexivity.
  - reflexivity.
  - vm_compute. reflexivity.
Defined.

(** C6 fails as stated: Black's opening move at (2,4) captures one cell and
    takes the occupied cells from 4 to 5, not to 4 + 1 + 1. *)
Lemma occupied_grows_by_one :
  board_get start_board 2 4 = Ok None ∧
  pieces_flipped start_board 2 4 (value BLACK) = Ok {[ (3, 4) ]} ∧
  Game.move (start_game (Game.Human BLACK) (Game.Human WHITE) BLACK)
    2 4 {[ (3, 4) ]} = Ok (true, after_opening) ∧
  size ({[ (3, 4) ]} : gset coord) = 1%nat ∧
  occupied start_board = 4 ∧
  occupied (Game.board after_opening) = 5.
Proof. split_and!; by vm_compute. Qed.

(** C7: sixty legal moves from the starting position end the game: the
    state is terminal, its result is the one [_find_winner] computes, and
    Black and White together hold all 64 cells. *)
Theorem full_game_terminal pb pw s g0 ms g :
  Game.init pb pw s = Ok g0 ->
  legal_run g0 ms g ->
  length ms = 60%nat ->
  Game.game_over g = true ∧
  Game.winner g = Game._find_winner g ∧
  Game.winner g ∈ [Some BLACK; Some WHITE; None] ∧
  Game.moves g = 60 ∧
  count_color (value BLACK) (Game.board g)
    + count_color (value WHITE) (Game.board g) = 64.
Proof.
  rewrite Game_init_start. intros [= <-] Hrun%legal_run_placing Hlen.
  destruct (placing_run_pieces _ _ _ Hrun wf_start_board)
    as (_ & Hpieces & Hmoves).
  rewrite Hlen in Hpieces, Hmoves. simpl in Hmoves.
  destruct (placing_run_last _ _ _ Hrun) as [Hover Hwin]; [|done|].
  { intros ->. done. }
  split_and!; try done.
  destruct (Game.winner g) as [[|]|]; set_solver.
Qed.

Lemma full_game_terminal_witness :
  Game.game_over full_game_end = true ∧
  Game.winner full_game_end = Game._find_winner full_game_end ∧
  Game.winner full_game_end ∈ [Some BLACK; Some WHITE; None] ∧
  Game.moves full_game_end = 60 ∧
  count_color (value BLACK) (Game.board full_game_end)
    + count_color (value WHITE) (Game.board full_game_end) = 64.
Proof.
  apply (full_game_terminal (Game.Human BLACK) (Game.Human WHITE) BLACK
           (start_game (Game.Human BLACK) (Game.Human WHITE) BLACK)
           full_game full_game_end).
  - reflexivity.
  - apply replay_sound. vm_compute. reflexivity.
  - reflexivity.
Defined.

(** X19: what [Game.move] does get right: on an 8x8 board and with on-board
    coordinates it returns, counts the move, gives the target cell and every
    cell of the capture set the colour of the mover, and then either ends
    the game, at move 60, or passes the turn to the other colour. *)
Lemma move_effect g row col fl :
  wf_board (Game.board g) -> in_range row col = true ->
  (∀ p, p ∈ fl -> in_range p.1 p.2 = true) ->
  ∃ g1,
    Game.move g row col fl = Ok (true, g1) ∧
    Game.moves g1 = Game.moves g + 1 ∧
    (∀ p, p = (row, col) ∨ p ∈ fl ->
       board_get (Game.board g1) p.1 p.2 = Ok (Some (value (Game.current g)))) ∧
    (if Game.moves g1 =? 60 then
       Game.game_over g1 = true ∧ Game.winner g1 = Game._find_winner g1
     else
       Game.game_over g1 = Game.game_over g ∧
       Game.current g1 = opponent (Game.current g)).
Proof.
  intros Hwf Hin Hfl.
  destruct (board_set_total (Game.board g) row col
              (Some (value (Game.current g))) Hwf Hin) as [b1 Hb1].
  pose proof (board_set_wf _ _ _ _ _ Hwf Hb1) as Hwf1.
  assert (∀ p, p ∈ elements fl -> in_range p.1 p.2 = true) as Hfl'.
  { intros p Hp%elem_of_elements. by apply Hfl. }
  destruct (flip_all_total (Some (value (Game.current g))) (elements fl) b1
              Hwf1 Hfl') as [b2 Hb2].
  destruct (move_total g row col fl b1 b2 Hb1 Hb2) as (g1 & Hmove & Hb).
  exists g1. split; [done|].
  pose proof (move_inv _ _ _ _ _ _ Hmove) as (_ & Hmoves & _ & _ & Hend).
  split; [done|]. split.
  - intros p Hp.
    assert (in_range p.1 p.2 = true) as Hpin.
    { destruct Hp as [->|Hp]; [done|by apply Hfl]. }
    destruct (in_range_nonneg _ _ Hpin) as [Hpr Hpc].
    destruct (in_range_nonneg _ _ Hin) as [Hr Hc].
    apply board_get_cell_at; [done..|]. rewrite Hb.
    rewrite (flip_all_cell_at _ _ _ _ Hfl' Hb2 _ _ Hpr Hpc).
    rewrite (board_set_cell_at _ _ _ _ _ _ _ Hr Hc Hpr Hpc Hb1).
    destruct p as [pr pc]. simpl.
    destruct Hp as [[= -> ->]|Hp].
    + rewrite (decide_True (P := (row, col) = (row, col))) by done.
      by case_decide.
    + rewrite decide_True; [done|]. by apply elem_of_elements.
  - rewrite Hmoves. destruct (_ =? 60); tauto.
Qed.

(** ** The winner *)

Lemma sum_gen_exhausts pred cells acc :
  Game.sum_gen pred cells acc =
    (acc + Z.of_nat (length (List.filter pred cells)), []).
Proof.
  revert acc. induction cells as [|x cells IH]; intros acc; simpl.
  - f_equal. lia.
  - rewrite IH. destruct (pred x); cbn [length]; f_equal; lia.
Qed.

(** X20: in [_find_winner] the second sum runs over the exhausted
    generator: White's count is always 0, so White never wins, Black wins
    as soon as it has a cell, and a board without Black is a draw. *)
Lemma find_winner_black_or_draw g :
  Game._find_winner g =
    if count_color (value BLACK) (Game.board g) =? 0 then None
    else Some BLACK.
Proof.
  unfold Game._find_winner. rewrite sum_gen_exhausts. simpl.
  unfold count_color, count_if.
  set (n := length _). rewrite Z.add_0_l.
  destruct (Z.eqb_spec (Z.of_nat n) 0) as [Heq|Hne]; [done|].
  destruct (Z.ltb_spec 0 (Z.of_nat n)); [done|lia].
Qed.

(** C5 fails on the code: the last move of [full_game], played by White
    in a position reached by 59 legal moves, ends the game with 18 Black
    and 46 White cells, and [Game.move] records Black as the winner. *)
Theorem last_move_winner :
  replay (start_game (Game.Human BLACK) (Game.Human WHITE) BLACK)
    (take 59 full_game) = Some before_last ∧
  Game.moves before_last = 59 ∧ Game.game_over before_last = false ∧
  Game.current before_last = WHITE ∧
  (fl ← pieces_flipped (Game.board before_last) 0 6 (value WHITE);
   '(_, g) ← Game.move before_last 0 6 fl;
   mret (fl, Game.moves g, Game.game_over g, Game.winner g,
         count_color (value BLACK) (Game.board g),
         count_color (value WHITE) (Game.board g)))
  = Ok ({[ (1, 5) ]}, 60, true, Some BLACK, 18, 46).
Proof. split_and!; by vm_compute. Qed.

(** * Further properties of the code *)

(** ** [Game.move]: shape, bounds and occupancy *)

Lemma board_set_result b r c v :
  wf_board b ->
  (off_board (r, c) ∧ board_set b r c v = Raise IndexError) ∨
  (¬ off_board (r, c) ∧ ∃ b', board_set b r c v = Ok b' ∧ wf_board b').
Proof.
  intros Hwf. destruct (decide (off_board (r, c))) as [Hoff|Hon].
  - left. split; [done|]. unfold board_set. unfold off_board in Hoff.
    simpl in Hoff.
    destruct (decide (-8 <= r < 8)) as [Hr|Hr].
    + destruct (py_getitem_inside b r) as (row & -> & Hrow).
      { destruct Hwf as [-> _]. lia. }
      cbn [mbind result_bind]. unfold py_setitem.
      rewrite (py_index_outside (length row) c); [done|].
      rewrite (wf_board_row b row) by done. lia.
    + rewrite py_getitem_outside; [done|]. destruct Hwf as [-> _]. lia.
  - right. split; [done|]. unfold off_board in Hon. simpl in Hon.
    assert (∃ b', board_set b r c v = Ok b') as [b' Hb'].
    { unfold board_set.
      destruct (py_getitem_inside b r) as (row & -> & Hrow).
      { destruct Hwf as [-> _]. lia. }
      cbn [mbind result_bind]. unfold py_setitem.
      destruct (py_index_inside (length row) c) as (k & -> & _).
      { rewrite (wf_board_row b row) by done. lia. }
      cbn [mbind result_bind].
      destruct (py_index_inside (length b) r) as (i & -> & _).
      { destruct Hwf as [-> _]. lia. }
      by eexists. }
    exists b'. split; [done|]. by eapply board_set_wf.
Qed.

Lemma flip_all_result mark (l : list coord) :
  ∀ b, wf_board b ->
    ((∃ p, p ∈ l ∧ off_board p) ∧
     for_each l b (fun b '(r, c) => board_set b r c mark) = Raise IndexError) ∨
    ((∀ p, p ∈ l -> ¬ off_board p) ∧
     ∃ b', for_each l b (fun b '(r, c) => board_set b r c mark) = Ok b' ∧
           wf_board b').
Proof.
  induction l as [|[r c] l IH]; intros b Hwf.
  - right. split; [by intros p ?%elem_of_nil|]. by exists b.
  - cbn [for_each].
    destruct (board_set_result b r c mark Hwf)
      as [[Hoff ->]|[Hon (b1 & -> & Hwf1)]].
    + left. split; [|done]. exists (r, c). split; [by left|done].
    + cbn [mbind result_bind].
      destruct (IH b1 Hwf1) as [[(p & Hp & Hoff) ->]|[Hall (b' & -> & Hwf')]].
      * left. split; [|done]. exists p. split; [by right|done].
      * right. split; [|by exists b'].
        intros p [->|Hp]%elem_of_cons; [done|by apply Hall].
Qed.

(** X1: on an 8x8 board [Game.move] raises [IndexError] exactly when the
    target or a cell of the capture set is a coordinate no index denotes
    (below -8 or from 8 on); otherwise it returns [True] with a new state,
    whose board is 8x8 again. *)
Theorem move_bounds g row col fl :
  wf_board (Game.board g) ->
  ((off_board (row, col) ∨ ∃ p, p ∈ fl ∧ off_board p) ∧
   Game.move g row col fl = Raise IndexError) ∨
  (¬ off_board (row, col) ∧ (∀ p, p ∈ fl -> ¬ off_board p) ∧
   ∃ g1, Game.move g row col fl = Ok (true, g1) ∧ wf_board (Game.board g1)).
Proof.
  intros Hwf.
  destruct (board_set_result (Game.board g) row col
              (Some (value (Game.current g))) Hwf)
    as [[Hoff Hb1]|[Hon (b1 & Hb1 & Hwf1)]].
  - left. split; [by left|]. unfold Game.move. by rewrite Hb1.
  - destruct (flip_all_result (Some (value (Game.current g))) (elements fl)
                b1 Hwf1) as [[(p & Hp & Hoff) Hb2]|[Hall (b2 & Hb2 & Hwf2)]].
    + left. split; [right; exists p; by rewrite <- elem_of_elements|].
      unfold Game.move. rewrite Hb1. cbn. by rewrite Hb2.
    + right. split; [done|]. split.
      { intros p Hp. apply Hall. by apply elem_of_elements. }
      destruct (move_total g row col fl b1 b2 Hb1 Hb2) as (g1 & Hmove & Hb).
      exists g1. split; [done|]. by rewrite Hb.
Qed.

Lemma move_bounds_witness :
  ((off_board (8, 0) ∨ ∃ p, p ∈ (∅ : gset coord) ∧ off_board p) ∧
   Game.move (start_game (Game.Human BLACK) (Game.Human WHITE) BLACK)
     8 0 ∅ = Raise IndexError) ∨
  (¬ off_board (8, 0) ∧ (∀ p, p ∈ (∅ : gset coord) -> ¬ off_board p) ∧
   ∃ g1,
     Game.move (start_game (Game.Human BLACK) (Game.Human WHITE) BLACK)
       8 0 ∅ = Ok (true, g1) ∧ wf_board (Game.board g1)).
Proof.
  apply (move_bounds (start_game (Game.Human BLACK) (Game.Human WHITE) BLACK)
           8 0 ∅).
  exact wf_start_board.
Defined.

Lemma py_setitem_getitem_Some {A} (P : A -> Prop) (l l' : list A) i x j y :
  py_setitem l i x = Ok l' -> P x ->
  py_getitem l j = Ok y -> P y ->
  ∃ y', py_getitem l' j = Ok y' ∧ P y'.
Proof.
  unfold py_setitem, py_getitem. intros Hset Hx Hget Hy.
  destruct (py_index (length l) i) as [k| |] eqn:Hk; [|done..].
  cbn [mbind result_bind] in Hset. injection Hset as <-.
  rewrite length_insert.
  destruct (py_index (length l) j) as [m| |]; [|done..].
  cbn [mbind result_bind] in *.
  destruct (l !! m) as [z|] eqn:Hm; [|done]. injection Hget as ->.
  apply py_index_lt in Hk.
  destruct (decide (k = m)) as [->|Hne].
  - rewrite list_lookup_insert_eq by done. eauto.
  - rewrite list_lookup_insert_ne by done. rewrite Hm. eauto.
Qed.

Lemma board_set_keeps_occupied b r0 c0 m b' r c v :
  board_set b r0 c0 (Some m) = Ok b' ->
  board_get b r c = Ok (Some v) ->
  ∃ v', board_get b' r c = Ok (Some v').
Proof.
  unfold board_set, board_get. intros Hset Hget.
  destruct (py_getitem b r0) as [row0| |] eqn:Hrow0; [|done..].
  cbn [mbind result_bind] in Hset.
  destruct (py_setitem row0 c0 (Some m)) as [row0'| |] eqn:Hrow0';
    [|done..].
  cbn [mbind result_bind] in Hset.
  destruct (py_getitem b r) as [row| |] eqn:Hrow; [|done..].
  cbn [mbind result_bind] in Hget.
  (* the row read back is the old one or the updated one *)
  unfold py_setitem in Hset. unfold py_getitem in Hrow0, Hrow |- *.
  destruct (py_index (length b) r0) as [i| |] eqn:Hi; [|done..].
  cbn [mbind result_bind] in *. injection Hset as <-.
  rewrite length_insert.
  destruct (py_index (length b) r) as [j| |]; [|done..].
  cbn [mbind result_bind] in *.
  destruct (b !! i) as [z|] eqn:Hbi; [|done]. injection Hrow0 as ->.
  destruct (b !! j) as [z|] eqn:Hbj; [|done]. injection Hrow as ->.
  apply py_index_lt in Hi.
  destruct (decide (i = j)) as [->|Hne].
  - rewrite list_lookup_insert_eq by done. cbn [mbind result_bind].
    rewrite Hbi in Hbj. injection Hbj as ->.
    destruct (py_setitem_getitem_Some (fun x => ∃ w, x = Some w)
                row row0' c0 (Some m) c (Some v) Hrow0')
      as (y' & Hy' & w & ->); eauto.
  - rewrite list_lookup_insert_ne by done. rewrite Hbj.
    cbn [mbind result_bind]. eauto.
Qed.

Lemma flip_all_keeps_occupied m (l : list coord) :
  ∀ b b' r c v,
    for_each l b (fun b '(r, c) => board_set b r c (Some m)) = Ok b' ->
    board_get b r c = Ok (Some v) ->
    ∃ v', board_get b' r c = Ok (Some v').
Proof.
  induction l as [|[r0 c0] l IH]; intros b b' r c v Hrun Hget.
  - injection Hrun as <-. eauto.
  - cbn [for_each] in Hrun.
    destruct (board_set b r0 c0 _) as [b0| |] eqn:Hset; [|done..].
    cbn [mbind result_bind] in Hrun.
    destruct (board_set_keeps_occupied _ _ _ _ _ _ _ _ Hset Hget)
      as [v0 Hv0].
    by eapply IH.
Qed.

Lemma board_set_reads_back b r c v b' :
  board_set b r c v = Ok b' -> board_get b' r c = Ok v.
Proof.
  unfold board_set, board_get. intros Hset.
  destruct (py_getitem b r) as [row0| |] eqn:Hrow0; [|done..].
  cbn [mbind result_bind] in Hset. unfold py_setitem in Hset.
  unfold py_getitem in Hrow0 |- *.
  destruct (py_index (length row0) c) as [k| |] eqn:Hk; [|done..].
  destruct (py_index (length b) r) as [i| |] eqn:Hi; [|done..].
  cbn [mbind result_bind] in *. injection Hset as <-.
  rewrite length_insert, Hi. cbn [mbind result_bind].
  pose proof (py_index_lt _ _ _ Hi) as Hilt.
  pose proof (py_index_lt _ _ _ Hk) as Hklt.
  rewrite list_lookup_insert_eq by done. cbn [mbind result_bind].
  rewrite length_insert, Hk. cbn [mbind result_bind].
  by rewrite list_lookup_insert_eq.
Qed.

(** X2: [Game.move] never empties a cell: a cell that holds a piece before
    a returning call holds a piece after it, and so does the target; this
    holds for every board and every index, negative ones included. *)
Theorem move_keeps_occupied g row col fl ok g' :
  Game.move g row col fl = Ok (ok, g') ->
  (∃ v, board_get (Game.board g') row col = Ok (Some v)) ∧
  ∀ r c v,
    board_get (Game.board g) r c = Ok (Some v) ->
    ∃ v', board_get (Game.board g') r c = Ok (Some v').
Proof.
  intros Hmove.
  apply move_inv in Hmove as (_ & _ & _ & (b1 & Hb1 & Hb2) & _).
  split.
  - apply board_set_reads_back in Hb1.
    by eapply flip_all_keeps_occupied.
  - intros r c v Hget.
    destruct (board_set_keeps_occupied _ _ _ _ _ _ _ _ Hb1 Hget) as [v1 Hv1].
    by eapply flip_all_keeps_occupied.
Qed.

Lemma move_keeps_occupied_witness :
  (∃ v, board_get (Game.board after_opening) 2 4 = Ok (Some v)) ∧
  ∀ r c v,
    board_get
      (Game.board (start_game (Game.Human BLACK) (Game.Human WHITE) BLACK))
      r c = Ok (Some v) ->
    ∃ v', board_get (Game.board after_opening) r c = Ok (Some v').
Proof.
  apply (move_keeps_occupied
           (start_game (Game.Human BLACK) (Game.Human WHITE) BLACK)
           2 4 {[ (3, 4) ]} true after_opening).
  vm_compute. reflexivity.
Defined.

(** ** [Game.move]: turns and the end of the game *)

Lemma turn_after_succ s n :
  turn_after s (n + 1) = opponent (turn_after s n).
Proof.
  unfold turn_after. rewrite Z.add_1_r, Z.even_succ, <- Z.negb_even.
  destruct (Z.even n), s; done.
Qed.

Lemma run_moves_turns_from s ms :
  ∀ g g',
    run_moves g ms = Ok g' ->
    0 <= Game.moves g ->
    (Game.moves g < 60 ->
     Game.game_over g = false ∧ Game.winner g = None ∧
     Game.current g = turn_after s (Game.moves g)) ->
    (60 <= Game.moves g ->
     Game.game_over g = true ∧
     Game.current g = turn_after s (Game.moves g - 1)) ->
    Game.moves g' = Game.moves g + Z.of_nat (length ms) ∧
    Game.players g' = Game.players g ∧
    (Game.moves g' < 60 ->
     Game.game_over g' = false ∧ Game.winner g' = None ∧
     Game.current g' = turn_after s (Game.moves g')) ∧
    (60 <= Game.moves g' ->
     Game.game_over g' = true ∧
     Game.current g' = turn_after s (Game.moves g' - 1)).
Proof.
  induction ms as [|[[r c] fl] ms IH]; intros g g' Hrun Hpos Hlow Hhigh.
  - injection Hrun as <-. simpl. split; [lia|done].
  - cbn [run_moves] in Hrun.
    destruct (Game.move g _ _ fl) as [[ok g1]| |] eqn:Hmove; [|done..].
    cbn [mbind result_bind] in Hrun.
    apply move_inv in Hmove as (_ & Hmoves & Hplayers & _ & Hend).
    destruct (IH g1 g' Hrun) as (Hm & Hp & Hl & Hh).
    + lia.
    + intros Hlt.
      destruct (Z.eqb_spec (Game.moves g + 1) 60) as [?|_]; [lia|].
      destruct Hend as (Hover & Hwin & Hcur).
      destruct Hlow as (Hover0 & Hwin0 & Hcur0); [lia|].
      rewrite Hover, Hwin, Hcur, Hcur0, Hmoves, turn_after_succ. done.
    + intros Hge.
      destruct (Z.eqb_spec (Game.moves g + 1) 60) as [H60|Hne].
      * destruct Hend as (Hover & _ & Hcur). split; [done|].
        destruct Hlow as (_ & _ & Hcur0); [lia|].
        rewrite Hcur, Hcur0, Hmoves. f_equal. lia.
      * destruct Hend as (Hover & _ & Hcur).
        destruct Hhigh as (Hover0 & Hcur0); [lia|].
        rewrite Hover, Hcur, Hcur0, Hmoves. split; [done|].
        rewrite <- turn_after_succ. f_equal. lia.
    + split; [simpl length; lia|]. split; [congruence|done].
Qed.

(** X3: over any sequence of returning [Game.move] calls from a new game
    the move count is the number of calls; before call 60 the game is not
    over, has no winner and the colours alternate from the starting colour;
    from call 60 on the game is over and stays over, the colour to move
    being the one that made move 60 and alternating again after it. *)
Theorem run_moves_turns pb pw s g0 ms g :
  Game.init pb pw s = Ok g0 ->
  run_moves g0 ms = Ok g ->
  Game.moves g = Z.of_nat (length ms) ∧
  Game.players g = Game.players g0 ∧
  (Z.of_nat (length ms) < 60 ->
   Game.game_over g = false ∧ Game.winner g = None ∧
   Game.current g = turn_after s (Z.of_nat (length ms))) ∧
  (60 <= Z.of_nat (length ms) ->
   Game.game_over g = true ∧
   Game.current g = turn_after s (Z.of_nat (length ms) - 1)).
Proof.
  rewrite Game_init_start. intros [= <-] Hrun.
  destruct (run_moves_turns_from s ms _ _ Hrun) as (Hm & Hp & Hl & Hh).
  - done.
  - done.
  - simpl. lia.
  - simpl in Hm. rewrite Hm in Hl, Hh. by rewrite Hm.
Qed.

Lemma run_moves_turns_witness :
  Game.moves after_opening =
    Z.of_nat (length [((2, 4), ({[ (3, 4) ]} : gset coord))]) ∧
  Game.players after_opening =
    Game.players (start_game (Game.Human BLACK) (Game.Human WHITE) BLACK) ∧
  (Z.of_nat (length [((2, 4), ({[ (3, 4) ]} : gset coord))]) < 60 ->
   Game.game_over after_opening = false ∧ Game.winner after_opening = None ∧
   Game.current after_opening =
     turn_after BLACK (Z.of_nat (length [((2, 4), ({[ (3, 4) ]} : gset coord))]))) ∧
  (60 <= Z.of_nat (length [((2, 4), ({[ (3, 4) ]} : gset coord))]) ->
   Game.game_over after_opening = true ∧
   Game.current after_opening =
     turn_after BLACK
       (Z.of_nat (length [((2, 4), ({[ (3, 4) ]} : gset coord))]) - 1)).
Proof.
  apply (run_moves_turns (Game.Human BLACK) (Game.Human WHITE) BLACK
           (start_game (Game.Human BLACK) (Game.Human WHITE) BLACK)
           [((2, 4), {[ (3, 4) ]})] after_opening).
  - reflexivity.
  - vm_compute. reflexivity.
Defined.

(** ** The enumerator: what it offers and in which order *)

Lemma get_valid_moves_items b sym :
  wf_board b ->
  ∃ d,
    get_valid_moves b sym = Ok d ∧ NoDup (dict_keys d) ∧
    ∀ p fl, (p, fl) ∈ d ↔
            in_range p.1 p.2 = true ∧ board_get b p.1 p.2 = Ok None ∧
            pieces_flipped b p.1 p.2 (value sym) = Ok fl ∧ fl ≠ ∅.
Proof.
  intros Hwf. unfold get_valid_moves.
  destruct (enumerate_cells b (value sym) Hwf all_cells [])
    as (d & Hrun & Hd & Hnodup).
  { exact NoDup_all_cells. }
  { intros p. by rewrite elem_of_all_cells. }
  { intros p _. apply not_elem_of_nil. }
  exists d. split; [exact Hrun|]. split; [apply Hnodup; constructor|].
  intros p fl. rewrite Hd, elem_of_all_cells. split.
  - intros [?%elem_of_nil|?]; done.
  - by right.
Qed.

(** X4: a cell that held a piece before a returning [Game.move], and the
    target of the move, are never offered afterwards: for either colour the
    legality engine gives them the empty capture set and the enumerator
    does not list them. *)
Theorem occupied_never_offered g row col fl ok g' r c sym :
  wf_board (Game.board g) ->
  Game.move g row col fl = Ok (ok, g') ->
  in_range r c = true ->
  (r, c) = (row, col) ∨ (∃ v, board_get (Game.board g) r c = Ok (Some v)) ->
  pieces_flipped (Game.board g') r c (value sym) = Ok ∅ ∧
  ∃ d, get_valid_moves (Game.board g') sym = Ok d ∧ (r, c) ∉ dict_keys d.
Proof.
  intros Hwf Hmove Hin Hocc.
  assert (∃ v, board_get (Game.board g') r c = Ok (Some v)) as [v Hv].
  { pose proof (move_inv _ _ _ _ _ _ Hmove)
      as (_ & _ & _ & (b1 & Hb1 & Hb2) & _).
    destruct Hocc as [[= -> ->]|[v Hv]].
    - apply board_set_reads_back in Hb1.
      by eapply flip_all_keeps_occupied.
    - destruct (board_set_keeps_occupied _ _ _ _ _ _ _ _ Hb1 Hv) as [v1 Hv1].
      by eapply flip_all_keeps_occupied. }
  assert (wf_board (Game.board g')) as Hwf'.
  { apply move_inv in Hmove as (_ & _ & _ & (b1 & Hb1 & Hb2) & _).
    eapply flip_all_wf; [|exact Hb2]. by eapply board_set_wf. }
  split; [by eapply pieces_flipped_occupied|].
  destruct (get_valid_moves_items (Game.board g') sym Hwf')
    as (d & Hd & _ & Hitems).
  exists d. split; [done|]. unfold dict_keys.
  intros ([p fl'] & Hp & Hin')%list_elem_of_fmap. simpl in Hp. subst p.
  apply Hitems in Hin' as (_ & Hget & _). simpl in Hget. congruence.
Qed.

Lemma occupied_never_offered_witness :
  pieces_flipped (Game.board after_opening) 2 4 (value WHITE) = Ok ∅ ∧
  ∃ d, get_valid_moves (Game.board after_opening) WHITE = Ok d ∧
       (2, 4) ∉ dict_keys d.
Proof.
  apply (occupied_never_offered
           (start_game (Game.Human BLACK) (Game.Human WHITE) BLACK)
           2 4 {[ (3, 4) ]} true after_opening 2 4 WHITE).
  - exact wf_start_board.
  - vm_compute. reflexivity.
  - reflexivity.
  - left. reflexivity.
Defined.

(** X5: the legal moves of a colour on a board are the legal moves of the
    other colour on the colour-swapped board, with the same capture sets
    and in the same order. *)
Theorem get_valid_moves_colorSwap b s :
  get_valid_moves (colorSwap b) (opponent s) = get_valid_moves b s.
Proof.
  unfold get_valid_moves. apply for_each_ext. intros d [r c].
  rewrite board_get_colorSwap.
  destruct (board_get b r c) as [x| |]; cbn [fmap result_fmap mbind result_bind];
    [|done..].
  rewrite is_none_swap. destruct (is_none x); [|done].
  by rewrite pieces_flipped_colorSwap.
Qed.

Lemma dict_set_keys {K V} `{EqDecision K} (d : dict K V) k v :
  (dict_set d k v).*1 = if decide (k ∈ d.*1) then d.*1 else d.*1 ++ [k].
Proof.
  induction d as [|[k' v'] d IH]; cbn [dict_set fmap list_fmap fst].
  - rewrite decide_False; [done|]. apply not_elem_of_nil.
  - destruct (decide (k' = k)) as [->|Hne]; cbn [fmap list_fmap fst].
    + rewrite decide_True; [done|]. by left.
    + rewrite IH. destruct (decide (k ∈ d.*1)) as [Hin|Hnin].
      * rewrite decide_True; [done|]. by right.
      * rewrite decide_False; [done|].
        intros [?|?]%elem_of_cons; congruence.
Qed.

Lemma enumerate_order (b : Board) (pv : Z) (l : list coord) :
  ∀ d0 d : dict coord (gset coord),
    for_each l d0
      (fun d '(r, c) =>
         x ← board_get b r c;
         if is_none x then
           flipped ← pieces_flipped b r c pv;
           if set_truthy flipped then mret (dict_set d (r, c) flipped)
           else mret d
         else mret d) = Ok d ->
    ∃ k, d.*1 = d0.*1 ++ k ∧ k `sublist_of` l.
Proof.
  induction l as [|[r c] l IH]; intros d0 d Hrun.
  - injection Hrun as <-. exists []. by rewrite app_nil_r.
  - cbn [for_each] in Hrun.
    match type of Hrun with
    | (?step ≫= _) = _ => destruct step as [d1| |] eqn:Hstep; [|done..]
    end.
    cbn [mbind result_bind] in Hrun.
    destruct (IH d1 d Hrun) as (k & Hk & Hsub).
    assert (d1.*1 = d0.*1 ∨ d1.*1 = d0.*1 ++ [(r, c)]) as [Heq|Heq].
    { destruct (board_get b r c) as [x| |]; [|done..].
      cbn [mbind result_bind] in Hstep.
      destruct (is_none x); [|injection Hstep as <-; by left].
      destruct (pieces_flipped b r c pv) as [fl| |]; [|done..].
      cbn [mbind result_bind] in Hstep.
      destruct (set_truthy fl); injection Hstep as <-; [|by left].
      rewrite dict_set_keys. case_decide; [by left|by right]. }
    + exists k. split; [congruence|]. by apply sublist_cons.
    + exists ((r, c) :: k). split.
      * rewrite Hk, Heq, <- app_assoc. done.
      * by apply sublist_skip.
Qed.

Lemma StronglySorted_sublist {A} (R : relation A) (l1 l2 : list A) :
  l1 `sublist_of` l2 -> StronglySorted R l2 -> StronglySorted R l1.
Proof.
  induction 1 as [|x l1 l2 Hsub IH|x l1 l2 Hsub IH];
    rewrite ?StronglySorted_cons; [done| |].
  - intros [Hall Hsorted]. split; [|by apply IH].
    rewrite Forall_forall in Hall |- *. intros y Hy. apply Hall.
    by eapply elem_of_sublist.
  - intros [_ Hsorted]. by apply IH.
Qed.

Lemma all_cells_row_major : StronglySorted row_major all_cells.
Proof. apply (bool_decide_unpack _). by vm_compute. Qed.

(** X6: whenever [get_valid_moves] returns, the keys of its mapping come
    in the order of the scan, by rows and within a row by columns. *)
Theorem get_valid_moves_row_major b sym d :
  get_valid_moves b sym = Ok d ->
  StronglySorted row_major (dict_keys d).
Proof.
  unfold get_valid_moves. intros Hrun.
  apply enumerate_order in Hrun as (k & Hk & Hsub).
  unfold dict_keys. rewrite Hk. simpl.
  eapply StronglySorted_sublist; [exact Hsub|exact all_cells_row_major].
Qed.

Lemma get_valid_moves_row_major_witness :
  StronglySorted row_major (dict_keys corner_moves).
Proof.
  apply (get_valid_moves_row_major corner_board BLACK corner_moves).
  vm_compute. reflexivity.
Defined.

(** ** The medium strategy beyond the corners *)

Lemma neighbours_spec (b : Board) (ar ac : Z) :
  wf_board b ->
  ∀ l (acc : gset coord),
    ∃ s,
      for_each l acc
        (fun acc '(dr, dc) =>
           if in_range (ar + dr) (ac + dc) then
             x ← board_get b (ar + dr) (ac + dc);
             if is_none x then mret (acc ∪ {[ (ar + dr, ac + dc) ]})
             else mret acc
           else mret acc) = Ok s ∧
      ∀ p, p ∈ s ↔
           p ∈ acc ∨
           (in_range p.1 p.2 = true ∧ board_get b p.1 p.2 = Ok None ∧
            ∃ d, d ∈ l ∧ p = (ar + d.1, ac + d.2)).
Proof.
  intros Hwf. induction l as [|[dr dc] l IH]; intros acc.
  - exists acc. split; [done|]. intros p. split; [by left|].
    intros [?|(_ & _ & d & ?%elem_of_nil & _)]; done.
  - cbn [for_each].
    destruct (in_range (ar + dr) (ac + dc)) eqn:Hin.
    + destruct (board_get_total b _ _ Hwf Hin) as [x Hx]. rewrite Hx.
      cbn [mbind result_bind].
      destruct x as [v|]; cbn [is_none mret result_ret mbind result_bind].
      * destruct (IH acc) as (s & -> & Hs). exists s. split; [done|].
        intros p. rewrite Hs. split.
        -- intros [?|(? & ? & d & ? & ->)]; [by left|right].
           split_and!; try done. exists d. split; [by right|done].
        -- intros [?|(Hpin & Hpget & d & [->|Hd]%elem_of_cons & ->)];
             [by left| |].
           ++ simpl in Hpget. congruence.
           ++ right. split_and!; try done. by exists d.
      * destruct (IH (acc ∪ {[ (ar + dr, ac + dc) ]})) as (s & -> & Hs).
        exists s. split; [done|]. intros p.
        rewrite Hs, elem_of_union, elem_of_singleton. split.
        -- intros [[?| ->]|(? & ? & d & ? & ->)]; [by left|right..].
           ++ split_and!; try done. exists (dr, dc). split; [by left|done].
           ++ split_and!; try done. exists d. split; [by right|done].
        -- intros [?|(Hpin & Hpget & d & [->|Hd]%elem_of_cons & ->)].
           ++ by left; left.
           ++ by left; right.
           ++ right. split_and!; try done. by exists d.
    + cbn [mbind result_bind mret result_ret].
      destruct (IH acc) as (s & -> & Hs). exists s. split; [done|].
      intros p. rewrite Hs. split.
      * intros [?|(? & ? & d & ? & ->)]; [by left|right].
        split_and!; try done. exists d. split; [by right|done].
      * intros [?|(Hpin & Hpget & d & [->|Hd]%elem_of_cons & ->)];
          [by left| |].
        -- simpl in Hpin. congruence.
        -- right. split_and!; try done. by exists d.
Qed.

Lemma pseudo_candidates_spec (b : Board) (affected : gset coord) :
  wf_board b ->
  ∃ s, Bot.pseudo_candidates b affected = Ok s ∧
       ∀ p, p ∈ s ↔ exposed b affected p.
Proof.
  intros Hwf. unfold Bot.pseudo_candidates.
  assert (∀ l (acc : gset coord),
            ∃ s,
              for_each l acc
                (fun acc '(ar, ac) =>
                   for_each dirs acc
                     (fun acc '(dr, dc) =>
                        if in_range (ar + dr) (ac + dc) then
                          x ← board_get b (ar + dr) (ac + dc);
                          if is_none x
                          then mret (acc ∪ {[ (ar + dr, ac + dc) ]})
                          else mret acc
                        else mret acc)) = Ok s ∧
              ∀ p, p ∈ s ↔
                   p ∈ acc ∨
                   (in_range p.1 p.2 = true ∧ board_get b p.1 p.2 = Ok None ∧
                    ∃ a d, a ∈ l ∧ d ∈ dirs ∧ p = (a.1 + d.1, a.2 + d.2)))
    as Hloop.
  { induction l as [|[ar ac] l IH]; intros acc.
    - exists acc. split; [done|]. intros p. split; [by left|].
      intros [?|(_ & _ & a & d & ?%elem_of_nil & _)]; done.
    - cbn [for_each].
      destruct (neighbours_spec b ar ac Hwf dirs acc) as (s1 & -> & Hs1).
      cbn [mbind result_bind].
      destruct (IH s1) as (s & -> & Hs). exists s. split; [done|].
      intros p. rewrite Hs, Hs1. split.
      + intros [[?|(? & ? & d & ? & ->)]|(? & ? & a & d & ? & ? & ->)].
        * by left.
        * right. split_and!; try done. exists (ar, ac), d.
          split; [by left|done].
        * right. split_and!; try done. exists a, d. split; [by right|done].
      + intros [?|(Hin & Hget & a & d & [->|Ha]%elem_of_cons & Hd & ->)].
        * by left; left.
        * left; right. split_and!; try done. by exists d.
        * right. split_and!; try done. by exists a, d. }
  destruct (Hloop (elements affected) ∅) as (s & -> & Hs).
  exists s. split; [done|]. intros p. rewrite Hs. unfold exposed. split.
  - intros [?%not_elem_of_empty|(? & ? & a & d & Ha%elem_of_elements & ?)];
      [done|]. split_and!; try done. by exists a, d.
  - intros (? & ? & a & d & Ha & ?). right. split_and!; try done.
    exists a, d. by rewrite elem_of_elements.
Qed.

Lemma gives_corner_spec (b : Board) (hv : Z) (affected s : gset coord) :
  wf_board b -> (∀ p, p ∈ s ↔ exposed b affected p) ->
  ∀ corners,
    (∀ p, p ∈ corners -> in_range p.1 p.2 = true) ->
    ∃ t, Bot.gives_corner b hv s corners = Ok t ∧
         (t = true ↔
          ∃ corner fl,
            corner ∈ corners ∧ exposed b affected corner ∧
            pieces_flipped b corner.1 corner.2 hv = Ok fl ∧ fl ≠ ∅).
Proof.
  intros Hwf Hs. induction corners as [|corner rest IH]; intros Hin.
  - exists false. split; [done|]. split; [done|].
    intros (c & fl & ?%elem_of_nil & _). done.
  - cbn [Bot.gives_corner].
    destruct (IH) as (t & Ht & Hspec).
    { intros p Hp. apply Hin. by right. }
    destruct (pieces_flipped_total b corner.1 corner.2 hv Hwf) as [fl Hfl].
    { apply Hin. by left. }
    destruct (bool_decide (corner ∈ s)) eqn:Hmem.
    + apply bool_decide_eq_true in Hmem. rewrite Hfl.
      cbn [mbind result_bind mret result_ret].
      destruct (set_truthy fl) eqn:Hne.
      * exists true. split; [done|]. split; [|done]. intros _.
        exists corner, fl. split; [by left|]. split; [by apply Hs|].
        split; [done|]. by apply set_truthy_true.
      * rewrite Ht. exists t. split; [done|]. rewrite Hspec. split.
        -- intros (c & fl' & ? & ?). exists c, fl'. split; [by right|done].
        -- intros (c & fl' & [->|Hc]%elem_of_cons & Hexp & Hfl' & Hne').
           ++ rewrite Hfl in Hfl'. injection Hfl' as <-.
              apply set_truthy_true in Hne'. congruence.
           ++ by exists c, fl'.
    + apply bool_decide_eq_false in Hmem.
      cbn [mbind result_bind mret result_ret].
      rewrite Ht. exists t. split; [done|]. rewrite Hspec. split.
      * intros (c & fl' & ? & ?). exists c, fl'. split; [by right|done].
      * intros (c & fl' & [->|Hc]%elem_of_cons & Hexp & Hfl' & Hne').
        -- destruct Hmem. by apply Hs.
        -- by exists c, fl'.
Qed.

Lemma CORNERS_in_range p : p ∈ Bot.CORNERS -> in_range p.1 p.2 = true.
Proof.
  unfold Bot.CORNERS. intros Hp.
  repeat (apply elem_of_cons in Hp as [->|Hp]; [done|]).
  by apply elem_of_nil in Hp.
Qed.

(** One turn of the loop over [valid_moves.items()]. *)
Lemma rate_move_spec (self : Bot.t) (b : Board) (vnc : list coord)
    (pm : dict coord Z) (r c : Z) (fl : gset coord) :
  wf_board b ->
  ∃ s : gset coord,
    (∀ p, p ∈ s ↔ exposed b ({[ (r, c) ]} ∪ fl) p) ∧
    ((gifts_corner b (value (Bot.human_symbol self)) ({[ (r, c) ]} ∪ fl) ∧
      Bot.rate_move self b (vnc, pm) ((r, c), fl) =
        Ok (vnc, dict_set pm (r, c) (Z.of_nat (size s)))) ∨
     (¬ gifts_corner b (value (Bot.human_symbol self)) ({[ (r, c) ]} ∪ fl) ∧
      Bot.rate_move self b (vnc, pm) ((r, c), fl) =
        Ok (vnc ++ [(r, c)], dict_set pm (r, c) (Z.of_nat (size s))))).
Proof.
  intros Hwf. unfold Bot.rate_move.
  destruct (pseudo_candidates_spec b ({[ (r, c) ]} ∪ fl) Hwf)
    as (s & -> & Hs).
  cbn [mbind result_bind].
  destruct (gives_corner_spec b (value (Bot.human_symbol self)) _ s Hwf Hs
              Bot.CORNERS CORNERS_in_range) as (t & -> & Ht).
  cbn [mbind result_bind]. exists s. split; [done|].
  destruct t.
  - left. split; [|done]. by apply Ht.
  - right. split; [|done]. intros Hg. apply Ht in Hg. done.
Qed.

Lemma rate_moves_spec (self : Bot.t) (b : Board) :
  wf_board b ->
  ∀ (l : dict coord (gset coord)) (vnc0 : list coord) (pm0 : dict coord Z),
    NoDup l.*1 -> (∀ k, k ∈ l.*1 -> k ∉ pm0.*1) ->
    ∃ vnc pm,
      for_each l (vnc0, pm0) (Bot.rate_move self b) = Ok (vnc, pm) ∧
      (∀ k, k ∈ vnc ↔
            k ∈ vnc0 ∨
            ∃ fl, (k, fl) ∈ l ∧
                  ¬ gifts_corner b (value (Bot.human_symbol self))
                      ({[ k ]} ∪ fl)) ∧
      (∀ k n, (k, n) ∈ pm ↔
              (k, n) ∈ pm0 ∨
              ∃ fl, (k, fl) ∈ l ∧ exposure_count b ({[ k ]} ∪ fl) n).
Proof.
  intros Hwf. induction l as [|[[r c] fl] l IH]; intros vnc0 pm0 Hnd Hfresh.
  - exists vnc0, pm0. split; [done|]. split.
    + intros k. split; [by left|]. intros [?|(? & ?%elem_of_nil & _)]; done.
    + intros k n. split; [by left|].
      intros [?|(? & ?%elem_of_nil & _)]; done.
  - cbn [fmap list_fmap fst] in Hnd, Hfresh.
    apply NoDup_cons in Hnd as [Hrc Hnd]. cbn [for_each].
    destruct (rate_move_spec self b vnc0 pm0 r c fl Hwf) as (s & Hs & Hstep).
    assert ((r, c) ∉ pm0.*1) as Hrc0 by (apply Hfresh; by left).
    rewrite (dict_set_fresh pm0) in Hstep by done.
    assert (∀ n, exposure_count b ({[ (r, c) ]} ∪ fl) n ↔
                 n = Z.of_nat (size s)) as Hcount.
    { intros n. split.
      - intros (s' & Hs' & ->). f_equal. f_equal. apply set_eq.
        intros p. by rewrite Hs, Hs'.
      - intros ->. by exists s. }
    assert (∀ k, k ∈ l.*1 -> k ∉ (pm0 ++ [((r, c), Z.of_nat (size s))]).*1)
      as Hfresh1.
    { intros k Hk. rewrite fmap_app, elem_of_app.
      intros [Hk0|Hk1].
      - revert Hk0. apply Hfresh. by right.
      - apply list_elem_of_singleton in Hk1. simpl in Hk1. by subst k. }
    destruct Hstep as [[Hg ->]|[Hg ->]]; cbn [mbind result_bind].
    + destruct (IH vnc0 _ Hnd Hfresh1) as (vnc & pm & -> & Hvnc & Hpm).
      exists vnc, pm. split; [done|]. split.
      * intros k. rewrite Hvnc. split.
        -- intros [?|(fl' & ? & ?)]; [by left|right].
           exists fl'. split; [by right|done].
        -- intros [?|(fl' & [[= -> ->]|?]%elem_of_cons & Hng)];
             [by left|done|right]. by exists fl'.
      * intros k n. rewrite Hpm, elem_of_app, list_elem_of_singleton. split.
        -- intros [[?|[= -> ->]]|(fl' & ? & ?)]; [by left|right..].
           ++ exists fl. split; [by left|]. by apply Hcount.
           ++ exists fl'. split; [by right|done].
        -- intros [?|(fl' & [[= -> ->]|?]%elem_of_cons & Hn)].
           ++ by left; left.
           ++ left; right. apply Hcount in Hn. by subst n.
           ++ right. by exists fl'.
    + destruct (IH (vnc0 ++ [(r, c)]) _ Hnd Hfresh1)
        as (vnc & pm & -> & Hvnc & Hpm).
      exists vnc, pm. split; [done|]. split.
      * intros k. rewrite Hvnc, elem_of_app, list_elem_of_singleton. split.
        -- intros [[?| ->]|(fl' & ? & ?)]; [by left|right..].
           ++ exists fl. split; [by left|done].
           ++ exists fl'. split; [by right|done].
        -- intros [?|(fl' & [[= -> ->]|?]%elem_of_cons & Hng)].
           ++ by left; left.
           ++ by left; right.
           ++ right. by exists fl'.
      * intros k n. rewrite Hpm, elem_of_app, list_elem_of_singleton. split.
        -- intros [[?|[= -> ->]]|(fl' & ? & ?)]; [by left|right..].
           ++ exists fl. split; [by left|]. by apply Hcount.
           ++ exists fl'. split; [by right|done].
        -- intros [?|(fl' & [[= -> ->]|?]%elem_of_cons & Hn)].
           ++ by left; left.
           ++ left; right. apply Hcount in Hn. by subst n.
           ++ right. by exists fl'.
Qed.

(** *** The stable sort *)

Lemma insert_by_score_perm x l : Bot.insert_by_score x l ≡ₚ x :: l.
Proof.
  induction l as [|y l IH]; [done|]. simpl.
  destruct (x.2 <=? y.2); [done|]. rewrite IH. apply Permutation_swap.
Qed.

Lemma sorted_by_score_perm l : Bot.sorted_by_score l ≡ₚ l.
Proof.
  induction l as [|x l IH]; [done|]. unfold Bot.sorted_by_score in *.
  simpl. by rewrite insert_by_score_perm, IH.
Qed.

Lemma insert_by_score_sorted x l :
  StronglySorted (fun a b : coord * Z => a.2 <= b.2) l ->
  StronglySorted (fun a b : coord * Z => a.2 <= b.2) (Bot.insert_by_score x l).
Proof.
  induction l as [|y l IH]; intros Hl; simpl.
  - by repeat constructor.
  - apply StronglySorted_cons in Hl as [Hy Hl].
    destruct (Z.leb_spec x.2 y.2) as [Hle|Hgt].
    + apply StronglySorted_cons. split.
      * constructor; [done|]. eapply Forall_impl; [exact Hy|].
        intros z Hz. simpl in *. lia.
      * by apply StronglySorted_cons.
    + apply StronglySorted_cons. split; [|by apply IH].
      rewrite insert_by_score_perm. constructor; [lia|done].
Qed.

Lemma sorted_by_score_sorted l :
  StronglySorted (fun a b : coord * Z => a.2 <= b.2) (Bot.sorted_by_score l).
Proof.
  induction l as [|x l IH]; [constructor|].
  by apply insert_by_score_sorted.
Qed.

(** The last stage: the head of the sorted list has the least score and
    the choice is made among the items with that score. *)
Lemma least_exposure_choice (pm : dict coord Z) (rng : nat) :
  pm ≠ [] ->
  ∃ first choice,
    py_getitem (Bot.sorted_by_score pm) 0 = Ok first ∧
    random_choice rng
      (filter (fun kv : coord * Z => bool_decide (kv.2 = first.2))
         (Bot.sorted_by_score pm)).*1 = Ok choice ∧
    (choice, first.2) ∈ pm ∧
    ∀ k n, (k, n) ∈ pm -> first.2 <= n.
Proof.
  intros Hne.
  pose proof (sorted_by_score_perm pm) as Hperm.
  pose proof (sorted_by_score_sorted pm) as Hsorted.
  destruct (Bot.sorted_by_score pm) as [|first rest] eqn:Hs.
  { apply Permutation_nil_l in Hperm. done. }
  set (tied := (filter (fun kv : coord * Z => bool_decide (kv.2 = first.2))
                  (first :: rest)).*1).
  assert (first.1 ∈ tied) as Hin.
  { apply list_elem_of_fmap. exists first. split; [done|].
    apply list_elem_of_filter. split; [|by left].
    by apply bool_decide_pack. }
  destruct (random_choice_elem rng tied) as (choice & Hchoice & Hc).
  { intros Heq. rewrite Heq in Hin. by apply elem_of_nil in Hin. }
  exists first, choice. split; [done|]. split; [done|]. split.
  - apply list_elem_of_fmap in Hc as ([k n] & -> & Hk).
    apply list_elem_of_filter in Hk as [Hscore Hk].
    apply bool_decide_unpack in Hscore. simpl in *. subst n.
    by rewrite <- Hperm.
  - intros k n Hkn. rewrite <- Hperm in Hkn.
    apply StronglySorted_cons in Hsorted as [Hall _].
    apply elem_of_cons in Hkn as [<-|Hkn]; [done|].
    rewrite Forall_forall in Hall. by apply (Hall (k, n)).
Qed.

Lemma elem_of_EDGES p : p ∈ Bot.EDGES ↔ on_edge p ∧ p ≠ (7, 7).
Proof.
  unfold Bot.EDGES, on_edge.
  rewrite !elem_of_app, !list_elem_of_fmap, in_range_spec.
  destruct p as [r c]. simpl. split.
  - intros [(x & [= -> ->] & Hx%elem_of_py_range)
           |[(x & [= -> ->] & Hx%elem_of_py_range)
            |[(x & [= -> ->] & Hx%elem_of_py_range)
             |(x & [= -> ->] & Hx%elem_of_py_range)]]];
      (split; [lia|]); intros Heq; inversion Heq; lia.
  - intros [[[Hr Hc] Hedge] Hne].
    destruct (decide (r = 0)) as [->|?].
    { left. exists c. by rewrite elem_of_py_range. }
    destruct (decide (c = 0)) as [->|?].
    { right; left. exists r. by rewrite elem_of_py_range. }
    destruct (decide (r = 7)) as [->|?].
    { right; right; left. exists c. rewrite elem_of_py_range.
      split; [done|]. assert (c ≠ 7) by congruence. lia. }
    right; right; right. exists r. rewrite elem_of_py_range.
    assert (c = 7) as -> by lia. split; [done|]. lia.
Qed.

Lemma dict_get_elem {K V} `{EqDecision K} (d : dict K V) k v :
  NoDup d.*1 -> (k, v) ∈ d -> dict_get d k = Ok v.
Proof.
  induction d as [|[k' v'] d IH]; intros Hnd Hin;
    [by apply elem_of_nil in Hin|].
  cbn [fmap list_fmap fst] in Hnd. apply NoDup_cons in Hnd as [Hk' Hnd].
  simpl. apply elem_of_cons in Hin as [[= -> ->]|Hin].
  - by rewrite decide_True.
  - rewrite decide_False; [by apply IH|]. intros ->. apply Hk'.
    apply list_elem_of_fmap. by exists (k, v).
Qed.

Lemma dict_contains_true {K V} `{EqDecision K} (d : dict K V) k :
  dict_contains d k = true ↔ k ∈ dict_keys d.
Proof. unfold dict_contains. apply bool_decide_eq_true. Qed.

Lemma filter_keys_nil (vm : dict coord (gset coord)) (l : list coord) :
  filter (fun k => dict_contains vm k) l = [] ↔
  Forall (fun k => dict_contains vm k = false) l.
Proof.
  induction l as [|k l IH]; [by split; [constructor|]|].
  rewrite filter_cons, Forall_cons.
  destruct (decide (dict_contains vm k)) as [Hk|Hk].
  - split; [done|]. intros [Hf _]. rewrite Hf in Hk. done.
  - rewrite IH. apply Is_true_false in Hk. by split; [|intros [_ ?]].
Qed.

Lemma gifts_corner_dec (b : Board) (hv : Z) (affected : gset coord) :
  wf_board b -> gifts_corner b hv affected ∨ ¬ gifts_corner b hv affected.
Proof.
  intros Hwf.
  destruct (pseudo_candidates_spec b affected Hwf) as (s & _ & Hs).
  destruct (gives_corner_spec b hv affected s Hwf Hs Bot.CORNERS
              CORNERS_in_range) as ([|] & _ & Ht).
  - left. by apply Ht.
  - right. intros Hg. apply Ht in Hg. done.
Qed.

(** The stages after the corner stage, when no corner is a key. *)
Lemma medium_beyond_corners (self : Bot.t) (b : Board)
    (vm : dict coord (gset coord)) (rng : nat) :
  wf_board b -> NoDup (dict_keys vm) -> vm ≠ [] ->
  Forall (fun k => dict_contains vm k = false) Bot.CORNERS ->
  ∃ mv fl,
    Bot._medium_strategy self b vm rng = Ok (mv, fl) ∧ (mv, fl) ∈ vm ∧
    (¬ gifts_corner b (value (Bot.human_symbol self)) ({[ mv ]} ∪ fl) ∨
     (Forall (fun kv => gifts_corner b (value (Bot.human_symbol self))
                          ({[ kv.1 ]} ∪ kv.2)) vm ∧
      mv ∈ Bot.EDGES) ∨
     (Forall (fun kv => gifts_corner b (value (Bot.human_symbol self))
                          ({[ kv.1 ]} ∪ kv.2)) vm ∧
      Forall (fun k => k ∉ Bot.EDGES) (dict_keys vm) ∧
      ∃ n, exposure_count b ({[ mv ]} ∪ fl) n ∧
           Forall (fun kv => ∀ n', exposure_count b ({[ kv.1 ]} ∪ kv.2) n' ->
                                   n <= n') vm)).
Proof.
  intros Hwf Hnd Hne Hcorners.
  destruct (rate_moves_spec self b Hwf vm [] [] Hnd)
    as (vnc & pm & Hrun & Hvnc & Hpm).
  { intros k _. apply not_elem_of_nil. }
  assert (Bot._medium_strategy self b vm rng =
            if negb (bool_decide (vnc = [])) then
              move ← random_choice rng vnc;
              fl ← dict_get vm move;
              mret (move, fl)
            else if negb (bool_decide
                            (filter (fun k => dict_contains vm k) Bot.EDGES
                             = [])) then
              move ← random_choice rng
                       (filter (fun k => dict_contains vm k) Bot.EDGES);
              fl ← dict_get vm move;
              mret (move, fl)
            else
              first ← py_getitem (Bot.sorted_by_score pm) 0;
              choice ← random_choice rng
                         (filter (fun kv : coord * Z =>
                                    bool_decide (kv.2 = first.2))
                            (Bot.sorted_by_score pm)).*1;
              fl ← dict_get vm choice;
              mret (choice, fl)) as Hstrategy.
  { unfold Bot._medium_strategy.
    rewrite (proj2 (filter_keys_nil vm Bot.CORNERS) Hcorners).
    rewrite bool_decide_eq_true_2 by done. cbn [negb].
    pose proof Hrun as Hrun'. unfold dict in Hrun'. by rewrite Hrun'. }
  rewrite Hstrategy. clear Hstrategy.
  destruct (decide (vnc = [])) as [->|Hvne].
  2: { (* some move does not give a corner away *)
       destruct (random_choice_elem rng vnc Hvne) as (mv & Hchoice & Hmv).
       apply Hvnc in Hmv as [?%elem_of_nil|(fl & Hin & Hng)]; [done|].
       exists mv, fl. split; [|split; [done|by left]].
       rewrite bool_decide_eq_false_2 by done. cbn [negb].
       rewrite Hchoice. cbn [mbind result_bind].
       by rewrite (dict_get_elem vm mv fl Hnd Hin). }
  assert (Forall (fun kv => gifts_corner b (value (Bot.human_symbol self))
                              ({[ kv.1 ]} ∪ kv.2)) vm) as Hall.
  { apply Forall_forall. intros [k fl] Hin. simpl.
    destruct (gifts_corner_dec b (value (Bot.human_symbol self))
                ({[ k ]} ∪ fl) Hwf) as [Hg|Hng]; [done|].
    assert (k ∈ ([] : list coord)) as ?%elem_of_nil; [|done].
    apply Hvnc. right. by exists fl. }
  destruct (decide (filter (fun k => dict_contains vm k) Bot.EDGES = []))
    as [Hedges|Hedges].
  2: { (* an edge move *)
       destruct (random_choice_elem rng _ Hedges) as (mv & Hchoice & Hmv).
       apply list_elem_of_filter in Hmv as [Hkey Hedge].
       apply Is_true_true in Hkey.
       destruct (dict_get_contains vm mv Hkey) as (fl & Hget & Hin).
       exists mv, fl. split; [|split; [done|by right; left]].
       rewrite bool_decide_eq_true_2 by done. cbn [negb].
       rewrite bool_decide_eq_false_2 by done. cbn [negb].
       rewrite Hchoice. cbn [mbind result_bind]. by rewrite Hget. }
  assert (pm ≠ []) as Hpne.
  { destruct vm as [|[k fl] vm']; [done|].
    destruct (pseudo_candidates_spec b ({[ k ]} ∪ fl) Hwf) as (s & _ & Hs).
    assert ((k, Z.of_nat (size s)) ∈ pm) as Hin.
    { apply Hpm. right. exists fl. split; [by left|]. by exists s. }
    intros ->. by apply elem_of_nil in Hin. }
  destruct (least_exposure_choice pm rng Hpne)
    as (first & choice & Hfirst & Hchoice & Hin & Hleast).
  apply Hpm in Hin as [?%elem_of_nil|(fl & Hin & Hcount)]; [done|].
  exists choice, fl. split; [|split; [done|right; right]].
  { rewrite bool_decide_eq_true_2 by done. cbn [negb].
    rewrite bool_decide_eq_true_2 by done. cbn [negb].
    rewrite Hfirst. cbn [mbind result_bind].
    rewrite Hchoice. cbn [mbind result_bind].
    by rewrite (dict_get_elem vm choice fl Hnd Hin). }
  split; [done|]. split.
  - apply filter_keys_nil in Hedges. rewrite Forall_forall in Hedges.
    apply Forall_forall. intros k Hk Hedge.
    specialize (Hedges k Hedge). apply dict_contains_true in Hk. congruence.
  - exists first.2. split; [done|]. apply Forall_forall.
    intros [k fl'] Hk n' Hn'. simpl in *. apply (Hleast k).
    apply Hpm. right. by exists fl'.
Qed.


Lemma medium_corner_branch (self : Bot.t) (b : Board)
    (vm : dict coord (gset coord)) (rng : nat) :
  Exists (fun k => dict_contains vm k = true) Bot.CORNERS ->
  ∃ mv fl,
    Bot._medium_strategy self b vm rng = Ok (mv, fl) ∧ (mv, fl) ∈ vm.
Proof.
  intros (k & Hk & Hin)%Exists_exists.
  assert (k ∈ filter (fun k => dict_contains vm k) Bot.CORNERS) as Hkv.
  { apply list_elem_of_filter. split; [by rewrite Hin|done]. }
  assert (filter (fun k => dict_contains vm k) Bot.CORNERS ≠ []) as Hne.
  { intros Heq. rewrite Heq in Hkv. by apply elem_of_nil in Hkv. }
  destruct (random_choice_elem rng _ Hne) as (mv & Hchoice & Hmv).
  apply list_elem_of_filter in Hmv as [Hmv _]. apply Is_true_true in Hmv.
  destruct (dict_get_contains vm mv Hmv) as (fl & Hfl & Hitem).
  exists mv, fl. split; [|done]. unfold Bot._medium_strategy.
  rewrite bool_decide_eq_false_2 by done. cbn [negb].
  rewrite Hchoice. cbn [mbind result_bind]. by rewrite Hfl.
Qed.

(** Whether a move gives a corner away, read off one turn of the loop. *)
Lemma gifts_corner_run (self : Bot.t) (b : Board) (r c : Z)
    (fl : gset coord) (vnc : list coord) (pm : dict coord Z) :
  wf_board b ->
  Bot.rate_move self b ([], []) ((r, c), fl) = Ok (vnc, pm) ->
  (vnc = [] -> gifts_corner b (value (Bot.human_symbol self))
                 ({[ (r, c) ]} ∪ fl)) ∧
  (vnc ≠ [] -> ¬ gifts_corner b (value (Bot.human_symbol self))
                   ({[ (r, c) ]} ∪ fl)).
Proof.
  intros Hwf Hrun.
  destruct (rate_move_spec self b [] [] r c fl Hwf)
    as (s & _ & [[Hg Hstep]|[Hng Hstep]]);
    pose proof (eq_trans (eq_sym Hstep) Hrun) as Heq;
    injection Heq as <- <-; split; done.
Qed.

(** X7: on an 8x8 board the medium strategy returns, whatever the draw, an
    item of a non-empty mapping: a key with the capture set stored for it;
    on the empty mapping it raises [IndexError]. *)
Theorem medium_strategy_returns (self : Bot.t) (b : Board)
    (vm : dict coord (gset coord)) (rng : nat) :
  wf_board b -> NoDup (dict_keys vm) ->
  (vm ≠ [] ->
   ∃ mv fl, Bot._medium_strategy self b vm rng = Ok (mv, fl) ∧ (mv, fl) ∈ vm) ∧
  (vm = [] -> Bot._medium_strategy self b vm rng = Raise IndexError).
Proof.
  intros Hwf Hnd. split.
  - intros Hne.
    destruct (decide (Forall (fun k => dict_contains vm k = false)
                        Bot.CORNERS)) as [Hnone|Hsome].
    + destruct (medium_beyond_corners self b vm rng Hwf Hnd Hne Hnone)
        as (mv & fl & Hres & Hin & _).
      by exists mv, fl.
    + apply medium_corner_branch. apply not_Forall_Exists in Hsome; [|apply _].
      eapply Exists_impl; [exact Hsome|]. intros k Hk. simpl in Hk.
      by destruct (dict_contains vm k).
  - intros ->. reflexivity.
Qed.

Lemma medium_strategy_returns_witness :
  (exposure_moves ≠ [] ->
   ∃ mv fl,
     Bot._medium_strategy medium_black exposure_board exposure_moves 5
       = Ok (mv, fl) ∧ (mv, fl) ∈ exposure_moves) ∧
  (exposure_moves = [] ->
   Bot._medium_strategy medium_black exposure_board exposure_moves 5
     = Raise IndexError).
Proof.
  apply (medium_strategy_returns medium_black exposure_board exposure_moves 5).
  - split; [reflexivity|]. repeat constructor.
  - apply (bool_decide_unpack _). vm_compute. reflexivity.
Defined.

(** X8: with no corner among the keys, if some legal move does not give
    the opponent a corner then the medium strategy returns, whatever the
    draw, a move that does not. *)
Theorem medium_avoids_gift (self : Bot.t) (b : Board)
    (vm : dict coord (gset coord)) (rng : nat) :
  wf_board b -> NoDup (dict_keys vm) ->
  Forall (fun k => dict_contains vm k = false) Bot.CORNERS ->
  Exists (fun kv => ¬ gifts_corner b (value (Bot.human_symbol self))
                        ({[ kv.1 ]} ∪ kv.2)) vm ->
  ∃ mv fl,
    Bot._medium_strategy self b vm rng = Ok (mv, fl) ∧ (mv, fl) ∈ vm ∧
    ¬ gifts_corner b (value (Bot.human_symbol self)) ({[ mv ]} ∪ fl).
Proof.
  intros Hwf Hnd Hnone Hsafe.
  assert (vm ≠ []) as Hne.
  { intros ->. by apply Exists_nil in Hsafe. }
  destruct (medium_beyond_corners self b vm rng Hwf Hnd Hne Hnone)
    as (mv & fl & Hres & Hin & [Hng|[[Hall _]|[Hall _]]]).
  - by exists mv, fl.
  - apply Exists_exists in Hsafe as (kv & Hkv & Hng).
    rewrite Forall_forall in Hall. destruct Hng. by apply Hall.
  - apply Exists_exists in Hsafe as (kv & Hkv & Hng).
    rewrite Forall_forall in Hall. destruct Hng. by apply Hall.
Qed.

Lemma medium_avoids_gift_witness :
  ∃ mv fl,
    Bot._medium_strategy medium_black start_board start_moves 3
      = Ok (mv, fl) ∧ (mv, fl) ∈ start_moves ∧
    ¬ gifts_corner start_board (value (Bot.human_symbol medium_black))
        ({[ mv ]} ∪ fl).
Proof.
  apply (medium_avoids_gift medium_black start_board start_moves 3).
  - exact wf_start_board.
  - apply (bool_decide_unpack _). vm_compute. reflexivity.
  - repeat constructor.
  - apply Exists_cons_hd.
    refine (proj2 (gifts_corner_run medium_black start_board 2 4
                     {[ (3, 4) ]} [(2, 4)] [((2, 4), 8)] wf_start_board _) _).
    + vm_compute. reflexivity.
    + discriminate.
Defined.

(** X9: with no corner among the keys, if every legal move gives the
    opponent a corner and some legal move is on the edge of the board, the
    medium strategy returns, whatever the draw, a legal move on the edge. *)
Theorem medium_takes_edge (self : Bot.t) (b : Board)
    (vm : dict coord (gset coord)) (rng : nat) :
  wf_board b -> NoDup (dict_keys vm) ->
  Forall (fun k => dict_contains vm k = false) Bot.CORNERS ->
  Forall (fun kv => gifts_corner b (value (Bot.human_symbol self))
                      ({[ kv.1 ]} ∪ kv.2)) vm ->
  Exists on_edge (dict_keys vm) ->
  ∃ mv fl,
    Bot._medium_strategy self b vm rng = Ok (mv, fl) ∧ (mv, fl) ∈ vm ∧
    on_edge mv.
Proof.
  intros Hwf Hnd Hnone Hall Hedge.
  assert (vm ≠ []) as Hne.
  { intros ->. by apply Exists_nil in Hedge. }
  destruct (medium_beyond_corners self b vm rng Hwf Hnd Hne Hnone)
    as (mv & fl & Hres & Hin & [Hng|[[_ Hmv]|(_ & Hnoedge & _)]]).
  - rewrite Forall_forall in Hall. destruct Hng. by apply (Hall (mv, fl)).
  - exists mv, fl. split; [done|]. split; [done|].
    by apply elem_of_EDGES in Hmv as [? _].
  - apply Exists_exists in Hedge as (k & Hk & Hon).
    rewrite Forall_forall in Hnoedge. destruct (Hnoedge k Hk).
    apply elem_of_EDGES. split; [done|]. intros ->.
    rewrite Forall_forall in Hnone.
    assert (dict_contains vm (7, 7) = false) as Hc.
    { apply Hnone. do 3 apply list_elem_of_further. apply list_elem_of_here. }
    apply dict_contains_true in Hk. congruence.
Qed.

Lemma medium_takes_edge_witness :
  ∃ mv fl,
    Bot._medium_strategy medium_black edge_gift_board edge_gift_moves 0
      = Ok (mv, fl) ∧ (mv, fl) ∈ edge_gift_moves ∧ on_edge mv.
Proof.
  apply (medium_takes_edge medium_black edge_gift_board edge_gift_moves 0).
  - split; [reflexivity|]. repeat constructor.
  - apply (bool_decide_unpack _). vm_compute. reflexivity.
  - repeat constructor.
  - constructor; [|constructor].
    refine (proj1 (gifts_corner_run medium_black edge_gift_board 1 0
                     {[ (2, 0) ]} [] [((1, 0), 5)] _ _) _).
    + split; [reflexivity|]. repeat constructor.
    + vm_compute. reflexivity.
    + reflexivity.
  - apply Exists_cons_hd. split; [reflexivity|]. right. right. left.
    reflexivity.
Defined.

(** X10: with no corner among the keys, if every legal move gives the
    opponent a corner and none is on the edge, the medium strategy returns,
    whatever the draw, a legal move whose exposure set is the smallest. *)
Theorem medium_least_exposure (self : Bot.t) (b : Board)
    (vm : dict coord (gset coord)) (rng : nat) :
  wf_board b -> NoDup (dict_keys vm) -> vm ≠ [] ->
  Forall (fun k => dict_contains vm k = false) Bot.CORNERS ->
  Forall (fun kv => gifts_corner b (value (Bot.human_symbol self))
                      ({[ kv.1 ]} ∪ kv.2)) vm ->
  Forall (fun k => ¬ on_edge k) (dict_keys vm) ->
  ∃ mv fl n,
    Bot._medium_strategy self b vm rng = Ok (mv, fl) ∧ (mv, fl) ∈ vm ∧
    exposure_count b ({[ mv ]} ∪ fl) n ∧
    Forall (fun kv => ∀ n', exposure_count b ({[ kv.1 ]} ∪ kv.2) n' ->
                            n <= n') vm.
Proof.
  intros Hwf Hnd Hne Hnone Hall Hnoedge.
  destruct (medium_beyond_corners self b vm rng Hwf Hnd Hne Hnone)
    as (mv & fl & Hres & Hin & [Hng|[[_ Hmv]|(_ & _ & n & Hn & Hleast)]]).
  - rewrite Forall_forall in Hall. destruct Hng. by apply (Hall (mv, fl)).
  - rewrite Forall_forall in Hnoedge. destruct (Hnoedge mv).
    + apply list_elem_of_fmap. by exists (mv, fl).
    + by apply elem_of_EDGES in Hmv as [? _].
  - by exists mv, fl, n.
Qed.

Lemma medium_least_exposure_witness :
  ∃ mv fl n,
    Bot._medium_strategy medium_black exposure_board exposure_moves 5
      = Ok (mv, fl) ∧ (mv, fl) ∈ exposure_moves ∧
    exposure_count exposure_board ({[ mv ]} ∪ fl) n ∧
    Forall (fun kv => ∀ n', exposure_count exposure_board
                              ({[ kv.1 ]} ∪ kv.2) n' -> n <= n')
      exposure_moves.
Proof.
  apply (medium_least_exposure medium_black exposure_board exposure_moves 5).
  - split; [reflexivity|]. repeat constructor.
  - apply (bool_decide_unpack _). vm_compute. reflexivity.
  - discriminate.
  - repeat constructor.
  - assert (wf_board exposure_board) as Hwf.
    { split; [reflexivity|]. repeat constructor. }
    constructor; [|constructor; [|constructor]].
    + refine (proj1 (gifts_corner_run medium_black exposure_board 1 1
                       {[ (2, 2) ]} [] [((1, 1), 10)] Hwf _) _).
      * vm_compute. reflexivity.
      * reflexivity.
    + refine (proj1 (gifts_corner_run medium_black exposure_board 6 6
                       {[ (5, 5) ]} [] [((6, 6), 9)] Hwf _) _).
      * vm_compute. reflexivity.
      * reflexivity.
  - constructor; [|constructor; [|constructor]].
    + intros [_ Hedge]. simpl in Hedge. lia.
    + intros [_ Hedge]. simpl in Hedge. lia.
Defined.

Example exposure_moves_enumerated :
  get_valid_moves exposure_board BLACK = Ok exposure_moves ∧
  get_valid_moves edge_gift_board BLACK = Ok edge_gift_moves ∧
  get_valid_moves start_board BLACK = Ok start_moves ∧
  Bot._medium_strategy medium_black exposure_board exposure_moves 5
    = Ok ((6, 6), {[ (5, 5) ]}).
Proof. split_and!; by vm_compute. Qed.

(** ** [Bot.get_move] *)

Lemma legal_move_item (b : Board) (sym : Symbol)
    (d : dict coord (gset coord)) :
  (∀ p fl, (p, fl) ∈ d ↔
           in_range p.1 p.2 = true ∧ board_get b p.1 p.2 = Ok None ∧
           pieces_flipped b p.1 p.2 (value sym) = Ok fl ∧ fl ≠ ∅) ->
  ∀ p, legal_move b (value sym) p ↔ p ∈ dict_keys d.
Proof.
  intros Hitems p. unfold legal_move, dict_keys.
  rewrite list_elem_of_fmap. split.
  - intros (Hin & Hget & fl & Hfl & Hne). exists (p, fl). split; [done|].
    by apply Hitems.
  - intros ([p' fl] & -> & Hp). apply Hitems in Hp as (? & ? & ? & ?).
    split_and!; try done. by exists fl.
Qed.

Lemma bot_get_move_items (self : Bot.t) (b : Board) (rng : nat) :
  wf_board b ->
  ∃ d,
    (∀ p fl, (p, fl) ∈ d ↔
             in_range p.1 p.2 = true ∧ board_get b p.1 p.2 = Ok None ∧
             pieces_flipped b p.1 p.2 (value (Bot.bot_symbol self)) = Ok fl ∧
             fl ≠ ∅) ∧
    ((d = [] ∧ Bot.get_move self b rng = Ok None) ∨
     (∃ mv fl, Bot.get_move self b rng = Ok (Some (mv, fl)) ∧ (mv, fl) ∈ d)).
Proof.
  intros Hwf. unfold Bot.get_move.
  destruct (get_valid_moves_items b (Bot.bot_symbol self) Hwf)
    as (d & -> & Hnd & Hitems).
  exists d. split; [done|]. cbn [mbind result_bind].
  destruct (decide (d = [])) as [->|Hne]; [by left|].
  right. rewrite bool_decide_eq_false_2 by done.
  assert (∃ mv fl,
            Bot._medium_strategy self b d rng = Ok (mv, fl) ∧ (mv, fl) ∈ d)
    as (mmv & mfl & Hmedium & Hmin).
  { destruct (decide (Forall (fun k => dict_contains d k = false)
                        Bot.CORNERS)) as [Hnone|Hsome].
    - destruct (medium_beyond_corners self b d rng Hwf Hnd Hne Hnone)
        as (mv & fl & Hres & Hin & _).
      by exists mv, fl.
    - apply medium_corner_branch.
      apply not_Forall_Exists in Hsome; [|apply _].
      eapply Exists_impl; [exact Hsome|]. intros k Hk. simpl in Hk.
      by destruct (dict_contains d k). }
  assert (∃ emv efl,
            (move ← random_choice rng (dict_keys d);
             fl ← dict_get d move;
             mret (Some (move, fl))) = Ok (Some (emv, efl)) ∧ (emv, efl) ∈ d)
    as (emv & efl & Heasy & Hein).
  { destruct (random_choice_elem rng (dict_keys d)) as (mv & Hchoice & Hmv).
    { destruct d; [done|discriminate]. }
    apply dict_contains_true in Hmv.
    destruct (dict_get_contains d mv Hmv) as (fl & Hfl & Hin).
    exists mv, fl. split; [|done].
    rewrite Hchoice. cbn [mbind result_bind]. by rewrite Hfl. }
  destruct (Bot.difficulty self).
  - by exists emv, efl.
  - exists mmv, mfl. by rewrite Hmedium.
  - exists mmv, mfl. by rewrite Hmedium.
Qed.

(** X11: on an 8x8 board [Bot.get_move] never raises: it returns the pass
    signal [None] exactly when the bot's colour has no legal move, and
    otherwise, at every difficulty and for every draw, a legal move paired
    with the capture set the legality engine gives for it. *)
Theorem bot_get_move_legal (self : Bot.t) (b : Board) (rng : nat) :
  wf_board b ->
  (Bot.get_move self b rng = Ok None ∧
   ∀ p, ¬ legal_move b (value (Bot.bot_symbol self)) p) ∨
  (∃ mv fl,
     Bot.get_move self b rng = Ok (Some (mv, fl)) ∧
     legal_move b (value (Bot.bot_symbol self)) mv ∧
     pieces_flipped b mv.1 mv.2 (value (Bot.bot_symbol self)) = Ok fl ∧
     fl ≠ ∅).
Proof.
  intros Hwf.
  destruct (bot_get_move_items self b rng Hwf)
    as (d & Hitems & [[-> Hpass]|(mv & fl & Hmove & Hin)]).
  - left. split; [done|]. intros p Hp.
    apply (legal_move_item b _ [] Hitems) in Hp. by apply elem_of_nil in Hp.
  - right. exists mv, fl. split; [done|].
    apply Hitems in Hin as (? & ? & ? & ?).
    split; [|done]. split_and!; try done. by exists fl.
Qed.

Lemma bot_get_move_legal_witness :
  (Bot.get_move medium_black exposure_board 5 = Ok None ∧
   ∀ p, ¬ legal_move exposure_board (value (Bot.bot_symbol medium_black)) p) ∨
  (∃ mv fl,
     Bot.get_move medium_black exposure_board 5 = Ok (Some (mv, fl)) ∧
     legal_move exposure_board (value (Bot.bot_symbol medium_black)) mv ∧
     pieces_flipped exposure_board mv.1 mv.2
       (value (Bot.bot_symbol medium_black)) = Ok fl ∧
     fl ≠ ∅).
Proof.
  apply (bot_get_move_legal medium_black exposure_board 5).
  split; [reflexivity|]. repeat constructor.
Defined.

(** X12: at the easy difficulty every legal move of the bot's colour is
    returned for some draw. *)
Theorem easy_reaches_every_move (self : Bot.t) (b : Board) (mv : coord) :
  wf_board b -> Bot.difficulty self = EASY ->
  legal_move b (value (Bot.bot_symbol self)) mv ->
  ∃ rng fl, Bot.get_move self b rng = Ok (Some (mv, fl)).
Proof.
  intros Hwf Heasy Hmv. unfold Bot.get_move.
  destruct (get_valid_moves_items b (Bot.bot_symbol self) Hwf)
    as (d & Hd & Hnd & Hitems).
  apply (legal_move_item b _ d Hitems) in Hmv.
  destruct (random_choice_onto (dict_keys d) mv Hmv) as [rng Hrng].
  apply dict_contains_true in Hmv.
  destruct (dict_get_contains d mv Hmv) as (fl & Hfl & Hin).
  exists rng, fl. rewrite Hd. cbn [mbind result_bind].
  rewrite bool_decide_eq_false_2.
  2: { intros ->. by apply elem_of_nil in Hin. }
  rewrite Heasy, Hrng. cbn [mbind result_bind]. by rewrite Hfl.
Qed.

Lemma easy_reaches_every_move_witness :
  ∃ rng fl, Bot.get_move easy_black start_board rng = Ok (Some ((5, 3), fl)).
Proof.
  apply (easy_reaches_every_move easy_black start_board (5, 3)).
  - exact wf_start_board.
  - reflexivity.
  - split; [reflexivity|]. split; [reflexivity|].
    exists {[ (4, 3) ]}. split; [vm_compute; reflexivity|].
    intros Heq. apply (f_equal (fun s : gset coord => size s)) in Heq.
    vm_compute in Heq. discriminate.
Defined.

(** ** [Human.get_move] *)

Lemma pieces_flipped_target_empty b r c pv fl :
  pieces_flipped b r c pv = Ok fl -> fl ≠ ∅ -> board_get b r c = Ok None.
Proof.
  unfold pieces_flipped. intros Hfl Hne.
  destruct (board_get b r c) as [[v|]| |]; try done.
  cbn in Hfl. injection Hfl as <-. done.
Qed.

Lemma human_get_move_inv (self : Human.t) (b : Board)
    (input : nat -> option Z) (fuel : nat) :
  ∀ pos mv fl pos',
    Human.get_move fuel self b input pos = Ok (mv, fl, pos') ->
    in_range mv.1 mv.2 = true ∧
    pieces_flipped b mv.1 mv.2 (value (Human.symbol self)) = Ok fl ∧
    fl ≠ ∅ ∧
    (pos + 2 <= pos')%nat ∧
    input (pos' - 2)%nat = Some mv.1 ∧ input (pos' - 1)%nat = Some mv.2.
Proof.
  induction fuel as [|fuel IH]; intros pos mv fl pos' Hget; [done|].
  cbn [Human.get_move] in Hget.
  destruct (input pos) as [row|] eqn:Hrow.
  2: { apply IH in Hget. intuition lia. }
  destruct (py_getitem b 0) as [row0| |]; [|done..].
  cbn [mbind result_bind] in Hget.
  destruct (input (S pos)) as [col|] eqn:Hcol.
  2: { apply IH in Hget. intuition lia. }
  destruct (in_range row col) eqn:Hin; cbn [negb] in Hget.
  2: { apply IH in Hget. intuition lia. }
  destruct (pieces_flipped b row col _) as [flipped| |] eqn:Hfl; [|done..].
  cbn [mbind result_bind] in Hget.
  destruct (set_truthy flipped) eqn:Hne.
  2: { apply IH in Hget. intuition lia. }
  injection Hget as <- <- <-. apply set_truthy_true in Hne.
  replace (S (S pos) - 2)%nat with pos by lia.
  replace (S (S pos) - 1)%nat with (S pos) by lia.
  split_and!; try done. lia.
Qed.

(** X13: when [Human.get_move] returns, the move is a legal move of the
    player's colour with the capture set of the legality engine, and it is
    the pair of integers on the last two lines read; entries before it were
    skipped. *)
Theorem human_get_move_legal (self : Human.t) (b : Board)
    (input : nat -> option Z) (fuel pos : nat) mv fl pos' :
  Human.get_move fuel self b input pos = Ok (mv, fl, pos') ->
  legal_move b (value (Human.symbol self)) mv ∧
  pieces_flipped b mv.1 mv.2 (value (Human.symbol self)) = Ok fl ∧
  (pos + 2 <= pos')%nat ∧
  input (pos' - 2)%nat = Some mv.1 ∧ input (pos' - 1)%nat = Some mv.2.
Proof.
  intros Hget.
  apply human_get_move_inv in Hget as (Hin & Hfl & Hne & Hpos & Hr & Hc).
  split; [|done]. split; [done|]. split.
  - by eapply pieces_flipped_target_empty.
  - by exists fl.
Qed.

Lemma human_get_move_safe (self : Human.t) (b : Board)
    (input : nat -> option Z) (fuel : nat) :
  wf_board b ->
  ∀ pos,
    (∀ e, Human.get_move fuel self b input pos ≠ Raise e) ∧
    ((∀ p, ¬ legal_move b (value (Human.symbol self)) p) ->
     Human.get_move fuel self b input pos = Timeout).
Proof.
  intros Hwf. induction fuel as [|fuel IH]; intros pos; [done|].
  cbn [Human.get_move].
  destruct (input pos) as [row|]; [|apply IH].
  destruct (py_getitem_inside b 0) as (row0 & -> & _).
  { destruct Hwf as [-> _]. lia. }
  cbn [mbind result_bind].
  destruct (input (S pos)) as [col|]; [|apply IH].
  destruct (in_range row col) eqn:Hin; cbn [negb]; [|apply IH].
  destruct (pieces_flipped_total b row col (value (Human.symbol self))
              Hwf Hin) as [fl Hfl].
  rewrite Hfl. cbn [mbind result_bind].
  destruct (set_truthy fl) eqn:Hne; [|apply IH].
  split; [done|]. intros Hnone. destruct (Hnone (row, col)).
  apply set_truthy_true in Hne. split; [done|].
  split; [by eapply pieces_flipped_target_empty|]. by exists fl.
Qed.


Lemma human_get_move_legal_witness :
  legal_move start_board (value (Human.symbol (Human.mk BLACK))) (2, 4) ∧
  pieces_flipped start_board (2, 4).1 (2, 4).2
    (value (Human.symbol (Human.mk BLACK))) = Ok {[ (3, 4) ]} ∧
  (0 + 2 <= 9)%nat ∧
  typed_lines (9 - 2)%nat = Some (2, 4).1 ∧
  typed_lines (9 - 1)%nat = Some (2, 4).2.
Proof.
  apply (human_get_move_legal (Human.mk BLACK) start_board typed_lines 10 0
           (2, 4) {[ (3, 4) ]} 9).
  vm_compute. reflexivity.
Defined.


(** ** [Game.display_board] *)

Lemma symbols_valid x : valid_cell x -> ∃ s, Game.symbols x = Ok s.
Proof. intros [->|[->| ->]]; by eexists. Qed.

Lemma symbols_invalid x : ¬ valid_cell x -> Game.symbols x = Raise KeyError.
Proof.
  intros Hx. destruct x as [v|]; [|destruct Hx; by left]. simpl.
  destruct (Z.eqb_spec v 0) as [->|?]; [destruct Hx; right; by left|].
  destruct (Z.eqb_spec v 1) as [->|?]; [destruct Hx; right; by right|].
  done.
Qed.

Lemma valid_cell_dec x : valid_cell x ∨ ¬ valid_cell x.
Proof.
  destruct x as [v|]; [|left; by left].
  destruct (decide (v = 0)) as [->|?]; [left; right; by left|].
  destruct (decide (v = 1)) as [->|?]; [left; right; by right|].
  right. intros [?|[?|?]]; congruence.
Qed.

Lemma map_result_all {A B} (f : A -> result B) (P : A -> Prop) (l : list A) :
  (∀ x, P x -> ∃ y, f x = Ok y) -> Forall P l ->
  ∃ ys, Game.map_result f l = Ok ys ∧ length ys = length l.
Proof.
  intros Hf. induction 1 as [|x l Hx Hl IH]; [by exists []|].
  destruct (Hf x Hx) as [y Hy]. destruct IH as (ys & Hys & Hlen).
  exists (y :: ys). simpl. rewrite Hy. cbn [mbind result_bind].
  rewrite Hys. split; [done|]. simpl. by rewrite Hlen.
Qed.

Lemma map_result_some {A B} (f : A -> result B) (P : A -> Prop) (e : exn)
    (l : list A) :
  (∀ x, P x -> ∃ y, f x = Ok y) -> (∀ x, ¬ P x -> f x = Raise e) ->
  (∀ x, P x ∨ ¬ P x) ->
  ¬ Forall P l -> Game.map_result f l = Raise e.
Proof.
  intros Hok Hbad Hdec. induction l as [|x l IH]; intros Hl.
  - destruct Hl. constructor.
  - simpl. destruct (Hdec x) as [Hx|Hx].
    + destruct (Hok x Hx) as [y ->]. cbn [mbind result_bind].
      rewrite IH; [done|]. intros Hall. apply Hl. by constructor.
    + by rewrite (Hbad x Hx).
Qed.

Lemma display_row_ok (r : Z) (row : list cell) :
  Forall valid_cell row ->
  ∃ line,
    (cells ← Game.map_result Game.symbols row;
     mret (Game.format_int2 r +:+ " " +:+
           Game.join " " (Game.format_str2 <$> cells))) = Ok line.
Proof.
  intros Hrow.
  destruct (map_result_all Game.symbols valid_cell row symbols_valid Hrow)
    as (cells & -> & _).
  by eexists.
Qed.

Lemma display_row_bad (r : Z) (row : list cell) :
  ¬ Forall valid_cell row ->
  (cells ← Game.map_result Game.symbols row;
   mret (Game.format_int2 r +:+ " " +:+
         Game.join " " (Game.format_str2 <$> cells))) = Raise KeyError.
Proof.
  intros Hrow.
  by rewrite (map_result_some Game.symbols valid_cell KeyError row
                symbols_valid symbols_invalid valid_cell_dec Hrow).
Qed.

Lemma Forall_valid_dec (row : list cell) :
  Forall valid_cell row ∨ ¬ Forall valid_cell row.
Proof.
  induction row as [|x row IH]; [left; constructor|].
  destruct (valid_cell_dec x) as [Hx|Hx].
  - destruct IH as [Hrow|Hrow]; [left; by constructor|right].
    by intros [_ ?]%Forall_cons.
  - right. by intros [? _]%Forall_cons.
Qed.

(** X15: [Game.display_board] prints one header line and one line per row
    when every cell is empty, Black or White, and raises [KeyError] as soon
    as a cell holds any other integer; it raises nothing else. *)
Theorem display_board_cells (g : Game.t) :
  (valid_cells (Game.board g) ->
   ∃ lines, Game.display_board g = Ok lines ∧
            length lines = S (length (Game.board g))) ∧
  (¬ valid_cells (Game.board g) -> Game.display_board g = Raise KeyError).
Proof.
  unfold Game.display_board, valid_cells.
  set (show := fun '(r, row) => _).
  assert (∀ p : Z * list cell, Forall valid_cell p.2 -> ∃ y, show p = Ok y)
    as Hok.
  { intros [r row] Hrow. by apply display_row_ok. }
  assert (∀ p : Z * list cell, ¬ Forall valid_cell p.2 ->
                               show p = Raise KeyError) as Hbad.
  { intros [r row] Hrow. by apply display_row_bad. }
  assert (∀ b, Forall (fun p : Z * list cell => Forall valid_cell p.2)
                 (imap (fun i row => (Z.of_nat i, row)) b) ↔
               Forall (Forall valid_cell) b) as Himap.
  { intros b. rewrite !Forall_forall. split.
    - intros Hall row (i & Hi)%list_elem_of_lookup.
      apply (Hall (Z.of_nat i, row)). apply list_elem_of_lookup. exists i.
      by rewrite list_lookup_imap, Hi.
    - intros Hall [r row] (i & Hi)%list_elem_of_lookup.
      rewrite list_lookup_imap in Hi.
      destruct (b !! i) as [row'|] eqn:Hrow; [|done]. injection Hi as <- <-.
      apply Hall. by eapply list_elem_of_lookup_2. }
  split.
  - intros Hvalid. apply Himap in Hvalid.
    destruct (map_result_all show _ _ Hok Hvalid) as (rows & -> & Hlen).
    eexists. split; [done|]. simpl. by rewrite Hlen, length_imap.
  - intros Hinvalid.
    rewrite (map_result_some show (fun p => Forall valid_cell p.2) KeyError);
      try done.
    + intros [r row]. apply Forall_valid_dec.
    + by rewrite Himap.
Qed.

(** ** [Game.play] *)

Lemma board_set_valid b r c sym b' :
  valid_cells b -> board_set b r c (Some (value sym)) = Ok b' ->
  valid_cells b'.
Proof.
  unfold valid_cells, board_set. intros Hvalid Hset.
  destruct (py_getitem b r) as [row| |] eqn:Hrow; [|done..].
  cbn [mbind result_bind] in Hset. unfold py_setitem in Hset.
  destruct (py_index (length row) c) as [k| |]; [|done..].
  destruct (py_index (length b) r) as [i| |]; [|done..].
  cbn [mbind result_bind] in Hset. injection Hset as <-.
  apply Forall_insert; [done|]. apply Forall_insert.
  - apply py_getitem_elem in Hrow. by eapply Forall_forall in Hvalid.
  - destruct sym; [right; by left|right; by right].
Qed.

Lemma move_valid g row col fl ok g' :
  valid_cells (Game.board g) -> Game.move g row col fl = Ok (ok, g') ->
  valid_cells (Game.board g').
Proof.
  intros Hvalid Hmove.
  apply move_inv in Hmove as (_ & _ & _ & (b1 & Hb1 & Hb2) & _).
  apply board_set_valid in Hb1; [|done].
  revert Hb2 Hb1. generalize (Game.board g') as b2. generalize b1.
  induction (elements fl) as [|[r c] l IH]; intros b b2 Hrun Hb.
  - by injection Hrun as <-.
  - cbn [for_each] in Hrun.
    destruct (board_set b r c _) as [b0| |] eqn:Hset; [|done..].
    apply (IH b0 b2 Hrun). by eapply board_set_valid.
Qed.

(** What one call of [get_move] through the player table gives, when the
    player plays for the colour to move. *)
Lemma player_get_move_cases (g : Game.t) (fuel rng : nat)
    (input : nat -> option Z) (pos : nat) :
  wf_board (Game.board g) ->
  player_symbol (Game.players g (Game.current g)) = Game.current g ->
  match Game.player_get_move fuel (Game.players g (Game.current g))
          (Game.board g) rng input pos with
  | Ok (Some (mv, fl), _) =>
      in_range mv.1 mv.2 = true ∧
      board_get (Game.board g) mv.1 mv.2 = Ok None ∧
      pieces_flipped (Game.board g) mv.1 mv.2 (value (Game.current g))
        = Ok fl ∧
      fl ≠ ∅
  | Ok (None, pos') =>
      pos' = pos ∧ ∀ p, ¬ legal_move (Game.board g) (value (Game.current g)) p
  | Raise _ => False
  | Timeout => True
  end.
Proof.
  intros Hwf Hsym. unfold Game.player_get_move.
  destruct (Game.players g (Game.current g)) as [sym|bot];
    simpl in Hsym; rewrite <- Hsym.
  - destruct (Human.get_move fuel (Human.mk sym) (Game.board g) input pos)
      as [[[mv fl] pos']|e|] eqn:Hget; cbn [mbind result_bind]; [| |done].
    + apply human_get_move_inv in Hget as (Hin & Hfl & Hne & _).
      simpl in *. split_and!; try done.
      by eapply pieces_flipped_target_empty.
    + by eapply (proj1 (human_get_move_safe (Human.mk sym) (Game.board g)
                          input fuel Hwf pos)).
  - destruct (bot_get_move_items bot (Game.board g) rng Hwf)
      as (d & Hitems & [[-> ->]|(mv & fl & -> & Hin)]);
      cbn [mbind result_bind].
    + split; [done|]. intros p Hp.
      apply (legal_move_item _ _ [] Hitems) in Hp. by apply elem_of_nil in Hp.
    + by apply Hitems in Hin.
Qed.

Lemma display_board_ok g :
  valid_cells (Game.board g) -> ∃ lines, Game.display_board g = Ok lines.
Proof.
  intros Hvalid.
  destruct (map_result_all
              (fun '(r, row) =>
                 cells ← Game.map_result Game.symbols row;
                 mret (Game.format_int2 r +:+ " " +:+
                       Game.join " " (Game.format_str2 <$> cells)))
              (fun p : Z * list cell => Forall valid_cell p.2)
              (imap (fun i row => (Z.of_nat i, row)) (Game.board g)))
    as (rows & Hrows & _).
  - intros [r row] Hrow. by apply display_row_ok.
  - apply Forall_forall. intros [r row] (i & Hi)%list_elem_of_lookup.
    rewrite list_lookup_imap in Hi.
    destruct (Game.board g !! i) as [row'|] eqn:Hrow; [|done].
    injection Hi as <- <-. unfold valid_cells in Hvalid.
    rewrite Forall_forall in Hvalid. apply Hvalid.
    by eapply list_elem_of_lookup_2.
  - unfold Game.display_board. rewrite Hrows. by eexists.
Qed.

Lemma play_S fuel g rng turn input pos :
  Game.play (S fuel) g rng turn input pos =
    if negb (Game.game_over g) then
      _ ← Game.display_board g;
      '(res, pos) ← Game.player_get_move fuel
                      (Game.players g (Game.current g)) (Game.board g)
                      (rng turn) input pos;
      match res with
      | Some ((row, col), flipped) =>
          '(_, g1) ← Game.move g row col flipped;
          Game.play fuel g1 rng (S turn) input pos
      | None => Game.play fuel g rng (S turn) input pos
      end
    else
      _ ← Game.display_board g;
      mret (g, pos).
Proof. reflexivity. Qed.

(** The loop invariant of [Game.play]. *)
Lemma play_inv (rng : nat -> nat) (input : nat -> option Z) (fuel : nat) :
  ∀ g turn pos,
    wf_board (Game.board g) -> valid_cells (Game.board g) ->
    (∀ s, player_symbol (Game.players g s) = s) ->
    (Game.game_over g = true ↔ 60 <= Game.moves g) ->
    match Game.play fuel g rng turn input pos with
    | Ok (g', _) =>
        ∃ ms, legal_run g ms g' ∧ Game.game_over g' = true ∧
              (Game.game_over g = false -> Game.moves g' = 60) ∧
              (Game.game_over g = true -> g' = g)
    | Raise _ => False
    | Timeout => True
    end.
Proof.
  induction fuel as [|fuel IH]; intros g turn pos Hwf Hvalid Hsym Hover;
    [done|].
  rewrite play_S.
  destruct (display_board_ok g Hvalid) as [lines ->].
  cbn [mbind result_bind].
  destruct (Game.game_over g) eqn:Hg; cbn [negb].
  { exists []. split; [constructor|]. done. }
  pose proof (player_get_move_cases g fuel (rng turn) input pos Hwf
                (Hsym _)) as Hcases.
  destruct (Game.player_get_move _ _ _ _ _ _) as [[[[mv fl]|] pos']|e|];
    cbn [mbind result_bind]; [| |done|done].
  - destruct Hcases as (Hin & Hget & Hfl & Hne).
    destruct (move_placing g mv.1 mv.2 fl Hwf Hin Hget Hfl)
      as (g1 & Hmove & Hwf1 & _).
    destruct mv as [row col]. simpl in *. rewrite Hmove.
    cbn [mbind result_bind].
    pose proof (move_valid _ _ _ _ _ _ Hvalid Hmove) as Hvalid1.
    pose proof (move_inv _ _ _ _ _ _ Hmove)
      as (_ & Hmoves & Hplayers & _ & Hend).
    assert (Game.moves g < 60) as Hlt.
    { destruct (Z.ltb_spec (Game.moves g) 60); [done|].
      assert (false = true) by by apply Hover. done. }
    assert (Game.game_over g1 = true ↔ 60 <= Game.moves g1) as Hover1.
    { destruct (Z.eqb_spec (Game.moves g + 1) 60) as [H60|Hne60].
      - destruct Hend as (-> & _). split; [lia|done].
      - destruct Hend as (-> & _). rewrite Hg. split; [done|lia]. }
    specialize (IH g1 (S turn) pos' Hwf1 Hvalid1).
    destruct (Game.play fuel g1 rng (S turn) input pos')
      as [[g' pos'']|e|]; [| |done].
    + destruct IH as (ms & Hrun & Hover' & Hmoves' & Hsame); [|done|].
      { intros s. by rewrite Hplayers. }
      exists ((row, col) :: ms). split; [by econstructor|]. split; [done|].
      split; [|done]. intros _.
      destruct (Game.game_over g1) eqn:Hg1; [|by apply Hmoves'].
      rewrite (Hsame eq_refl).
      assert (60 <= Game.moves g1) by by apply Hover1. lia.
    + apply IH; [|done]. intros s. by rewrite Hplayers.
  - destruct Hcases as [-> _].
    assert (Game.game_over g = true ↔ 60 <= Game.moves g) as Hover2.
    { by rewrite Hg. }
    specialize (IH g (S turn) pos Hwf Hvalid Hsym Hover2).
    destruct (Game.play fuel g rng (S turn) input pos)
      as [[g' pos'']|e|]; [|done|done].
    destruct IH as (ms & Hrun & Hover' & Hmoves' & _). exists ms.
    split; [done|]. split; [done|]. split; [|done]. intros _.
    by apply Hmoves'.
Qed.

Lemma valid_start_board : valid_cells start_board.
Proof.
  unfold valid_cells, start_board.
  repeat (first [apply Forall_nil|apply Forall_cons; split]);
    unfold valid_cell; auto.
Qed.

(** X16: when [Game.play] returns for a new game whose two players play
    for their own colours, the game it leaves is over after exactly 60
    moves, each of them a legal move of the colour then to move with the
    capture set of the legality engine, and the board is full. *)
Theorem play_completes pb pw s g0 (fuel : nat) (rng : nat -> nat)
    (input : nat -> option Z) g pos :
  player_symbol pb = BLACK -> player_symbol pw = WHITE ->
  Game.init pb pw s = Ok g0 ->
  Game.play fuel g0 rng 0 input 0 = Ok (g, pos) ->
  ∃ ms,
    legal_run g0 ms g ∧ length ms = 60%nat ∧
    Game.game_over g = true ∧ Game.moves g = 60 ∧
    pieces (Game.board g) = 64.
Proof.
  rewrite Game_init_start. intros Hb Hw [= <-] Hplay.
  pose proof (play_inv rng input fuel (start_game pb pw s) 0%nat 0%nat
                wf_start_board valid_start_board) as Hinv.
  rewrite Hplay in Hinv.
  destruct Hinv as (ms & Hrun & Hover & Hmoves & _).
  - by intros [].
  - simpl. split; [done|lia].
  - specialize (Hmoves eq_refl). exists ms.
    destruct (placing_run_pieces _ _ _ (legal_run_placing _ _ _ Hrun)
                wf_start_board) as (_ & Hpieces & Hcount).
    simpl in Hcount. split; [done|]. split; [lia|]. split; [done|].
    split; [done|]. rewrite Hpieces.
    replace (Z.of_nat (length ms)) with 60 by lia. reflexivity.
Qed.

Lemma play_completes_witness :
  ∃ ms,
    legal_run bot_game ms bot_game_end ∧ length ms = 60%nat ∧
    Game.game_over bot_game_end = true ∧ Game.moves bot_game_end = 60 ∧
    pieces (Game.board bot_game_end) = 64.
Proof.
  apply (play_completes (Game.Computer (Bot.mk BLACK WHITE EASY))
           (Game.Computer (Bot.mk WHITE BLACK MEDIUM)) BLACK bot_game
           61 bot_draws no_lines bot_game_end 0).
  - reflexivity.
  - reflexivity.
  - reflexivity.
  - vm_compute. reflexivity.
Defined.



(** X18: when the game is not over and the player to move, playing for
    the colour to move, has no legal move, [Game.play] never returns: a
    bot passes without the turn changing and a human is asked again, so
    the same position comes back in every pass of the loop. *)
Theorem play_never_passes g (fuel : nat) (rng : nat -> nat) (turn : nat)
    (input : nat -> option Z) (pos : nat) :
  wf_board (Game.board g) -> valid_cells (Game.board g) ->
  Game.game_over g = false ->
  player_symbol (Game.players g (Game.current g)) = Game.current g ->
  (∀ p, ¬ legal_move (Game.board g) (value (Game.current g)) p) ->
  Game.play fuel g rng turn input pos = Timeout.
Proof.
  intros Hwf Hvalid Hover Hsym Hnone. revert turn pos.
  induction fuel as [|fuel IH]; intros turn pos; [done|].
  rewrite play_S, Hover. cbn [negb].
  destruct (display_board_ok g Hvalid) as [lines ->].
  cbn [mbind result_bind].
  pose proof (player_get_move_cases g fuel (rng turn) input pos Hwf Hsym)
    as Hcases.
  destruct (Game.player_get_move _ _ _ _ _ _) as [[[[mv fl]|] pos']|e|];
    cbn [mbind result_bind]; [| |done|done].
  - destruct Hcases as (Hin & Hget & Hfl & Hne). destruct (Hnone mv).
    split; [done|]. split; [done|]. by exists fl.
  - apply IH.
Qed.

Lemma play_never_passes_witness :
  Game.play 25 stuck_game bot_draws 0 typed_lines 0 = Timeout.
Proof.
  apply (play_never_passes stuck_game 25 bot_draws 0 typed_lines 0).
  - exact wf_edge_board.
  - unfold valid_cells, stuck_game, edge_board. simpl.
    repeat (first [apply Forall_nil|apply Forall_cons; split]);
      unfold valid_cell; auto.
  - reflexivity.
  - reflexivity.
  - intros p (Hin & Hget & fl & Hfl & Hne).
    assert (get_valid_moves edge_board BLACK = Ok []) as Hnone
      by (vm_compute; reflexivity).
    destruct (get_valid_moves_items edge_board BLACK wf_edge_board)
      as (d & Hd & _ & Hitems).
    rewrite Hnone in Hd. injection Hd as <-.
    assert ((p, fl) ∈ ([] : list (coord * gset coord))) as Hp
      by by apply Hitems.
    by apply elem_of_nil in Hp.
Defined.

Lemma move_effect_witness :
  ∃ g1,
    Game.move (start_game (Game.Human BLACK) (Game.Human WHITE) BLACK)
      2 4 {[ (3, 4) ]} = Ok (true, g1) ∧
    Game.moves g1 =
      Game.moves (start_game (Game.Human BLACK) (Game.Human WHITE) BLACK) + 1 ∧
    (∀ p, p = (2, 4) ∨ p ∈ ({[ (3, 4) ]} : gset coord) ->
       board_get (Game.board g1) p.1 p.2 =
         Ok (Some (value (Game.current
                            (start_game (Game.Human BLACK) (Game.Human WHITE)
                               BLACK))))) ∧
    (if Game.moves g1 =? 60 then
       Game.game_over g1 = true ∧ Game.winner g1 = Game._find_winner g1
     else
       Game.game_over g1 =
         Game.game_over (start_game (Game.Human BLACK) (Game.Human WHITE) BLACK) ∧
       Game.current g1 =
         opponent (Game.current
                     (start_game (Game.Human BLACK) (Game.Human WHITE) BLACK))).
Proof.
  apply (move_effect (start_game (Game.Human BLACK) (Game.Human WHITE) BLACK)
           2 4 {[ (3, 4) ]}).
  - exact wf_start_board.
  - reflexivity.
  - intros p Hp. apply elem_of_singleton in Hp. subst p. reflexivity.
Defined.

(** ** The length of a game *)

Lemma placing_run_occupied g ms g' :
  placing_run g ms g' -> wf_board (Game.board g) ->
  wf_board (Game.board g') ∧
  occupied (Game.board g') = occupied (Game.board g) + Z.of_nat (length ms).
Proof.
  induction 1 as [g|g r c fl ok g1 ms g2 Hin Hget Hfl Hmove Hrun IH];
    intros Hwf.
  - simpl. split; [done|]. lia.
  - destruct (move_placing g r c fl Hwf Hin Hget Hfl)
      as (g1' & Hmove' & Hwf1 & Hocc & _).
    rewrite Hmove in Hmove'. injection Hmove' as -> <-.
    destruct (IH Hwf1) as [Hwf2 Hocc2]. split; [done|].
    simpl length. lia.
Qed.

Lemma filter_length_le {A} (f : A -> bool) (l : list A) :
  (length (List.filter f l) <= length l)%nat.
Proof.
  induction l as [|x l IH]; [done|]. simpl. destruct (f x); simpl; lia.
Qed.

Lemma filter_length_all {A} (f : A -> bool) (l : list A) :
  length (List.filter f l) = length l -> Forall (fun x => f x = true) l.
Proof.
  induction l as [|x l IH]; [constructor|]. simpl.
  pose proof (filter_length_le f l).
  destruct (f x) eqn:Hx; simpl; intros Hlen; [|lia].
  constructor; [done|]. apply IH. lia.
Qed.

Lemma wf_board_cells b : wf_board b -> length (concat b) = 64%nat.
Proof.
  intros [Hlen Hrows].
  do 8 (destruct b as [|? b]; [done|]). destruct b; [|done].
  repeat match goal with
         | H : Forall _ (_ :: _) |- _ => apply Forall_cons in H as [? H]
         end.
  rewrite !concat_cons, !length_app. simpl. lia.
Qed.

Lemma full_board_occupied b r c :
  wf_board b -> occupied b = 64 -> in_range r c = true ->
  ∃ v, board_get b r c = Ok (Some v).
Proof.
  intros Hwf Hfull Hin. unfold occupied, count_if in Hfull.
  pose proof (wf_board_cells b Hwf) as Hcells.
  assert (Forall (fun x => negb (is_none x) = true) (concat b)) as Hall.
  { apply filter_length_all. lia. }
  destruct (board_get_total b r c Hwf Hin) as [x Hx].
  destruct (in_range_nonneg _ _ Hin) as [Hr Hc].
  pose proof Hx as Hcell. apply board_get_cell_at in Hcell; [|done..].
  unfold cell_at in Hcell.
  destruct (b !! Z.to_nat r) as [row|] eqn:Hrow; [|done]. simpl in Hcell.
  assert (x ∈ concat b) as Hmem.
  { apply list_elem_of_In, in_concat. exists row. split.
    - apply list_elem_of_In. by eapply list_elem_of_lookup_2.
    - apply list_elem_of_In. by eapply list_elem_of_lookup_2. }
  rewrite Forall_forall in Hall. specialize (Hall x Hmem).
  destruct x as [v|]; [by exists v|done].
Qed.

(** X21: play that puts each piece on an empty cell fills one cell per
    move, so from the starting position it has at most 60 moves, and after
    the 60th neither colour has a legal move: the constant 60 in
    [Game.move] is the number of empty cells of a new game. *)
Theorem game_length pb pw s g0 ms g :
  Game.init pb pw s = Ok g0 ->
  placing_run g0 ms g ->
  (length ms <= 60)%nat ∧
  occupied (Game.board g) = 4 + Z.of_nat (length ms) ∧
  (length ms = 60%nat -> ∀ sym p, ¬ legal_move (Game.board g) (value sym) p).
Proof.
  rewrite Game_init_start. intros [= <-] Hrun.
  destruct (placing_run_occupied _ _ _ Hrun wf_start_board) as [Hwf Hocc].
  change (occupied (Game.board (start_game pb pw s))) with 4 in Hocc.
  assert (occupied (Game.board g) <= 64) as Hle.
  { unfold occupied, count_if.
    pose proof (filter_length_le (fun x => negb (is_none x))
                  (concat (Game.board g))).
    pose proof (wf_board_cells _ Hwf). lia. }
  split; [lia|]. split; [done|].
  intros Hlen sym p (Hin & Hget & _).
  destruct (full_board_occupied (Game.board g) p.1 p.2 Hwf) as [v Hv];
    [lia|done|]. congruence.
Qed.

Lemma game_length_witness :
  (length full_game <= 60)%nat ∧
  occupied (Game.board full_game_end) = 4 + Z.of_nat (length full_game) ∧
  (length full_game = 60%nat ->
   ∀ sym p, ¬ legal_move (Game.board full_game_end) (value sym) p).
Proof.
  apply (game_length (Game.Human BLACK) (Game.Human WHITE) BLACK
           (start_game (Game.Human BLACK) (Game.Human WHITE) BLACK)
           full_game full_game_end).
  - reflexivity.
  - apply legal_run_placing, replay_sound. vm_compute. reflexivity.
Defined.

(** ** The legality engine on the board turned upside down *)

Lemma wf_flip_rows b : wf_board b -> wf_board (flip_rows b).
Proof.
  intros [Hlen Hrows]. unfold flip_rows. split.
  - by rewrite length_reverse.
  - by apply Forall_reverse.
Qed.

Lemma in_range_flip r c : in_range (7 - r) c = in_range r c.
Proof.
  destruct (in_range r c) eqn:Hin.
  - apply in_range_spec in Hin. apply in_range_spec. lia.
  - apply in_range_false in Hin. apply in_range_false. lia.
Qed.

Lemma board_get_flip b r c :
  wf_board b -> in_range r c = true ->
  board_get (flip_rows b) (7 - r) c = board_get b r c.
Proof.
  intros Hwf Hin. pose proof Hin as [Hr Hc]%in_range_spec.
  rewrite !board_get_nonneg by lia. unfold cell_at, flip_rows.
  destruct Hwf as [Hlen _].
  rewrite reverse_lookup by lia. rewrite Hlen.
  by replace (8 - S (Z.to_nat (7 - r)))%nat with (Z.to_nat r) by lia.
Qed.

Lemma holds_flip b p v :
  wf_board b -> holds b p v -> holds (flip_rows b) (flip_coord p) v.
Proof.
  intros Hwf [Hin Hget]. unfold holds, flip_coord. simpl.
  rewrite in_range_flip. split; [done|]. by rewrite board_get_flip.
Qed.

Lemma flip_dirs d : d ∈ dirs -> (- d.1, d.2) ∈ dirs.
Proof.
  unfold dirs. intros Hd.
  repeat (apply elem_of_cons in Hd as [->|Hd];
          [apply (bool_decide_unpack _); by vm_compute|]).
  by apply elem_of_nil in Hd.
Qed.

Lemma capture_spec_flip b r c pv p :
  wf_board b -> capture_spec b r c pv p ->
  capture_spec (flip_rows b) (7 - r) c pv (flip_coord p).
Proof.
  intros Hwf (d & Hd & n & k & Hk & -> & Hrun & Hclose).
  exists (- d.1, d.2). split; [by apply flip_dirs|].
  assert (∀ j, step_from (7 - r) c (- d.1) d.2 j =
               flip_coord (step_from r c d.1 d.2 j)) as Hstep.
  { intros j. unfold step_from, flip_coord. simpl. f_equal. lia. }
  exists n, k. simpl. split; [done|]. split; [by rewrite Hstep|]. split.
  - intros j Hj. rewrite Hstep. apply holds_flip; [done|]. by apply Hrun.
  - rewrite Hstep. by apply holds_flip.
Qed.

Lemma flip_rows_involutive b : flip_rows (flip_rows b) = b.
Proof. unfold flip_rows. apply reverse_involutive. Qed.

Lemma flip_coord_involutive p : flip_coord (flip_coord p) = p.
Proof. destruct p as [r c]. unfold flip_coord. simpl. f_equal. lia. Qed.

(** X22: turning the board upside down turns the capture set upside down:
    on an 8x8 board and at an on-board target, a cell is captured exactly
    when its mirror image is captured by the mirrored move on the mirrored
    board. *)
Theorem pieces_flipped_flip b r c pv :
  wf_board b -> in_range r c = true ->
  ∃ s s',
    pieces_flipped b r c pv = Ok s ∧
    pieces_flipped (flip_rows b) (7 - r) c pv = Ok s' ∧
    ∀ p, p ∈ s ↔ flip_coord p ∈ s'.
Proof.
  intros Hwf Hin. pose proof (wf_flip_rows b Hwf) as Hwf'.
  pose proof (board_get_flip b r c Hwf Hin) as Hget'.
  destruct (board_get_total b r c Hwf Hin) as [[v|] Hget];
    rewrite Hget in Hget'.
  - exists ∅, ∅. rewrite (pieces_flipped_occupied _ _ _ _ _ Hget).
    rewrite (pieces_flipped_occupied _ _ _ _ _ Hget'). split; [done|].
    split; [done|]. intros p. by rewrite !elem_of_empty.
  - destruct (pieces_flipped_empty b r c pv Hwf Hget) as (s & Hs & Hspec).
    destruct (pieces_flipped_empty _ _ _ pv Hwf' Hget')
      as (s' & Hs' & Hspec').
    exists s, s'. split; [done|]. split; [done|]. intros p.
    rewrite Hspec, Hspec'. split; [by apply capture_spec_flip|].
    intros Hp. apply capture_spec_flip in Hp; [|done].
    rewrite flip_rows_involutive, flip_coord_involutive in Hp.
    by replace (7 - (7 - r)) with r in Hp by lia.
Qed.

Lemma pieces_flipped_flip_witness :
  ∃ s s',
    pieces_flipped start_board 2 4 (value BLACK) = Ok s ∧
    pieces_flipped (flip_rows start_board) (7 - 2) 4 (value BLACK) = Ok s' ∧
    ∀ p, p ∈ s ↔ flip_coord p ∈ s'.
Proof.
  apply (pieces_flipped_flip start_board 2 4 (value BLACK)).
  - exact wf_start_board.
  - reflexivity.
Defined.

(** ** The rendering determines the board *)

Lemma map_result_lookup {A B} (f : A -> result B) (l : list A) :
  ∀ ys,
    Game.map_result f l = Ok ys ->
    length ys = length l ∧
    ∀ i x, l !! i = Some x -> ∃ y, ys !! i = Some y ∧ f x = Ok y.
Proof.
  induction l as [|x l IH]; intros ys Hys; simpl in Hys.
  - injection Hys as <-. split; [done|]. intros i x Hi. done.
  - destruct (f x) as [y| |] eqn:Hy; [|done..].
    cbn [mbind result_bind] in Hys.
    destruct (Game.map_result f l) as [ys'| |]; [|done..].
    cbn [mbind result_bind] in Hys. injection Hys as <-.
    destruct (IH ys' eq_refl) as [Hlen Hlook]. split; [simpl; lia|].
    intros [|i] x' Hi; simpl in *.
    + injection Hi as <-. by exists y.
    + by apply Hlook.
Qed.

Lemma symbols_token x s :
  Game.symbols x = Ok s ->
  (x = None ∧ s = ".") ∨ (x = Some 0 ∧ s = "B") ∨ (x = Some 1 ∧ s = "W").
Proof.
  destruct x as [v|]; simpl.
  - destruct (Z.eqb_spec v 0) as [->|?]; [intros [= <-]; right; by left|].
    destruct (Z.eqb_spec v 1) as [->|?]; [intros [= <-]; right; by right|].
    done.
  - intros [= <-]. by left.
Qed.

Lemma join_cons_cons sep x y l :
  Game.join sep (x :: y :: l) = x +:+ sep +:+ Game.join sep (y :: l).
Proof. reflexivity. Qed.

(** The cells of a row can be read back from its rendering. *)
Lemma render_cells_inj (row1 : list cell) :
  ∀ row2 cells1 cells2,
    Game.map_result Game.symbols row1 = Ok cells1 ->
    Game.map_result Game.symbols row2 = Ok cells2 ->
    Game.join " " (Game.format_str2 <$> cells1) =
      Game.join " " (Game.format_str2 <$> cells2) ->
    row1 = row2.
Proof.
  assert (∀ x row cells,
            Game.map_result Game.symbols (x :: row) = Ok cells ->
            ∃ s cells',
              Game.symbols x = Ok s ∧
              Game.map_result Game.symbols row = Ok cells' ∧
              cells = s :: cells') as Hinv.
  { intros x row cells Hcells. simpl in Hcells.
    destruct (Game.symbols x) as [s| |]; [|done..].
    cbn [mbind result_bind] in Hcells.
    destruct (Game.map_result Game.symbols row) as [cells'| |]; [|done..].
    injection Hcells as <-. by exists s, cells'. }
  induction row1 as [|x1 row1 IH]; intros row2 cells1 cells2 H1 H2 HJ.
  - injection H1 as <-. destruct row2 as [|x2 row2]; [done|].
    apply Hinv in H2 as (s2 & cells2' & Hs2 & H2 & ->).
    apply symbols_token in Hs2 as [[-> ->]|[[-> ->]|[-> ->]]];
      destruct cells2'; discriminate HJ.
  - apply Hinv in H1 as (s1 & cells1' & Hs1 & H1 & ->).
    destruct row2 as [|x2 row2].
    { injection H2 as <-.
      apply symbols_token in Hs1 as [[-> ->]|[[-> ->]|[-> ->]]];
        destruct cells1'; discriminate HJ. }
    apply Hinv in H2 as (s2 & cells2' & Hs2 & H2 & ->).
    cbn [fmap list_fmap] in HJ.
    assert (x1 = x2 ∧
            Game.join " " (Game.format_str2 <$> cells1') =
              Game.join " " (Game.format_str2 <$> cells2')) as [-> HJ'].
    { destruct row1 as [|y1 row1]; destruct row2 as [|y2 row2].
      - injection H1 as <-. injection H2 as <-.
        apply symbols_token in Hs1 as [[-> ->]|[[-> ->]|[-> ->]]];
          apply symbols_token in Hs2 as [[-> ->]|[[-> ->]|[-> ->]]];
          try discriminate HJ; done.
      - injection H1 as <-.
        apply Hinv in H2 as (t2 & c2 & _ & _ & ->).
        cbn [fmap list_fmap] in HJ. rewrite join_cons_cons in HJ.
        apply symbols_token in Hs1 as [[-> ->]|[[-> ->]|[-> ->]]];
          apply symbols_token in Hs2 as [[-> ->]|[[-> ->]|[-> ->]]];
          discriminate HJ.
      - injection H2 as <-.
        apply Hinv in H1 as (t1 & c1 & _ & _ & ->).
        cbn [fmap list_fmap] in HJ. rewrite join_cons_cons in HJ.
        apply symbols_token in Hs1 as [[-> ->]|[[-> ->]|[-> ->]]];
          apply symbols_token in Hs2 as [[-> ->]|[[-> ->]|[-> ->]]];
          discriminate HJ.
      - pose proof H1 as H1'. pose proof H2 as H2'.
        apply Hinv in H1' as (t1 & c1 & _ & _ & ->).
        apply Hinv in H2' as (t2 & c2 & _ & _ & ->).
        cbn [fmap list_fmap] in HJ |- *. rewrite !join_cons_cons in HJ.
        apply symbols_token in Hs1 as [[-> ->]|[[-> ->]|[-> ->]]];
          apply symbols_token in Hs2 as [[-> ->]|[[-> ->]|[-> ->]]];
          try discriminate HJ; cbn -[Game.join] in HJ; injection HJ as HJ;
          (split; [reflexivity|exact HJ]). }
    f_equal. by eapply IH.
Qed.

(** X23: the lines [Game.display_board] prints determine the board: two
    games for which it returns the same lines have the same board. *)
Theorem display_board_inj g1 g2 lines :
  Game.display_board g1 = Ok lines ->
  Game.display_board g2 = Ok lines ->
  Game.board g1 = Game.board g2.
Proof.
  unfold Game.display_board. intros Hd1 Hd2.
  set (show := fun '(r, row) => _) in Hd1, Hd2.
  destruct (Game.map_result show (imap _ (Game.board g1)))
    as [rows1| |] eqn:Hrows1; [|done..].
  destruct (Game.map_result show (imap _ (Game.board g2)))
    as [rows2| |] eqn:Hrows2; [|done..].
  cbn [mbind result_bind] in Hd1, Hd2.
  injection Hd1 as <-. injection Hd2 as _ Hrows. subst rows2.
  apply map_result_lookup in Hrows1 as [Hlen1 Hlook1].
  apply map_result_lookup in Hrows2 as [Hlen2 Hlook2].
  rewrite length_imap in Hlen1, Hlen2.
  apply list_eq_same_length with (length rows1); [done..|].
  intros i row1 row2 Hi Hrow1 Hrow2.
  destruct (Hlook1 i (Z.of_nat i, row1)) as (line1 & Hline1 & Hshow1).
  { by rewrite list_lookup_imap, Hrow1. }
  destruct (Hlook2 i (Z.of_nat i, row2)) as (line2 & Hline2 & Hshow2).
  { by rewrite list_lookup_imap, Hrow2. }
  rewrite Hline1 in Hline2. injection Hline2 as <-.
  unfold show in Hshow1, Hshow2.
  destruct (Game.map_result Game.symbols row1) as [cells1| |] eqn:Hc1;
    [|done..].
  destruct (Game.map_result Game.symbols row2) as [cells2| |] eqn:Hc2;
    [|done..].
  cbn [mbind result_bind] in Hshow1, Hshow2.
  injection Hshow1 as Hshow1. injection Hshow2 as Hshow2.
  rewrite <- Hshow1 in Hshow2.
  apply (inj (String.app _)) in Hshow2.
  apply (inj (String.app _)) in Hshow2.
  by eapply render_cells_inj.
Qed.

Lemma display_board_inj_witness :
  Game.board (start_game (Game.Human BLACK) (Game.Human WHITE) BLACK) =
  Game.board bot_game.
Proof.
  apply (display_board_inj
           (start_game (Game.Human BLACK) (Game.Human WHITE) BLACK) bot_game
           [ "    0  1  2  3  4  5  6  7"; " 0 .  .  .  .  .  .  .  . ";
             " 1 .  .  .  .  .  .  .  . "; " 2 .  .  .  .  .  .  .  . ";
             " 3 .  .  .  B  W  .  .  . "; " 4 .  .  .  W  B  .  .  . ";
             " 5 .  .  .  .  .  .  .  . "; " 6 .  .  .  .  .  .  .  . ";
             " 7 .  .  .  .  .  .  .  . " ]).
  - vm_compute. reflexivity.
  - vm_compute. reflexivity.
Defined.
